(** * Inner-join ordering of the optimizer (src/jrd/optimizer/InnerJoin.cpp)

    A shallow embedding of [InnerJoin::findJoinOrder], [InnerJoin::findBestOrder],
    [InnerJoin::estimateCost], [InnerJoin::getStreamInfo],
    [InnerJoin::calculateStreamInfo] and [InnerJoin::getIndexedRelationships],
    followed by the properties of the search.

    Conventions of the embedding:
    - a stream number ([StreamType]) is a [nat];
    - a [double] is an exact rational ([Q]); rounding and NaN are not modelled;
    - a [StreamInfo*] is the index of the record in [innerStreams];
    - the [csb_active] bits of the compiler scratch are the set of active streams;
    - the mutable members of the class and the scratch form the record [InnerJoin],
      threaded through every function;
    - an out-of-range array access and a dereference of the null pointer returned
      by [getStreamInfo] are [AssertFailure]; the recursion of [findBestOrder] is
      by fuel, and [OutOfFuel] is shown never to happen for the fuel used. *)

From Stdlib Require Import QArith.
From stdpp Require Import base tactics option list gmap.

Local Open Scope nat_scope.

(** ** Results of fallible code *)

Inductive result (A : Type) : Type :=
  | Ok (a : A)
  | AssertFailure
  | OutOfFuel.
Arguments Ok {A} a.
Arguments AssertFailure {A}.
Arguments OutOfFuel {A}.

Definition rbind {A B} (m : result A) (f : A → result B) : result B :=
  match m with
  | Ok a => f a
  | AssertFailure => AssertFailure
  | OutOfFuel => OutOfFuel
  end.

Notation "x ←r m ; k" := (rbind m (λ x, k))
  (at level 20, m at level 100, k at level 200, right associativity, only parsing).
Notation "' p ←r m ; k" := (rbind m (λ x, match x with p => k end))
  (at level 20, p pattern, m at level 100, k at level 200, right associativity, only parsing).

(** A checked pointer or array access. *)
Definition deref {A} (o : option A) : result A :=
  match o with
  | Some a => Ok a
  | None => AssertFailure
  end.

(** ** Comparison of costs *)

(** [a < b] on costs, as a boolean. *)
Definition Qltb (a b : Q) : bool := negb (Qle_bool b a).

(** ** Data model *)

Definition StreamType := nat.

Record IndexRelationship := mkIndexRelationship {
  ir_stream : StreamType;
  ir_unique : bool;
  ir_cost : Q;
  ir_cardinality : Q
}.

Definition IndexedRelationships := list IndexRelationship.

Record StreamInfo := mkStreamInfo {
  stream : StreamType;
  baseCost : Q;
  baseSelectivity : Q;
  baseIndexes : nat;
  baseUnique : bool;
  baseNavigated : bool;
  previousExpectedStreams : nat;
  used : bool;
  indexedRelationships : IndexedRelationships
}.

Record JoinedStreamInfo := mkJoinedStreamInfo {
  bestStream : StreamType;
  number : StreamType
}.

(** The result of the Retrieval probe ([Retrieval::getInversion]). *)
Record InversionCandidate := mkInversionCandidate {
  ic_cost : Q;
  ic_selectivity : Q;
  ic_indexes : nat;
  ic_unique : bool;
  ic_navigated : bool;
  ic_dependentFromStreams : list StreamType
}.

(** One line of the OPT_DEBUG trace written by [printFoundOrder]: the arguments
    of the call and the streams of the order under exploration. *)
Record FoundOrder := mkFoundOrder {
  fo_position : nat;
  fo_positionCost : Q;
  fo_positionCardinality : Q;
  fo_cost : Q;
  fo_cardinality : Q;
  fo_streams : list StreamType
}.

(** The mutable state: the active bits of [csb->csb_rpt], the members of
    [InnerJoin], and two histories that the code does not keep: [foundOrders],
    the [printFoundOrder] trace (one entry per invocation of [findBestOrder]),
    and [estimates], the calls of [estimateCost] (stream and [start]). *)
Record InnerJoin := mkInnerJoin {
  csb_active : gset StreamType;
  innerStreams : list StreamInfo;
  joinedStreams : list JoinedStreamInfo;
  bestCount : nat;
  bestCost : Q;
  remainingStreams : nat;
  foundOrders : list FoundOrder;
  estimates : list (StreamType * bool)
}.

Definition set_csb_active (a : gset StreamType) (ij : InnerJoin) : InnerJoin :=
  mkInnerJoin a (innerStreams ij) (joinedStreams ij) (bestCount ij) (bestCost ij)
              (remainingStreams ij) (foundOrders ij) (estimates ij).
Definition set_innerStreams (l : list StreamInfo) (ij : InnerJoin) : InnerJoin :=
  mkInnerJoin (csb_active ij) l (joinedStreams ij) (bestCount ij) (bestCost ij)
              (remainingStreams ij) (foundOrders ij) (estimates ij).
Definition set_joinedStreams (l : list JoinedStreamInfo) (ij : InnerJoin) : InnerJoin :=
  mkInnerJoin (csb_active ij) (innerStreams ij) l (bestCount ij) (bestCost ij)
              (remainingStreams ij) (foundOrders ij) (estimates ij).
Definition set_best (n : nat) (c : Q) (ij : InnerJoin) : InnerJoin :=
  mkInnerJoin (csb_active ij) (innerStreams ij) (joinedStreams ij) n c
              (remainingStreams ij) (foundOrders ij) (estimates ij).
Definition set_bestCount (n : nat) (ij : InnerJoin) : InnerJoin :=
  mkInnerJoin (csb_active ij) (innerStreams ij) (joinedStreams ij) n (bestCost ij)
              (remainingStreams ij) (foundOrders ij) (estimates ij).
Definition set_remainingStreams (n : nat) (ij : InnerJoin) : InnerJoin :=
  mkInnerJoin (csb_active ij) (innerStreams ij) (joinedStreams ij) (bestCount ij)
              (bestCost ij) n (foundOrders ij) (estimates ij).
Definition log_foundOrder (f : FoundOrder) (ij : InnerJoin) : InnerJoin :=
  mkInnerJoin (csb_active ij) (innerStreams ij) (joinedStreams ij) (bestCount ij)
              (bestCost ij) (remainingStreams ij) (foundOrders ij ++ [f]) (estimates ij).
Definition log_estimate (e : StreamType * bool) (ij : InnerJoin) : InnerJoin :=
  mkInnerJoin (csb_active ij) (innerStreams ij) (joinedStreams ij) (bestCount ij)
              (bestCost ij) (remainingStreams ij) (foundOrders ij) (estimates ij ++ [e]).

(** [tail->activate()] and [tail->deactivate()] on [csb->csb_rpt[s]]. *)
Definition activate (s : StreamType) (ij : InnerJoin) : InnerJoin :=
  set_csb_active ({[s]} ∪ csb_active ij) ij.
Definition deactivate (s : StreamType) (ij : InnerJoin) : InnerJoin :=
  set_csb_active (csb_active ij ∖ {[s]}) ij.

Definition set_used (b : bool) (si : StreamInfo) : StreamInfo :=
  mkStreamInfo (stream si) (baseCost si) (baseSelectivity si) (baseIndexes si)
               (baseUnique si) (baseNavigated si) (previousExpectedStreams si) b
               (indexedRelationships si).

Definition set_number (s : StreamType) (j : JoinedStreamInfo) : JoinedStreamInfo :=
  mkJoinedStreamInfo (bestStream j) s.
Definition set_bestStream (s : StreamType) (j : JoinedStreamInfo) : JoinedStreamInfo :=
  mkJoinedStreamInfo s (number j).

(** Modelled from the spec: [StreamInfo::isIndependent] of Optimizer.h,
    "[isIndependent()] is [previousExpectedStreams == 0]". *)
Definition isIndependent (si : StreamInfo) : bool :=
  previousExpectedStreams si =? 0.

(** Modelled from the spec: [StreamInfo::isFiltered] of Optimizer.h,
    "[isFiltered()] is [baseIndexes > 0]". *)
Definition isFiltered (si : StreamInfo) : bool :=
  0 <? baseIndexes si.

(** Modelled from the spec: [IndexRelationship::cheaperThan] of Optimizer.h,
    "a unique relationship is always cheaper than a non-unique one; within the
    same uniqueness class, lower cost wins". *)
Definition ir_cheaperThan (a b : IndexRelationship) : bool :=
  if eqb (ir_unique a) (ir_unique b) then Qltb (ir_cost a) (ir_cost b)
  else ir_unique a.

(** Modelled from the spec: [StreamInfo::cheaperThan] of Optimizer.h, an
    independent stream first, then a unique base access, then the lower
    [baseCost]. *)
Definition si_cheaperThan (a b : StreamInfo) : bool :=
  if negb (eqb (isIndependent a) (isIndependent b)) then isIndependent a
  else if negb (eqb (baseUnique a) (baseUnique b)) then baseUnique a
  else Qltb (baseCost a) (baseCost b).

(** Modelled from the spec: [IndexedRelationships::add] of Optimizer.h, the
    sorted array's insertion "at its sorted position", cheapest first: the new
    entry goes before the first entry that is not cheaper than it. *)
Fixpoint ir_add (r : IndexRelationship) (l : IndexedRelationships) : IndexedRelationships :=
  match l with
  | [] => [r]
  | p :: l' => if ir_cheaperThan p r then p :: ir_add r l' else r :: p :: l'
  end.

(** Modelled from the spec: MINIMUM_CARDINALITY of Optimizer.h, the floor of
    the position cardinality, "a minimum constant (one)". *)
Definition MINIMUM_CARDINALITY : Q := 1%Q.

(** ** [InnerJoin::getStreamInfo]: the first record with the stream number *)

Definition getStreamInfo (streams : list StreamInfo) (s : StreamType)
  : option (nat * StreamInfo) :=
  list_find (λ si, stream si = s) streams.

(** ** Example streams and probes *)

Module Examples.

(** A probe result with selectivity 1, no index and no uniqueness. *)
Definition candidate (cost : Q) (dependentFromStreams : list StreamType) : InversionCandidate :=
  mkInversionCandidate cost 1%Q 0 false false dependentFromStreams.

Definition relationship (s : StreamType) (cost : Q) : IndexRelationship :=
  mkIndexRelationship s false cost 1%Q.

Definition unit_cardinality (s : StreamType) : Q := 1%Q.

Definition slots (n : nat) : list JoinedStreamInfo := replicate n (mkJoinedStreamInfo 0 0).

(** A stable sort by insertion, as an instance of [qsort]: a record goes
    after the records that follow it in the list and compare strictly less,
    and so before those that compare equal. *)
Fixpoint sort_insert (compare : StreamInfo → StreamInfo → Z) (x : StreamInfo)
    (l : list StreamInfo) : list StreamInfo :=
  match l with
  | [] => [x]
  | y :: l' => if (compare y x <? 0)%Z then y :: sort_insert compare x l' else x :: y :: l'
  end.

Definition stable_sort (compare : StreamInfo → StreamInfo → Z) (l : list StreamInfo)
  : list StreamInfo :=
  foldr (sort_insert compare) [] l.

(** Three streams, each cheaper when another is active; stream 2 is cheapest
    once both 0 and 1 are active. *)
Definition chain_probe (active : gset StreamType) (s : StreamType) (sort : option unit)
  : InversionCandidate :=
  match s with
  | 0 => candidate (if bool_decide (1 ∈ active ∨ 2 ∈ active) then 5%Q else 10%Q) [1; 2]
  | 1 => candidate (if bool_decide (0 ∈ active ∨ 2 ∈ active) then 2%Q else 60%Q) [0; 2]
  | _ => candidate (if bool_decide (0 ∈ active ∧ 1 ∈ active) then 1%Q
                    else if bool_decide (0 ∈ active ∨ 1 ∈ active) then 50%Q else 100%Q) [0; 1]
  end.

Definition chain_streams : list StreamInfo :=
  [ mkStreamInfo 0 10%Q 1%Q 0 false false 2 false [relationship 2 1%Q; relationship 1 2%Q];
    mkStreamInfo 1 60%Q 1%Q 0 false false 2 false [relationship 2 1%Q; relationship 0 5%Q];
    mkStreamInfo 2 100%Q 1%Q 0 false false 2 false [relationship 1 2%Q; relationship 0 5%Q] ].

Definition chain_state : InnerJoin :=
  mkInnerJoin ∅ chain_streams (slots 3) 0 0%Q 0 [] [].

(** Two streams that depend on each other; the order from the second seed
    costs, after its first stream, what the full order from the first seed
    costs. *)
Definition tie_probe (active : gset StreamType) (s : StreamType) (sort : option unit)
  : InversionCandidate :=
  match s with
  | 0 => candidate (if bool_decide (1 ∈ active) then 5%Q else 10%Q) [1]
  | _ => candidate (if bool_decide (0 ∈ active) then 5%Q else 15%Q) [0]
  end.

Definition tie_streams : list StreamInfo :=
  [ mkStreamInfo 0 10%Q 1%Q 0 false false 1 false [relationship 1 5%Q];
    mkStreamInfo 1 15%Q 1%Q 0 false false 1 false [relationship 0 5%Q] ].

Definition tie_state : InnerJoin :=
  mkInnerJoin ∅ tie_streams (slots 2) 0 0%Q 0 [] [].

(** The same after the first loop of [findJoinOrder]: two remaining streams. *)
Definition tie_search_state : InnerJoin :=
  mkInnerJoin ∅ tie_streams (slots 2) 0 0%Q 2 [] [].

(** Two independent streams. *)
Definition independent_probe (active : gset StreamType) (s : StreamType) (sort : option unit)
  : InversionCandidate :=
  match s with
  | 0 => candidate 10%Q []
  | _ => candidate 20%Q []
  end.

Definition independent_streams : list StreamInfo :=
  [ mkStreamInfo 0 10%Q 1%Q 0 false false 0 false [];
    mkStreamInfo 1 20%Q 1%Q 0 false false 0 false [] ].

Definition independent_state : InnerJoin :=
  mkInnerJoin ∅ independent_streams (slots 2) 0 0%Q 0 [] [].

(** Two independent streams given by a PLAN in the order 0, 1, the second
    the cheaper. *)
Definition planned_independent_probe (active : gset StreamType) (s : StreamType)
    (sort : option unit) : InversionCandidate :=
  match s with
  | 0 => candidate 20%Q []
  | _ => candidate 10%Q []
  end.

Definition planned_independent_streams : list StreamInfo :=
  [ mkStreamInfo 0 20%Q 1%Q 0 false false 0 false [];
    mkStreamInfo 1 10%Q 1%Q 0 false false 0 false [] ].

Definition planned_independent_state : InnerJoin :=
  mkInnerJoin ∅ planned_independent_streams (slots 2) 0 0%Q 0 [] [].

(** Three streams given by a PLAN in the order 0, 1, 2: streams 0 and 1 can
    use an index once stream 2 is active, stream 2 once stream 0 is. *)
Definition planned_probe (active : gset StreamType) (s : StreamType) (sort : option unit)
  : InversionCandidate :=
  match s with
  | 0 => candidate 10%Q [2]
  | 1 => candidate 10%Q [2]
  | _ => candidate 10%Q [0]
  end.

Definition planned_streams : list StreamInfo :=
  [ mkStreamInfo 0 10%Q 1%Q 0 false false 1 false [relationship 2 10%Q];
    mkStreamInfo 1 10%Q 1%Q 0 false false 1 false [];
    mkStreamInfo 2 10%Q 1%Q 0 false false 1 false [relationship 1 10%Q; relationship 0 10%Q] ].

Definition planned_state : InnerJoin :=
  mkInnerJoin ∅ planned_streams (slots 3) 0 0%Q 0 [] [].

(** Two streams that depend on each other, given by a PLAN in the order 0,
    1: only stream 1 can be read in the order of the sort by navigation. *)
Definition planned_navigated_probe (active : gset StreamType) (s : StreamType)
    (sort : option unit) : InversionCandidate :=
  match s with
  | 0 => mkInversionCandidate 10%Q 1%Q 0 false false [1]
  | _ => mkInversionCandidate 20%Q 1%Q 0 false true [0]
  end.

Definition planned_navigated_streams : list StreamInfo :=
  [ mkStreamInfo 0 10%Q 1%Q 0 false false 1 false [relationship 1 20%Q];
    mkStreamInfo 1 20%Q 1%Q 0 false true 1 false [relationship 0 10%Q] ].

Definition planned_navigated_state : InnerJoin :=
  mkInnerJoin ∅ planned_navigated_streams (slots 2) 0 0%Q 0 [] [].

(** Two navigated streams that depend on each other, the second filtered. *)
Definition navigated_probe (active : gset StreamType) (s : StreamType) (sort : option unit)
  : InversionCandidate :=
  match s with
  | 0 => mkInversionCandidate 10%Q 1%Q 0 false true [1]
  | _ => mkInversionCandidate 20%Q 1%Q 1 false true [0]
  end.

Definition navigated_streams : list StreamInfo :=
  [ mkStreamInfo 0 10%Q 1%Q 0 false true 1 false [relationship 1 20%Q];
    mkStreamInfo 1 20%Q 1%Q 1 false true 1 false [relationship 0 10%Q] ].

Definition navigated_state : InnerJoin :=
  mkInnerJoin ∅ navigated_streams (slots 2) 0 0%Q 0 [] [].

(** One independent stream, and the state after [findJoinOrder] has returned
    it: the stream is used. *)
Definition single_state : InnerJoin :=
  mkInnerJoin ∅ [mkStreamInfo 0 10%Q 1%Q 0 false false 0 false []] (slots 1) 0 0%Q 0 [] [].

Definition used_state : InnerJoin :=
  mkInnerJoin ∅ [mkStreamInfo 0 10%Q 1%Q 0 false false 0 true []] (slots 1) 1 10%Q 1 [] [].

End Examples.

(** ** The search *)

Section Search.

(** The constructor's arguments and the environment of the optimizer: whether
    an explicit PLAN was given, [optimizer->favorFirstRows()], the sort clause,
    the Retrieval probe as a function of the active streams, the probed stream
    and the sort clause passed to it, and [csb_cardinality] of each stream. *)
Variable plan : bool.
Variable favorFirstRows : bool.
Variable SortNode : Type.
Variable sort : option SortNode.
Variable getInversion : gset StreamType → StreamType → option SortNode → InversionCandidate.
Variable csb_cardinality : StreamType → Q.

(** The C library's [qsort], with the comparison function returning -1, 0 or
    1: the order it leaves among elements that compare equal is not specified. *)
Variable qsort : (StreamInfo → StreamInfo → Z) → list StreamInfo → list StreamInfo.

(** Modelled from the spec: the macro [MAX] of the common headers, by which the
    cardinality is "floored at a minimum constant": [a > b ? a : b]. *)
Definition MAX (a b : Q) : Q := if Qltb b a then a else b.

(** [InnerJoin::estimateCost]: the cost and the resulting cardinality. *)
Definition estimateCost (ij : InnerJoin) (s : StreamType) (start : bool) : Q * Q :=
  let candidate := getInversion (csb_active ij) s (if start then sort else None) in
  let cardinality := (csb_cardinality s * ic_selectivity candidate)%Q in
  (ic_cost candidate, MAX cardinality MINIMUM_CARDINALITY).

(** [joinedStreams[position].number = s]. *)
Definition store_number (position : nat) (s : StreamType) (ij : InnerJoin) : result InnerJoin :=
  j ←r deref (joinedStreams ij !! position);
  Ok (set_joinedStreams (<[position := set_number s j]> (joinedStreams ij)) ij).

(** [joinedStreams[position].bestStream = s]. *)
Definition store_bestStream (position : nat) (s : StreamType) (ij : InnerJoin) : result InnerJoin :=
  j ←r deref (joinedStreams ij !! position);
  Ok (set_joinedStreams (<[position := set_bestStream s j]> (joinedStreams ij)) ij).

(** The loop that saves the order as best: [bestStream = number] in the slots
    before [position]. *)
Definition copy_best (position : nat) (l : list JoinedStreamInfo) : list JoinedStreamInfo :=
  ((λ j, set_bestStream (number j) j) <$> take position l) ++ drop position l.

(** "If the partial order is either longer than any previous partial order, or
    the same length and cheap, save order as best". *)
Definition save_best (position : nat) (new_cost : Q) (ij : InnerJoin) : InnerJoin :=
  if (bestCount ij <? position) || ((position =? bestCount ij) && Qltb new_cost (bestCost ij))
  then set_joinedStreams (copy_best position (joinedStreams ij)) (set_best position new_cost ij)
  else ij.

(** [innerStreams[idx]->used = b]. *)
Definition mark_used (idx : nat) (b : bool) (ij : InnerJoin) : InnerJoin :=
  set_innerStreams (alter (set_used b) idx (innerStreams ij)) ij.

(** The loop that restores the flags: [innerStreams[i]->used = streamFlags[i]]. *)
Definition restore_used (streamFlags : list bool) (ij : InnerJoin) : InnerJoin :=
  set_innerStreams (zip_with (λ b si, set_used b si) streamFlags (innerStreams ij)) ij.

(** The two tests that set [done]. *)
Definition is_done (position : nat) (new_cost : Q) (ij : InnerJoin) : bool :=
  (position =? remainingStreams ij)
  || ((bestCount ij =? remainingStreams ij) && Qltb (bestCost ij) new_cost).

(** The scan of the process list for the stream of a relationship: the entry
    is removed when the relationship is cheaper ([found] stays false),
    otherwise [found] is set; the scan stops at the first entry of the stream. *)
Fixpoint scan_processList (relationship : IndexRelationship) (target : StreamType)
    (processList : IndexedRelationships) : bool * IndexedRelationships :=
  match processList with
  | [] => (false, [])
  | p :: rest =>
      if target =? ir_stream p then
        if ir_cheaperThan relationship p then (false, rest) else (true, p :: rest)
      else
        let '(found, rest') := scan_processList relationship target rest in
        (found, p :: rest')
  end.

(** "Add these relations to the processing list". *)
Fixpoint add_relationships (streams : list StreamInfo) (relationships : IndexedRelationships)
    (processList : IndexedRelationships) : result IndexedRelationships :=
  match relationships with
  | [] => Ok processList
  | relationship :: rest =>
      '(_, relationStreamInfo) ←r deref (getStreamInfo streams (ir_stream relationship));
      if used relationStreamInfo then add_relationships streams rest processList
      else
        let '(found, processList') :=
          scan_processList relationship (stream relationStreamInfo) processList in
        add_relationships streams rest
          (if found then processList' else ir_add relationship processList')
  end.

(** The first entry of the process list whose stream is not used. *)
Fixpoint next_relationship (streams : list StreamInfo) (processList : IndexedRelationships)
  : result (option nat) :=
  match processList with
  | [] => Ok None
  | nextRelationship :: rest =>
      '(i, relationStreamInfo) ←r deref (getStreamInfo streams (ir_stream nextRelationship));
      if used relationStreamInfo then next_relationship streams rest else Ok (Some i)
  end.

(** The first [StreamInfo] that is not used, for an explicit PLAN. *)
Definition next_stream (streams : list StreamInfo) : option nat :=
  fst <$> list_find (λ si, used si = false) streams.

(** The part of [findBestOrder] before the recursion: activation, the slot,
    the cost of the step, the best order, the trace and the used flag.
    Returns the stream's record, the saved flags, [new_cost] and
    [new_cardinality]. *)
Definition enter (position : nat) (idx : nat) (cost cardinality : Q) (ij : InnerJoin)
  : result (StreamInfo * list bool * Q * Q * InnerJoin) :=
  let start := position =? 0 in
  si ←r deref (innerStreams ij !! idx);
  let ij := activate (stream si) ij in
  ij ←r store_number position (stream si) ij;
  let position := S position in
  let streamFlags := used <$> innerStreams ij in
  let '(position_cost, position_cardinality, new_cost, new_cardinality, ij) :=
    if plan then (0%Q, 0%Q, 0%Q, 0%Q, ij)
    else
      let '(position_cost, position_cardinality) := estimateCost ij (stream si) start in
      (position_cost, position_cardinality,
       (cost + cardinality * position_cost)%Q,
       (position_cardinality * cardinality)%Q,
       log_estimate (stream si, start) ij) in
  let ij := save_best position new_cost ij in
  let ij := log_foundOrder
              (mkFoundOrder position position_cost position_cardinality new_cost
                 new_cardinality (number <$> take position (joinedStreams ij))) ij in
  let ij := mark_used idx true ij in
  Ok (si, streamFlags, new_cost, new_cardinality, ij).

(** "Clean up from any changes made for compute the cost for this stream". *)
Definition leave (si : StreamInfo) (streamFlags : list bool) (ij : InnerJoin) : InnerJoin :=
  restore_used streamFlags (deactivate (stream si) ij).

(** [InnerJoin::findBestOrder]. [position] is the argument (the slot to
    fill); the process list is passed by reference and so is returned. *)
Fixpoint findBestOrder (fuel : nat) (position : nat) (idx : nat)
    (processList : IndexedRelationships) (cost cardinality : Q) (ij : InnerJoin)
  : result (IndexedRelationships * InnerJoin) :=
  match fuel with
  | 0 => OutOfFuel
  | S fuel =>
      '(si, streamFlags, new_cost, new_cardinality, ij) ←r
        enter position idx cost cardinality ij;
      let position := S position in
      let done := is_done position new_cost ij in
      '(processList, ij) ←r
        (if negb done && negb plan then
           processList ←r add_relationships (innerStreams ij) (indexedRelationships si) processList;
           next ←r next_relationship (innerStreams ij) processList;
           match next with
           | Some next => findBestOrder fuel position next processList new_cost new_cardinality ij
           | None => Ok (processList, ij)
           end
         else Ok (processList, ij));
      '(processList, ij) ←r
        (if plan then
           match next_stream (innerStreams ij) with
           | Some next => findBestOrder fuel position next processList new_cost new_cardinality ij
           | None => Ok (processList, ij)
           end
         else Ok (processList, ij));
      Ok (processList, leave si streamFlags ij)
  end.

(** ** [InnerJoin::findJoinOrder] *)

(** The first loop: the counters and the cheapest independent stream. *)
Fixpoint count_streams (streams : list StreamInfo) (filters navigations : nat) (ij : InnerJoin)
  : result (nat * nat * InnerJoin) :=
  match streams with
  | [] => Ok (filters, navigations, ij)
  | innerStream :: rest =>
      if used innerStream then count_streams rest filters navigations ij
      else
        let ij := set_remainingStreams (S (remainingStreams ij)) ij in
        let currentFilter := if isFiltered innerStream then 1 else 0 in
        let navigations :=
          if negb (navigations =? 0) && negb (currentFilter =? 0) then 0 else navigations in
        let filters := filters + currentFilter in
        let navigations :=
          if baseNavigated innerStream && (currentFilter =? filters)
          then S navigations else navigations in
        ij ←r (if isIndependent innerStream then
                 if (bestCount ij =? 0) || Qltb (baseCost innerStream) (bestCost ij) then
                   ij ←r store_bestStream 0 (stream innerStream) ij;
                   Ok (set_best 1 (baseCost innerStream) ij)
                 else Ok ij
               else Ok ij);
        count_streams rest filters navigations ij
  end.

(** The test on a seed of the second loop. *)
Definition seed_allowed (filters navigations : nat) (innerStream : StreamInfo) : bool :=
  let currentFilter := if isFiltered innerStream then 1 else 0 in
  negb favorFirstRows || (navigations =? 0)
  || (baseNavigated innerStream && (currentFilter =? filters)).

(** The second loop, over the records [from], [from + 1], ... of [innerStreams]. *)
Fixpoint try_seeds (fuel : nat) (filters navigations : nat) (count from : nat)
    (indexedRelationships : IndexedRelationships) (ij : InnerJoin)
  : result (IndexedRelationships * InnerJoin) :=
  match count with
  | 0 => Ok (indexedRelationships, ij)
  | S count =>
      innerStream ←r deref (innerStreams ij !! from);
      if used innerStream then
        try_seeds fuel filters navigations count (S from) indexedRelationships ij
      else if seed_allowed filters navigations innerStream then
        '(indexedRelationships, ij) ←r findBestOrder fuel 0 from [] 0%Q 1%Q ij;
        if plan then Ok (indexedRelationships, ij)
        else try_seeds fuel filters navigations count (S from) indexedRelationships ij
      else try_seeds fuel filters navigations count (S from) indexedRelationships ij
  end.

(** "Mark streams as used": the slots [i], [i + 1], ... below [bestCount]. *)
Fixpoint mark_streams (count i : nat) (bestStreams : list StreamType) (ij : InnerJoin)
  : result (list StreamType * InnerJoin) :=
  match count with
  | 0 => Ok (bestStreams, ij)
  | S count =>
      j ←r deref (joinedStreams ij !! i);
      '(idx, _) ←r deref (getStreamInfo (innerStreams ij) (bestStream j));
      mark_streams count (S i) (bestStreams ++ [bestStream j]) (mark_used idx true ij)
  end.

(** [InnerJoin::findJoinOrder]: the value returned and [bestStreams]. *)
Definition findJoinOrder (ij : InnerJoin) : result (bool * list StreamType * InnerJoin) :=
  let ij := set_remainingStreams 0 (set_bestCount 0 ij) in
  '(filters, navigations, ij) ←r count_streams (innerStreams ij) 0 0 ij;
  '(_, ij) ←r
    (if bestCount ij =? 0 then
       try_seeds (length (innerStreams ij)) filters navigations
         (length (innerStreams ij)) 0 [] ij
     else Ok ([], ij));
  '(bestStreams, ij) ←r mark_streams (bestCount ij) 0 [] ij;
  Ok (negb (length bestStreams =? 0), bestStreams, ij).

(** ** The constructor: [calculateStreamInfo] and [getIndexedRelationships] *)

(** Modelled from the spec: the constructor [StreamInfo(pool, stream)] of
    Optimizer.h; a new record has no relationship, expects no previous stream
    and is not used. *)
Definition new_StreamInfo (s : StreamType) : StreamInfo :=
  mkStreamInfo s 0%Q 0%Q 0 false false 0 false [].

Definition set_base (candidate : InversionCandidate) (si : StreamInfo) : StreamInfo :=
  mkStreamInfo (stream si) (ic_cost candidate) (ic_selectivity candidate)
               (ic_indexes candidate) (ic_unique candidate) (ic_navigated candidate)
               (previousExpectedStreams si) (used si) (indexedRelationships si).

(** [baseStream->indexedRelationships.add(indexRelationship)]. *)
Definition add_indexedRelationship (r : IndexRelationship) (si : StreamInfo) : StreamInfo :=
  mkStreamInfo (stream si) (baseCost si) (baseSelectivity si) (baseIndexes si)
               (baseUnique si) (baseNavigated si) (previousExpectedStreams si) (used si)
               (ir_add r (indexedRelationships si)).

(** [testStream->previousExpectedStreams++]. *)
Definition incr_previousExpectedStreams (si : StreamInfo) : StreamInfo :=
  mkStreamInfo (stream si) (baseCost si) (baseSelectivity si) (baseIndexes si)
               (baseUnique si) (baseNavigated si) (S (previousExpectedStreams si)) (used si)
               (indexedRelationships si).

(** The first loop of [calculateStreamInfo], over the records [i], [i + 1],
    ...: the base cost of each stream, alone active. *)
Fixpoint base_costs (count i : nat) (ij : InnerJoin) : InnerJoin :=
  match count with
  | 0 => ij
  | S count =>
      match innerStreams ij !! i with
      | None => ij
      | Some innerStream =>
          let ij := activate (stream innerStream) ij in
          let candidate := getInversion (csb_active ij) (stream innerStream) sort in
          let ij := set_innerStreams (alter (set_base candidate) i (innerStreams ij)) ij in
          let ij := deactivate (stream innerStream) ij in
          base_costs count (S i) ij
      end
  end.

(** [InnerJoin::getIndexedRelationships] for the record [test]: the loop over
    the base streams [base], [base + 1], ... *)
Fixpoint relationships_loop (count base test : nat) (candidate : InversionCandidate)
    (ij : InnerJoin) : InnerJoin :=
  match count with
  | 0 => ij
  | S count =>
      match innerStreams ij !! base, innerStreams ij !! test with
      | Some baseStream, Some testStream =>
          let ij :=
            if negb (stream baseStream =? stream testStream)
               && bool_decide (stream baseStream ∈ ic_dependentFromStreams candidate)
            then
              let indexRelationship :=
                mkIndexRelationship (stream testStream) (ic_unique candidate)
                  (ic_cost candidate)
                  (if ic_unique candidate then csb_cardinality (stream testStream)
                   else (csb_cardinality (stream testStream) * ic_selectivity candidate)%Q) in
              set_innerStreams
                (alter incr_previousExpectedStreams test
                   (alter (add_indexedRelationship indexRelationship) base (innerStreams ij)))
                ij
            else ij in
          relationships_loop count (S base) test candidate ij
      | _, _ => ij
      end
  end.

Definition getIndexedRelationships (test : nat) (ij : InnerJoin) : InnerJoin :=
  match innerStreams ij !! test with
  | None => ij
  | Some testStream =>
      let candidate := getInversion (csb_active ij) (stream testStream) None in
      relationships_loop (length (innerStreams ij)) 0 test candidate ij
  end.

(** "Collect stream inter-dependencies": the records [i], [i + 1], ... *)
Fixpoint collect_relationships (count i : nat) (ij : InnerJoin) : InnerJoin :=
  match count with
  | 0 => ij
  | S count => collect_relationships count (S i) (getIndexedRelationships i ij)
  end.

(** The comparison function given to [qsort]. *)
Definition compare (first second : StreamInfo) : Z :=
  if si_cheaperThan first second then (-1)%Z
  else if si_cheaperThan second first then 1%Z
  else 0%Z.

(** Modelled from the spec: [StreamStateHolder] of Optimizer.h, which "captures
    the set of streams currently marked active, forces a specified set active
    on entry, and restores the captured set on every exit path". *)
Definition holder_activate (streams : list StreamType) (ij : InnerJoin) : InnerJoin :=
  set_csb_active (list_to_set streams ∪ csb_active ij) ij.
Definition holder_restore (saved : gset StreamType) (streams : list StreamType)
    (ij : InnerJoin) : InnerJoin :=
  set_csb_active ((csb_active ij ∖ list_to_set streams) ∪ (saved ∩ list_to_set streams)) ij.

(** [InnerJoin::calculateStreamInfo]. *)
Definition calculateStreamInfo (ij : InnerJoin) : InnerJoin :=
  let streams := stream <$> innerStreams ij in
  let ij := base_costs (length (innerStreams ij)) 0 ij in
  let saved := csb_active ij in
  let ij := holder_activate streams ij in
  let ij := collect_relationships (length (innerStreams ij)) 0 ij in
  let ij :=
    if negb plan && (1 <? length (innerStreams ij))
    then set_innerStreams (qsort compare (innerStreams ij)) ij
    else ij in
  holder_restore saved streams ij.

(** The constructor [InnerJoin::InnerJoin] on the scratch with the active
    streams [active]: one record per stream, as many slots, and
    [calculateStreamInfo]. The members the constructor does not set are 0. *)
Definition InnerJoin_new (active : gset StreamType) (streams : list StreamType) : InnerJoin :=
  calculateStreamInfo
    (mkInnerJoin active (new_StreamInfo <$> streams)
       (replicate (length streams) (mkJoinedStreamInfo 0 0)) 0 0%Q 0 [] []).

(** ** Definitions used to state the properties *)

(** The number of streams not yet used. *)
Definition unused_count (streams : list StreamInfo) : nat :=
  length (filter (λ si, used si = false) streams).


(** The stream the invocation descends to, if any, with the process list. *)
Definition choose_next (position : nat) (si : StreamInfo) (new_cost : Q)
    (processList : IndexedRelationships) (ij : InnerJoin)
  : result (IndexedRelationships * option nat) :=
  if plan then Ok (processList, next_stream (innerStreams ij))
  else if is_done (S position) new_cost ij then Ok (processList, None)
  else
    processList ←r add_relationships (innerStreams ij) (indexedRelationships si) processList;
    next ←r next_relationship (innerStreams ij) processList;
    Ok (processList, next).

(** The streams with their relationships: the part of the [StreamInfo]s that
    the dependency graph is made of. *)
Definition relationships_of (streams : list StreamInfo)
  : list (StreamType * IndexedRelationships) :=
  (λ si, (stream si, indexedRelationships si)) <$> streams.

(** [a] has an indexed relationship whose stream is [b]. *)
Definition related (streams : list StreamInfo) (a b : StreamType) : Prop :=
  ∃ rels r, (a, rels) ∈ relationships_of streams ∧ r ∈ rels ∧ ir_stream r = b.

(** Every relationship leads to a stream of the list, as
    [getIndexedRelationships] builds them. *)
Definition wf_relationships (streams : list StreamInfo) : Prop :=
  ∀ a b, related streams a b → b ∈ stream <$> streams.

Definition wf_processList (streams : list StreamInfo) (processList : IndexedRelationships)
  : Prop :=
  ∀ r, r ∈ processList → ir_stream r ∈ stream <$> streams.

(** No stream that is still to be joined is active. *)
Definition inactive_unused (ij : InnerJoin) : Prop :=
  ∀ si, si ∈ innerStreams ij → used si = false → stream si ∉ csb_active ij.

(** The counters [filters] and [navigations] of the first loop of
    [findJoinOrder], without the state. *)
Fixpoint first_pass (streams : list StreamInfo) (filters navigations : nat) : nat * nat :=
  match streams with
  | [] => (filters, navigations)
  | innerStream :: rest =>
      if used innerStream then first_pass rest filters navigations
      else
        let currentFilter := if isFiltered innerStream then 1 else 0 in
        let navigations :=
          if negb (navigations =? 0) && negb (currentFilter =? 0) then 0 else navigations in
        let filters := filters + currentFilter in
        let navigations :=
          if baseNavigated innerStream && (currentFilter =? filters)
          then S navigations else navigations in
        first_pass rest filters navigations
  end.

(** A stream that [findJoinOrder] may return on its own. *)
Definition independent_candidate (si : StreamInfo) : Prop :=
  used si = false ∧ isIndependent si = true.

(** The record [i] is the cheapest independent candidate of [streams], and
    the first of the cheapest. *)
Definition cheapest_independent (streams : list StreamInfo) (i : nat) (si : StreamInfo) : Prop :=
  streams !! i = Some si ∧ independent_candidate si ∧
  ∀ j sj, streams !! j = Some sj → independent_candidate sj →
          (baseCost si <= baseCost sj)%Q ∧ (j < i → (baseCost si < baseCost sj)%Q).

(** The state of the first loop after the streams [pre]: no candidate and no
    best order, or the cheapest candidate in the first slot. *)
Definition seed_state (pre : list StreamInfo) (ij : InnerJoin) : Prop :=
  (bestCount ij = 0 ∧ ∀ si, si ∈ pre → ¬ independent_candidate si) ∨
  (bestCount ij = 1 ∧ ∃ i si j,
      cheapest_independent pre i si ∧ bestCost ij = baseCost si ∧
      joinedStreams ij !! 0 = Some j ∧ bestStream j = stream si).

(** The cut-off of the recursion as the specification words it: all streams
    placed, or a full order known and [new_cost >= bestCost]. To be compared
    with [is_done]. *)
Definition claimed_cut_off (position : nat) (new_cost : Q) (ij : InnerJoin) : bool :=
  (position =? remainingStreams ij)
  || ((bestCount ij =? remainingStreams ij) && Qle_bool (bestCost ij) new_cost).

(** The numbers of the streams not yet used, in the order of the list. *)
Definition unused_streams (streams : list StreamInfo) : list StreamType :=
  stream <$> filter (λ si, used si = false) streams.

(** Every stream of the order after the first has a relationship from a
    stream placed before it. *)
Definition reachable_order (streams : list StreamInfo) (order : list StreamType) : Prop :=
  ∀ k s, order !! k = Some s → 0 < k → ∃ t, t ∈ take k order ∧ related streams t s.

(** The best order kept in the first [bestCount] slots. *)
Definition best_order (ij : InnerJoin) : list StreamType :=
  bestStream <$> take (bestCount ij) (joinedStreams ij).

(** The order under exploration: the first [position] slots. *)
Definition current_order (position : nat) (ij : InnerJoin) : list StreamType :=
  take position (number <$> joinedStreams ij).

(** An order of distinct streams that were not used when [findJoinOrder] was
    entered with the streams [base], reachable unless a PLAN is given. *)
Definition good_order (base : list StreamInfo) (order : list StreamType) : Prop :=
  NoDup order ∧ order ⊆ unused_streams base ∧ (plan = false → reachable_order base order).

(** The best order is good and fits the slots. *)
Definition good_best (base : list StreamInfo) (ij : InnerJoin) : Prop :=
  bestCount ij ≤ length (joinedStreams ij) ∧ good_order base (best_order ij).

(** The state at an invocation of [findBestOrder] during the search from the
    streams [base]. *)
Definition search_state (base : list StreamInfo) (position idx : nat)
    (processList : IndexedRelationships) (ij : InnerJoin) : Prop :=
  relationships_of (innerStreams ij) = relationships_of base ∧
  NoDup (stream <$> innerStreams ij) ∧
  unused_streams (innerStreams ij) ⊆ unused_streams base ∧
  (∃ si, innerStreams ij !! idx = Some si ∧ used si = false ∧
         (plan = false → 0 < position →
          ∃ t, t ∈ current_order position ij ∧ related base t (stream si))) ∧
  good_order base (current_order position ij) ∧
  (∀ s, s ∈ current_order position ij → s ∉ unused_streams (innerStreams ij)) ∧
  (plan = false → ∀ r, r ∈ processList →
     ∃ t, t ∈ current_order position ij ∧ related base t (ir_stream r)) ∧
  good_best base ij.

(** The orders of length one of a trace: the seeds tried. *)
Definition seeds_tried (trace : list FoundOrder) : list (list StreamType) :=
  fo_streams <$> filter (λ e, fo_position e = 1) trace.

(** The final total of the counter [filters] of the first loop. *)
Definition filters_total (streams : list StreamInfo) : nat :=
  length (filter (λ si, used si = false ∧ isFiltered si = true) streams).



(** The cumulative cost of an order, computed as [findBestOrder] does along a
    path: each stream is activated and its cost estimated in turn. *)
Fixpoint order_cost (ij : InnerJoin) (position : nat) (cost cardinality : Q)
    (order : list StreamType) : Q :=
  match order with
  | [] => cost
  | s :: rest =>
      let ij := activate s ij in
      let '(position_cost, position_cardinality) := estimateCost ij s (position =? 0) in
      order_cost ij (S position) (cost + cardinality * position_cost)%Q
                 (position_cardinality * cardinality)%Q rest
  end.




(** The seed test as the specification words it for first rows: the stream
    is navigated and its [currentFilter] equals the counter [filters] as it
    was when the first loop visited the stream, at index [i]. To be compared
    with [seed_allowed], which reads the final counter. *)
Definition compatible_when_visited (streams : list StreamInfo) (i : nat) (si : StreamInfo)
  : bool :=
  baseNavigated si
  && ((if isFiltered si then 1 else 0) =? fst (first_pass (take (S i) streams) 0 0)).

(** A record as the constructor builds it: not used, with relationships to
    the streams [ids] only. *)
Definition unused_and_closed (ids : list StreamType) (si : StreamInfo) : Prop :=
  used si = false ∧ Forall (λ r, ir_stream r ∈ ids) (indexedRelationships si).

(** ** Definitions used to state the properties of the other parts *)

(** The best order after is the best order before or a better one: a longer
    one, or one as long and strictly cheaper; when neither, the slots hold
    the same best streams. *)
Definition best_improves (ij ij' : InnerJoin) : Prop :=
  bestCount ij < bestCount ij' ∨
  (bestCount ij' = bestCount ij ∧ (bestCost ij' < bestCost ij)%Q) ∨
  (bestCount ij' = bestCount ij ∧ bestCost ij' = bestCost ij ∧
   bestStream <$> joinedStreams ij' = bestStream <$> joinedStreams ij).

(** The Retrieval probe never reports a negative cost. *)
Definition nonnegative_costs : Prop :=
  ∀ active s srt, (0 <= ic_cost (getInversion active s srt))%Q.

(** The stream estimated at an invocation of [findBestOrder] and the value of
    [start], read from the line of the trace: the last stream of the order,
    and whether the order has one stream. *)
Definition estimate_of (e : FoundOrder) : StreamType * bool :=
  (default 0 (last (fo_streams e)), fo_position e =? 1).

(** The invocations of [findBestOrder] made by the second loop of
    [findJoinOrder], one after the other: each starts at position 0 from a
    stream that is not used and passes the seed test, with an empty process
    list, cost 0 and cardinality 1. *)
Inductive seed_runs (fuel filters navigations : nat) : InnerJoin → InnerJoin → Prop :=
  | seed_runs_done ij : seed_runs fuel filters navigations ij ij
  | seed_runs_call ij from si processList ij1 ij2 :
      innerStreams ij !! from = Some si →
      used si = false →
      seed_allowed filters navigations si = true →
      findBestOrder fuel 0 from [] 0%Q 1%Q ij = Ok (processList, ij1) →
      seed_runs fuel filters navigations ij1 ij2 →
      seed_runs fuel filters navigations ij ij2.

(** A descent in the trace: from the order [prefix] of [position] streams,
    each line holds the order of the line before with one more stream. *)
Fixpoint descent (position : nat) (prefix : list StreamType) (l : list FoundOrder) : Prop :=
  match l with
  | [] => True
  | e :: l' =>
      fo_position e = S position ∧ (∃ s, fo_streams e = prefix ++ [s]) ∧
      descent (S position) (fo_streams e) l'
  end.

(** Along the lines of a descent entered with the cost [cost], the cost does
    not decrease and no cardinality is under 1. *)
Fixpoint costs_grow (cost : Q) (l : list FoundOrder) : Prop :=
  match l with
  | [] => True
  | e :: l' =>
      (cost <= fo_cost e)%Q ∧ (0 <= fo_positionCost e)%Q ∧
      (1 <= fo_positionCardinality e)%Q ∧ (1 <= fo_cardinality e)%Q ∧
      costs_grow (fo_cost e) l'
  end.

(** The value of [currentFilter] for a stream, in both loops of
    [findJoinOrder]. *)
Definition currentFilter (si : StreamInfo) : nat := if isFiltered si then 1 else 0.

(** The final value of the counter [navigations] of the first loop, in closed
    form: with at most one filtered stream among the streams not used, the
    number of those that are navigated and whose [currentFilter] is the total
    of [filters]; none with two filtered streams or more. *)
Definition navigations_total (streams : list StreamInfo) : nat :=
  if filters_total streams <=? 1 then
    length (filter (λ si, used si = false ∧ baseNavigated si = true ∧
                          currentFilter si = filters_total streams) streams)
  else 0.

(** Successive calls of [findJoinOrder] on the same object, at most [calls]
    of them, up to the first that returns false: the orders returned by the
    calls that returned true, and the state left by the last call. *)
Fixpoint findJoinOrders (calls : nat) (ij : InnerJoin)
  : result (list (list StreamType) * InnerJoin) :=
  match calls with
  | 0 => Ok ([], ij)
  | S calls =>
      '(found, bestStreams, ij) ←r findJoinOrder ij;
      if found then
        '(orders, ij) ←r findJoinOrders calls ij;
        Ok (bestStreams :: orders, ij)
      else Ok ([], ij)
  end.

(** The state with [bestCost] set to [c] when no best order is recorded: a
    state that differs only by a [bestCost] that has not been written. *)
Definition with_cost (c : Q) (ij : InnerJoin) : InnerJoin :=
  if bestCount ij =? 0 then set_best 0 c ij else ij.

Definition rmap {A B} (f : A → B) (m : result A) : result B :=
  x ←r m; Ok (f x).

(** The fields of a record that [calculateStreamInfo] reads from the probe
    of the stream alone, with the stream number. *)
Definition base_info (si : StreamInfo) : StreamType * Q * Q * nat * bool * bool :=
  (stream si, baseCost si, baseSelectivity si, baseIndexes si, baseUnique si,
   baseNavigated si).

(** The test of [getIndexedRelationships] on a base stream, for the probe
    result [candidate] of the stream [test]: another stream, on which the
    probed access depends. *)
Definition can_use (candidate : InversionCandidate) (test base : StreamType) : bool :=
  negb (base =? test) && bool_decide (base ∈ ic_dependentFromStreams candidate).

(** The relationship that [getIndexedRelationships] builds for the stream
    [test] from its probe result. *)
Definition indexRelationship_of (candidate : InversionCandidate) (test : StreamType)
  : IndexRelationship :=
  mkIndexRelationship test (ic_unique candidate) (ic_cost candidate)
    (if ic_unique candidate then csb_cardinality test
     else (csb_cardinality test * ic_selectivity candidate)%Q).

(** The members of the class that [calculateStreamInfo] does not touch. *)
Definition search_members (ij : InnerJoin)
  : list JoinedStreamInfo * nat * Q * nat * list FoundOrder * list (StreamType * bool) :=
  (joinedStreams ij, bestCount ij, bestCost ij, remainingStreams ij, foundOrders ij,
   estimates ij).



(** * Properties *)

(** ** Results and costs *)

Lemma rbind_Ok {A B} (m : result A) (f : A → result B) (b : B) :
  rbind m f = Ok b ↔ ∃ a, m = Ok a ∧ f a = Ok b.
Proof.
  destruct m; simpl; split; try (intros (? & ? & ?)); try done.
  - eauto.
  - congruence.
Qed.

Lemma deref_Ok {A} (o : option A) (a : A) : deref o = Ok a ↔ o = Some a.
Proof. destruct o; simpl; split; congruence. Qed.

Lemma Qltb_lt (a b : Q) : Qltb a b = true ↔ (a < b)%Q.
Proof.
  unfold Qltb. rewrite negb_true_iff. split.
  - intros H. apply Qnot_le_lt. intros Hle. apply Qle_bool_iff in Hle. congruence.
  - intros H. destruct (Qle_bool b a) eqn:E; [|done].
    apply Qle_bool_iff in E. exfalso. by apply (Qlt_not_le a b).
Qed.

Lemma Qltb_ge (a b : Q) : Qltb a b = false ↔ (b <= a)%Q.
Proof.
  unfold Qltb. rewrite negb_false_iff. apply Qle_bool_iff.
Qed.

Lemma elem_of_snoc {A} (l : list A) (x y : A) : x ∈ l ++ [y] ↔ x ∈ l ∨ x = y.
Proof. by rewrite elem_of_app, list_elem_of_singleton. Qed.

(** ** The used flags *)

Lemma stream_set_used b si : stream (set_used b si) = stream si.
Proof. done. Qed.

Lemma set_used_id si : set_used (used si) si = si.
Proof. by destruct si. Qed.

Lemma unused_count_mark streams idx si :
  streams !! idx = Some si → used si = false →
  S (unused_count (alter (set_used true) idx streams)) = unused_count streams.
Proof.
  unfold unused_count. revert idx. induction streams as [|x l IH]; intros [|i] Hl Hu;
    simplify_eq/=.
  - rewrite !filter_cons. simpl. rewrite Hu. by repeat case_decide.
  - rewrite !filter_cons. specialize (IH _ Hl Hu).
    destruct (decide (used x = false)); simpl; lia.
Qed.

Lemma unused_count_pos streams idx si :
  streams !! idx = Some si → used si = false → 0 < unused_count streams.
Proof. intros Hl Hu. rewrite <- (unused_count_mark _ _ _ Hl Hu). lia. Qed.

(** Restoring the saved flags undoes every change of the used flags. *)
Lemma restore_flags (l l' : list StreamInfo) :
  set_used false <$> l' = set_used false <$> l →
  zip_with (λ b si, set_used b si) (used <$> l) l' = l.
Proof.
  revert l'. induction l as [|x l IH]; intros [|y l'] H; simplify_eq/=; [done|].
  f_equal; [|by apply IH].
  destruct x, y. unfold set_used in *. simplify_eq/=. done.
Qed.

Lemma static_alter_used b idx (l : list StreamInfo) :
  set_used false <$> alter (set_used b) idx l = set_used false <$> l.
Proof.
  revert idx. induction l as [|x l IH]; intros [|i]; simpl; [done..|].
  f_equal. apply IH.
Qed.

Lemma stream_alter_used b idx (l : list StreamInfo) :
  stream <$> alter (set_used b) idx l = stream <$> l.
Proof.
  revert idx. induction l as [|x l IH]; intros [|i]; simpl; [done..|].
  f_equal. apply IH.
Qed.

(** ** The shape of one invocation of [findBestOrder] *)

Lemma findBestOrder_S fuel position idx processList cost cardinality ij :
  findBestOrder (S fuel) position idx processList cost cardinality ij =
  ('(si, streamFlags, new_cost, new_cardinality, ij1) ←r
     enter position idx cost cardinality ij;
   '(processList1, next) ←r choose_next position si new_cost processList ij1;
   match next with
   | Some next =>
       '(processList2, ij2) ←r
         findBestOrder fuel (S position) next processList1 new_cost new_cardinality ij1;
       Ok (processList2, leave si streamFlags ij2)
   | None => Ok (processList1, leave si streamFlags ij1)
   end).
Proof.
  simpl. destruct (enter _ _ _ _ _) as [[[[[si fl] nc] ncard] ij1]| |]; simpl; [|done..].
  unfold choose_next. destruct plan; simpl.
  - rewrite andb_false_r. simpl.
    destruct (next_stream _); simpl; [|done].
    by destruct (findBestOrder _ _ _ _ _ _ _) as [[]| |].
  - rewrite andb_true_r. destruct (is_done _ _ _); simpl; [done|].
    destruct (add_relationships _ _ _); simpl; [|done..].
    destruct (next_relationship _ _) as [[]| |]; simpl; [|done..].
    by destruct (findBestOrder _ _ _ _ _ _ _) as [[]| |].
Qed.

(** A rule for partial correctness: a precondition on the arguments and the
    state, kept by the descent, and a postcondition relating the states before
    and after, established where the recursion stops and carried back over
    [leave]. *)
Lemma findBestOrder_rule
    (Pre : nat → nat → IndexedRelationships → Q → Q → InnerJoin → Prop)
    (Post : nat → nat → InnerJoin → InnerJoin → Prop) :
  (∀ position idx pl cost card ij si fl nc ncard ij1 pl1,
      Pre position idx pl cost card ij →
      enter position idx cost card ij = Ok (si, fl, nc, ncard, ij1) →
      choose_next position si nc pl ij1 = Ok (pl1, None) →
      Post position idx ij (leave si fl ij1)) →
  (∀ position idx pl cost card ij si fl nc ncard ij1 pl1 next,
      Pre position idx pl cost card ij →
      enter position idx cost card ij = Ok (si, fl, nc, ncard, ij1) →
      choose_next position si nc pl ij1 = Ok (pl1, Some next) →
      Pre (S position) next pl1 nc ncard ij1 ∧
      ∀ ij2, Post (S position) next ij1 ij2 → Post position idx ij (leave si fl ij2)) →
  ∀ fuel position idx pl cost card ij pl' ij',
    Pre position idx pl cost card ij →
    findBestOrder fuel position idx pl cost card ij = Ok (pl', ij') →
    Post position idx ij ij'.
Proof.
  intros Hstop Hdesc. induction fuel as [|fuel IH]; intros * HPre Hrun; [done|].
  rewrite findBestOrder_S in Hrun.
  apply rbind_Ok in Hrun as ([[[[si fl] nc] ncard] ij1] & Henter & Hrun).
  apply rbind_Ok in Hrun as ([pl1 [next|]] & Hnext & Hrun).
  - apply rbind_Ok in Hrun as ([pl2 ij2] & Hrec & Hrun). simplify_eq.
    destruct (Hdesc _ _ _ _ _ _ _ _ _ _ _ _ _ HPre Henter Hnext) as [HPre' Hback].
    eapply Hback, IH; eauto.
  - simplify_eq. eapply Hstop; eauto.
Qed.

(** ** The parts of one invocation *)

Lemma save_best_innerStreams position nc ij :
  innerStreams (save_best position nc ij) = innerStreams ij.
Proof. unfold save_best. by case_match. Qed.

Lemma save_best_csb_active position nc ij :
  csb_active (save_best position nc ij) = csb_active ij.
Proof. unfold save_best. by case_match. Qed.

Lemma save_best_remainingStreams position nc ij :
  remainingStreams (save_best position nc ij) = remainingStreams ij.
Proof. unfold save_best. by case_match. Qed.

Lemma save_best_foundOrders position nc ij :
  foundOrders (save_best position nc ij) = foundOrders ij.
Proof. unfold save_best. by case_match. Qed.

Lemma save_best_estimates position nc ij :
  estimates (save_best position nc ij) = estimates ij.
Proof. unfold save_best. by case_match. Qed.

Lemma copy_best_number position l : number <$> copy_best position l = number <$> l.
Proof.
  unfold copy_best. rewrite fmap_app, <- list_fmap_compose.
  rewrite <- (take_drop position l) at 3. by rewrite fmap_app.
Qed.

Lemma copy_best_length position l : length (copy_best position l) = length l.
Proof.
  rewrite <- (length_fmap number), copy_best_number. apply length_fmap.
Qed.

Lemma copy_best_take position l :
  bestStream <$> take position (copy_best position l) = number <$> take position l.
Proof.
  unfold copy_best. destruct (decide (position ≤ length l)).
  - rewrite take_app_le by (rewrite length_fmap, length_take; lia).
    rewrite take_ge by (rewrite length_fmap, length_take; lia).
    by rewrite <- list_fmap_compose.
  - rewrite (drop_ge l), app_nil_r by lia.
    rewrite take_ge by (rewrite length_fmap, length_take; lia).
    by rewrite <- list_fmap_compose.
Qed.

Lemma save_best_number position nc ij :
  number <$> joinedStreams (save_best position nc ij) = number <$> joinedStreams ij.
Proof. unfold save_best. case_match; [|done]. apply copy_best_number. Qed.

Lemma save_best_length position nc ij :
  length (joinedStreams (save_best position nc ij)) = length (joinedStreams ij).
Proof. rewrite <- (length_fmap number), save_best_number. apply length_fmap. Qed.

(** The best order kept in the slots below [bestCount]. *)
Lemma save_best_order position nc ij :
  bestStream <$> take (bestCount (save_best position nc ij))
                      (joinedStreams (save_best position nc ij)) =
  if (bestCount ij <? position) || ((position =? bestCount ij) && Qltb nc (bestCost ij))
  then number <$> take position (joinedStreams ij)
  else bestStream <$> take (bestCount ij) (joinedStreams ij).
Proof. unfold save_best. case_match; [|done]. simpl. apply copy_best_take. Qed.

Lemma save_best_best position nc ij :
  if (bestCount ij <? position) || ((position =? bestCount ij) && Qltb nc (bestCost ij))
  then bestCount (save_best position nc ij) = position ∧
       bestCost (save_best position nc ij) = nc
  else bestCount (save_best position nc ij) = bestCount ij ∧
       bestCost (save_best position nc ij) = bestCost ij.
Proof. unfold save_best. by case_match. Qed.

(** The state after [enter], field by field. *)
Lemma enter_Ok position idx cost card ij si fl nc ncard ij1 :
  enter position idx cost card ij = Ok (si, fl, nc, ncard, ij1) →
  ∃ j ij0 e,
    innerStreams ij !! idx = Some si ∧
    joinedStreams ij !! position = Some j ∧
    fl = used <$> innerStreams ij ∧
    innerStreams ij0 = innerStreams ij ∧
    csb_active ij0 = {[stream si]} ∪ csb_active ij ∧
    joinedStreams ij0 = <[position := set_number (stream si) j]> (joinedStreams ij) ∧
    bestCount ij0 = bestCount ij ∧ bestCost ij0 = bestCost ij ∧
    remainingStreams ij0 = remainingStreams ij ∧
    foundOrders ij0 = foundOrders ij ∧
    estimates ij0 = estimates ij ++ (if plan then [] else [(stream si, position =? 0)]) ∧
    (plan = true → nc = 0%Q) ∧
    fo_position e = S position ∧ fo_cost e = nc ∧
    fo_streams e = number <$> take (S position) (joinedStreams ij0) ∧
    ij1 = mark_used idx true (log_foundOrder e (save_best (S position) nc ij0)).
Proof.
  unfold enter, store_number. intros H.
  apply rbind_Ok in H as (si' & Hsi%deref_Ok & H).
  apply rbind_Ok in H as (ij0 & H0 & H).
  apply rbind_Ok in H0 as (j & Hj%deref_Ok & H0). injection H0 as <-.
  set (ij0 := set_joinedStreams (<[position:=set_number (stream si') j]> (joinedStreams ij))
                (activate (stream si') ij)) in *.
  destruct plan.
  - simplify_eq/=. eexists j, ij0, (mkFoundOrder _ _ _ _ _ _).
    split_and!; try done; simpl; [by rewrite app_nil_r|].
    f_equal. f_equal. f_equal. by rewrite !fmap_take, save_best_number.
  - destruct (estimateCost _ _ _) as [pc pcard] eqn:Hest. simplify_eq/=.
    eexists j, (log_estimate (stream si, position =? 0) ij0), (mkFoundOrder _ _ _ _ _ _).
    split_and!; try done; simpl.
    f_equal. f_equal. f_equal. by rewrite !fmap_take, save_best_number.
Qed.

Lemma enter_innerStreams position idx cost card ij si fl nc ncard ij1 :
  enter position idx cost card ij = Ok (si, fl, nc, ncard, ij1) →
  innerStreams ij !! idx = Some si ∧ fl = used <$> innerStreams ij ∧
  innerStreams ij1 = alter (set_used true) idx (innerStreams ij).
Proof.
  intros (j & ij0 & e & ? & ? & ? & Hin & ? & ? & ? & ? & ? & ? & ? & ? & ? & ? & ? & ->)%enter_Ok.
  split_and!; [done..|]. simpl. by rewrite save_best_innerStreams, Hin.
Qed.

Lemma enter_csb_active position idx cost card ij si fl nc ncard ij1 :
  enter position idx cost card ij = Ok (si, fl, nc, ncard, ij1) →
  csb_active ij1 = {[stream si]} ∪ csb_active ij.
Proof.
  intros (j & ij0 & e & ? & ? & ? & ? & Hin & ? & ? & ? & ? & ? & ? & ? & ? & ? & ? & ->)%enter_Ok.
  simpl. by rewrite save_best_csb_active.
Qed.

Lemma enter_remainingStreams position idx cost card ij si fl nc ncard ij1 :
  enter position idx cost card ij = Ok (si, fl, nc, ncard, ij1) →
  remainingStreams ij1 = remainingStreams ij.
Proof.
  intros (j & ij0 & e & ? & ? & ? & ? & ? & ? & ? & ? & Hin & ? & ? & ? & ? & ? & ? & ->)%enter_Ok.
  simpl. by rewrite save_best_remainingStreams.
Qed.

Lemma enter_joinedStreams position idx cost card ij si fl nc ncard ij1 :
  enter position idx cost card ij = Ok (si, fl, nc, ncard, ij1) →
  position < length (joinedStreams ij) ∧
  length (joinedStreams ij1) = length (joinedStreams ij) ∧
  number <$> joinedStreams ij1 = <[position := stream si]> (number <$> joinedStreams ij).
Proof.
  intros (j & ij0 & e & ? & Hj & ? & ? & ? & Hin & ? & ? & ? & ? & ? & ? & ? & ? & ? & ->)%enter_Ok.
  split_and!.
  - by eapply lookup_lt_Some.
  - simpl. by rewrite save_best_length, Hin, length_insert.
  - simpl. by rewrite save_best_number, Hin, list_fmap_insert.
Qed.

Lemma enter_foundOrders position idx cost card ij si fl nc ncard ij1 :
  enter position idx cost card ij = Ok (si, fl, nc, ncard, ij1) →
  ∃ e, foundOrders ij1 = foundOrders ij ++ [e] ∧ fo_position e = S position ∧
       fo_cost e = nc ∧
       fo_streams e = take position (number <$> joinedStreams ij) ++ [stream si].
Proof.
  intros (j & ij0 & e & ? & Hj & ? & ? & ? & Hin & ? & ? & ? & Hf & ? & ? & ? & ? & Hs & ->)%enter_Ok.
  exists e. split_and!; [|done..|].
  - simpl. by rewrite save_best_foundOrders, Hf.
  - rewrite Hs, Hin, fmap_take, list_fmap_insert. simpl.
    apply lookup_lt_Some in Hj.
    rewrite (take_S_r _ _ (stream si)).
    + by rewrite take_insert_ge by lia.
    + apply list_lookup_insert_eq. by rewrite length_fmap.
Qed.

Lemma enter_estimates position idx cost card ij si fl nc ncard ij1 :
  enter position idx cost card ij = Ok (si, fl, nc, ncard, ij1) →
  estimates ij1 = estimates ij ++ (if plan then [] else [(stream si, position =? 0)]).
Proof.
  intros (j & ij0 & e & ? & ? & ? & ? & ? & ? & ? & ? & ? & ? & Hin & ? & ? & ? & ? & ->)%enter_Ok.
  simpl. by rewrite save_best_estimates.
Qed.

(** The best order after [enter]: the order under exploration when it is
    longer than the best, or as long and cheaper; the best order otherwise. *)
Lemma enter_best position idx cost card ij si fl nc ncard ij1 :
  enter position idx cost card ij = Ok (si, fl, nc, ncard, ij1) →
  if (bestCount ij <? S position) || ((S position =? bestCount ij) && Qltb nc (bestCost ij))
  then bestCount ij1 = S position ∧ bestCost ij1 = nc ∧
       bestStream <$> take (bestCount ij1) (joinedStreams ij1) =
       take position (number <$> joinedStreams ij) ++ [stream si]
  else bestCount ij1 = bestCount ij ∧ bestCost ij1 = bestCost ij ∧
       bestStream <$> take (bestCount ij1) (joinedStreams ij1) =
       bestStream <$> take (bestCount ij) (joinedStreams ij).
Proof.
  intros (j & ij0 & e & ? & Hj & ? & ? & ? & Hin & Hc & Hb & ? & Hf & ? & ? & ? & ? & Hs & ->)%enter_Ok.
  simpl. pose proof (save_best_order (S position) nc ij0) as Ho.
  pose proof (save_best_best (S position) nc ij0) as Hbest.
  rewrite Hc, Hb in Ho, Hbest.
  apply lookup_lt_Some in Hj as Hlt.
  destruct (_ || _); simpl in *; destruct Hbest as [Hbc Hbcost].
  - split_and!; [done..|]. rewrite Ho, Hin, fmap_take, list_fmap_insert. simpl.
    rewrite (take_S_r _ _ (stream si)).
    + by rewrite take_insert_ge by lia.
    + apply list_lookup_insert_eq. by rewrite length_fmap.
  - split_and!; [done..|]. rewrite Ho, Hin.
    rewrite !fmap_take, list_fmap_insert. simpl.
    by rewrite list_insert_id by (rewrite list_lookup_fmap, Hj; done).
Qed.

Lemma leave_innerStreams si fl ij :
  innerStreams (leave si fl ij) = zip_with (λ b si, set_used b si) fl (innerStreams ij).
Proof. done. Qed.

(** [leave] gives back the list of streams of before [enter], whatever
    happened to the used flags in between. *)
Lemma leave_restores position idx cost card ij si fl nc ncard ij1 ij2 :
  enter position idx cost card ij = Ok (si, fl, nc, ncard, ij1) →
  innerStreams ij2 = innerStreams ij1 →
  innerStreams (leave si fl ij2) = innerStreams ij.
Proof.
  intros (? & -> & Hin)%enter_innerStreams H2. rewrite leave_innerStreams, H2, Hin.
  apply restore_flags, static_alter_used.
Qed.

(** ** The stream an invocation descends to *)

Lemma getStreamInfo_Some streams s i si :
  getStreamInfo streams s = Some (i, si) →
  streams !! i = Some si ∧ stream si = s.
Proof. unfold getStreamInfo. intros (? & ? & _)%list_find_Some. done. Qed.

Lemma getStreamInfo_elem_of streams s :
  s ∈ stream <$> streams → is_Some (getStreamInfo streams s).
Proof.
  intros (si & -> & Hsi)%list_elem_of_fmap. unfold getStreamInfo.
  by eapply list_find_elem_of.
Qed.

Lemma next_relationship_Some streams processList i :
  next_relationship streams processList = Ok (Some i) →
  ∃ sn r, streams !! i = Some sn ∧ used sn = false ∧
          r ∈ processList ∧ ir_stream r = stream sn.
Proof.
  induction processList as [|r pl IH]; simpl; [done|]. intros H.
  apply rbind_Ok in H as ([j sj] & Hg%deref_Ok & H).
  apply getStreamInfo_Some in Hg as [Hj Hs].
  destruct (used sj) eqn:Hu.
  - destruct (IH H) as (sn & r' & ? & ? & ? & ?). exists sn, r'.
    split_and!; [done..| |done]. by right.
  - simplify_eq. exists sj, r. split_and!; [done..| |done]. by left.
Qed.

Lemma next_stream_Some streams i :
  next_stream streams = Some i →
  ∃ sn, streams !! i = Some sn ∧ used sn = false ∧
        ∀ j sj, streams !! j = Some sj → j < i → used sj = true.
Proof.
  unfold next_stream. intros H. apply fmap_Some in H as ([i' sn] & H & ->).
  apply list_find_Some in H as (? & ? & Hfirst). exists sn. split_and!; [done..|].
  intros j sj Hj Hlt. specialize (Hfirst j sj Hj Hlt). by destruct (used sj).
Qed.


Lemma choose_next_Some position si nc pl ij pl1 next :
  choose_next position si nc pl ij = Ok (pl1, Some next) →
  ∃ sn, innerStreams ij !! next = Some sn ∧ used sn = false.
Proof.
  unfold choose_next. destruct plan.
  - intros H. injection H as _ H.
    destruct (next_stream_Some _ _ H) as (sn & ? & ? & _). eauto.
  - destruct (is_done _ _ _); [done|]. intros H.
    apply rbind_Ok in H as (pl' & Hadd & H).
    apply rbind_Ok in H as (n & Hn & H). simplify_eq.
    destruct (next_relationship_Some _ _ _ Hn) as (sn & r & ? & ? & _). eauto.
Qed.

(** The descent goes to a stream that is not used, after the stream of the
    invocation has been marked: one unused stream fewer at each level. *)
Lemma descent_decreases position idx cost card ij si fl nc ncard ij1 :
  enter position idx cost card ij = Ok (si, fl, nc, ncard, ij1) →
  used si = false →
  S (unused_count (innerStreams ij1)) = unused_count (innerStreams ij).
Proof.
  intros (Hsi & _ & ->)%enter_innerStreams Hu. by eapply unused_count_mark.
Qed.

(** ** Frame: the used flags, the streams and the counters *)

Lemma leave_fields si fl ij :
  csb_active (leave si fl ij) = csb_active ij ∖ {[stream si]} ∧
  joinedStreams (leave si fl ij) = joinedStreams ij ∧
  bestCount (leave si fl ij) = bestCount ij ∧
  bestCost (leave si fl ij) = bestCost ij ∧
  remainingStreams (leave si fl ij) = remainingStreams ij ∧
  foundOrders (leave si fl ij) = foundOrders ij ∧
  estimates (leave si fl ij) = estimates ij.
Proof. done. Qed.

Lemma findBestOrder_frame fuel position idx pl cost card ij pl' ij' :
  findBestOrder fuel position idx pl cost card ij = Ok (pl', ij') →
  innerStreams ij' = innerStreams ij ∧
  remainingStreams ij' = remainingStreams ij ∧
  length (joinedStreams ij') = length (joinedStreams ij).
Proof.
  intros H.
  eapply (findBestOrder_rule (λ _ _ _ _ _ _, True)
            (λ _ _ ij ij', innerStreams ij' = innerStreams ij ∧
                         remainingStreams ij' = remainingStreams ij ∧
                         length (joinedStreams ij') = length (joinedStreams ij)));
    [| |done|exact H]; clear.
  - intros * _ Henter _. split_and!.
    + by eapply leave_restores.
    + simpl. by eapply enter_remainingStreams.
    + simpl. by eapply enter_joinedStreams.
  - intros * _ Henter _. split; [done|]. intros ij2 (Hi & Hr & Hl). split_and!.
    + by eapply leave_restores.
    + simpl. rewrite Hr. by eapply enter_remainingStreams.
    + simpl. rewrite Hl. by eapply enter_joinedStreams.
Qed.

Lemma activate_deactivate (s : StreamType) (a : gset StreamType) :
  s ∉ a → ({[s]} ∪ a) ∖ {[s]} = a.
Proof.
  intros Hs. apply set_eq. intros x.
  rewrite elem_of_difference, elem_of_union, elem_of_singleton.
  split; [by intros [[?|?] ?]|]. intros Hx. split; [by right|]. by intros ->.
Qed.

(** The active bits: when no unused stream is active and the stream numbers
    are distinct, the invocation leaves the set of active streams as it was. *)
Lemma inactive_unused_enter position idx cost card ij si fl nc ncard ij1 :
  NoDup (stream <$> innerStreams ij) →
  inactive_unused ij →
  enter position idx cost card ij = Ok (si, fl, nc, ncard, ij1) →
  NoDup (stream <$> innerStreams ij1) ∧ inactive_unused ij1.
Proof.
  intros Hnd Hin Henter.
  pose proof (enter_csb_active _ _ _ _ _ _ _ _ _ _ Henter) as Hcsb.
  destruct (enter_innerStreams _ _ _ _ _ _ _ _ _ _ Henter) as (Hsi & _ & Hstreams).
  split.
  - by rewrite Hstreams, stream_alter_used.
  - intros sj Hsj Hu. rewrite Hcsb.
    rewrite Hstreams in Hsj. apply list_elem_of_lookup in Hsj as [j Hj].
    rewrite list_lookup_alter in Hj. case_decide as Hij.
    + subst j. rewrite Hsi in Hj. by simplify_eq/=.
    + assert (stream sj ≠ stream si) as Hne.
      { intros Heq. apply Hij.
        eapply (NoDup_lookup _ idx j (stream si) Hnd);
          rewrite list_lookup_fmap; [by rewrite Hsi|by rewrite Hj, <- Heq]. }
      assert (stream sj ∉ csb_active ij).
      { apply Hin; [|done]. apply list_elem_of_lookup. eauto. }
      rewrite elem_of_union, elem_of_singleton. by intros [?|?].
Qed.

Lemma findBestOrder_csb_active fuel position idx pl cost card ij pl' ij' si :
  NoDup (stream <$> innerStreams ij) →
  inactive_unused ij →
  innerStreams ij !! idx = Some si → used si = false →
  findBestOrder fuel position idx pl cost card ij = Ok (pl', ij') →
  csb_active ij' = csb_active ij.
Proof.
  intros Hnd Hin Hsi Hu H.
  eapply (findBestOrder_rule
            (λ _ idx _ _ _ ij, NoDup (stream <$> innerStreams ij) ∧ inactive_unused ij ∧
                               ∃ si, innerStreams ij !! idx = Some si ∧ used si = false)
            (λ _ _ ij ij', csb_active ij' = csb_active ij));
    [| | |exact H]; [| |by eauto]; clear.
  - intros * (Hnd & Hin & si' & Hsi & Hu) Henter _.
    destruct (enter_innerStreams _ _ _ _ _ _ _ _ _ _ Henter) as (Hsi' & _ & _).
    assert (si' = si) as -> by congruence.
    simpl. rewrite (enter_csb_active _ _ _ _ _ _ _ _ _ _ Henter).
    assert (stream si ∉ csb_active ij).
    { apply Hin; [|done]. apply list_elem_of_lookup. eauto. }
    by apply activate_deactivate.
  - intros * (Hnd & Hin & si' & Hsi & Hu) Henter Hnext.
    destruct (enter_innerStreams _ _ _ _ _ _ _ _ _ _ Henter) as (Hsi' & _ & _).
    assert (si' = si) as -> by congruence.
    destruct (inactive_unused_enter _ _ _ _ _ _ _ _ _ _ Hnd Hin Henter) as [Hnd1 Hin1].
    split.
    + split_and!; [done..|]. by eapply choose_next_Some.
    + intros ij2 Hcsb. simpl. rewrite Hcsb, (enter_csb_active _ _ _ _ _ _ _ _ _ _ Henter).
      assert (stream si ∉ csb_active ij).
      { apply Hin; [|done]. apply list_elem_of_lookup. eauto. }
      by apply activate_deactivate.
Qed.

(** ** Termination and absence of failures *)

Lemma relationships_alter_used b idx (l : list StreamInfo) :
  relationships_of (alter (set_used b) idx l) = relationships_of l.
Proof.
  unfold relationships_of.
  revert idx. induction l as [|x l IH]; intros [|i]; simpl; [done..|].
  f_equal. apply IH.
Qed.

Lemma wf_relationships_alter b idx l :
  wf_relationships l → wf_relationships (alter (set_used b) idx l).
Proof.
  unfold wf_relationships, related. rewrite relationships_alter_used, stream_alter_used. done.
Qed.

Lemma related_lookup streams i si r :
  streams !! i = Some si → r ∈ indexedRelationships si →
  related streams (stream si) (ir_stream r).
Proof.
  intros Hi Hr. exists (indexedRelationships si), r. split_and!; [|done..].
  unfold relationships_of. apply list_elem_of_fmap. exists si. split; [done|].
  apply list_elem_of_lookup. eauto.
Qed.

Lemma scan_processList_elem_of relationship target pl found pl' x :
  scan_processList relationship target pl = (found, pl') → x ∈ pl' → x ∈ pl.
Proof.
  revert found pl'. induction pl as [|p pl IH]; simpl; intros found pl' H Hx.
  - by simplify_eq.
  - destruct (target =? ir_stream p).
    + destruct (ir_cheaperThan _ _); simplify_eq; [by right|done].
    + destruct (scan_processList _ _ pl) as [f r]. simplify_eq.
      apply elem_of_cons in Hx as [->|Hx]; [by left|]. right. by eapply IH.
Qed.

Lemma ir_add_elem_of r l x : x ∈ ir_add r l ↔ x = r ∨ x ∈ l.
Proof.
  induction l as [|p l IH]; simpl.
  - rewrite list_elem_of_singleton. split; [by left|]. intros [?|?%elem_of_nil]; done.
  - destruct (ir_cheaperThan p r).
    + rewrite !elem_of_cons, IH. tauto.
    + rewrite !elem_of_cons. tauto.
Qed.

(** The process list after the additions: old entries and relationships of
    the stream whose target is not used. *)
Lemma add_relationships_elem_of streams rels pl pl' x :
  add_relationships streams rels pl = Ok pl' → x ∈ pl' → x ∈ pl ∨ x ∈ rels.
Proof.
  revert pl pl'. induction rels as [|r rels IH]; simpl; intros pl pl' H Hx.
  - simplify_eq. by left.
  - apply rbind_Ok in H as ([i si] & Hg%deref_Ok & H).
    destruct (used si).
    + destruct (IH _ _ H Hx); [by left|right; by right].
    + destruct (scan_processList _ _ _) as [found pl1] eqn:Hscan.
      destruct (IH _ _ H Hx) as [Hin|Hin]; [|right; by right].
      destruct found.
      * left. by eapply scan_processList_elem_of.
      * apply ir_add_elem_of in Hin as [->|Hin]; [right; by left|].
        left. by eapply scan_processList_elem_of.
Qed.

Lemma add_relationships_Ok streams rels pl :
  (∀ r, r ∈ rels → ir_stream r ∈ stream <$> streams) →
  ∃ pl', add_relationships streams rels pl = Ok pl'.
Proof.
  revert pl. induction rels as [|r rels IH]; simpl; intros pl Hwf; [eauto|].
  destruct (getStreamInfo_elem_of streams (ir_stream r)) as [[i si] Hg].
  { apply Hwf. by left. }
  rewrite Hg. simpl.
  destruct (used si); [apply IH; intros; apply Hwf; by right|].
  destruct (scan_processList _ _ _) as [found pl1].
  apply IH. intros. apply Hwf. by right.
Qed.

Lemma next_relationship_Ok streams pl :
  wf_processList streams pl → ∃ next, next_relationship streams pl = Ok next.
Proof.
  induction pl as [|r pl IH]; simpl; intros Hwf; [eauto|].
  destruct (getStreamInfo_elem_of streams (ir_stream r)) as [[i si] Hg].
  { apply Hwf. by left. }
  rewrite Hg. simpl. destruct (used si); [|eauto].
  apply IH. intros x Hx. apply Hwf. by right.
Qed.

Lemma choose_next_Ok position idx si nc pl ij :
  wf_relationships (innerStreams ij) → wf_processList (innerStreams ij) pl →
  innerStreams ij !! idx = Some si →
  ∃ pl1 next, choose_next position si nc pl ij = Ok (pl1, next) ∧
              wf_processList (innerStreams ij) pl1.
Proof.
  intros Hwf Hpl Hsi. unfold choose_next. destruct plan; [eauto|].
  destruct (is_done _ _ _); [eauto|].
  destruct (add_relationships_Ok (innerStreams ij) (indexedRelationships si) pl) as [pl1 Hadd].
  { intros r Hr. eapply Hwf, related_lookup; eauto. }
  assert (wf_processList (innerStreams ij) pl1) as Hpl1.
  { intros x Hx. destruct (add_relationships_elem_of _ _ _ _ _ Hadd Hx); [by apply Hpl|].
    eapply Hwf, related_lookup; eauto. }
  destruct (next_relationship_Ok _ _ Hpl1) as [next Hn].
  rewrite Hadd. simpl. rewrite Hn. simpl. eauto.
Qed.

Lemma enter_is_Ok position idx cost card ij si :
  innerStreams ij !! idx = Some si → position < length (joinedStreams ij) →
  ∃ fl nc ncard ij1, enter position idx cost card ij = Ok (si, fl, nc, ncard, ij1).
Proof.
  intros Hsi Hpos. apply lookup_lt_is_Some in Hpos as [j Hj].
  unfold enter, store_number. rewrite Hsi. simpl. rewrite Hj. simpl.
  destruct plan; simpl; by repeat eexists.
Qed.

Lemma enter_not_OutOfFuel position idx cost card ij :
  enter position idx cost card ij ≠ OutOfFuel.
Proof.
  unfold enter, store_number. destruct (innerStreams ij !! idx); simpl; [|done].
  destruct (joinedStreams ij !! position); simpl; [|done].
  by destruct plan.
Qed.

Lemma add_relationships_not_OutOfFuel streams rels pl :
  add_relationships streams rels pl ≠ OutOfFuel.
Proof.
  revert pl. induction rels as [|r rels IH]; simpl; intros pl; [done|].
  destruct (getStreamInfo _ _) as [[i si]|]; simpl; [|done].
  destruct (used si); [apply IH|]. destruct (scan_processList _ _ _). apply IH.
Qed.

Lemma next_relationship_not_OutOfFuel streams pl :
  next_relationship streams pl ≠ OutOfFuel.
Proof.
  induction pl as [|r pl IH]; simpl; [done|].
  destruct (getStreamInfo _ _) as [[i si]|]; simpl; [|done].
  by destruct (used si).
Qed.

Lemma choose_next_not_OutOfFuel position si nc pl ij :
  choose_next position si nc pl ij ≠ OutOfFuel.
Proof.
  unfold choose_next. destruct plan; [done|]. destruct (is_done _ _ _); [done|].
  pose proof (add_relationships_not_OutOfFuel (innerStreams ij) (indexedRelationships si) pl).
  destruct (add_relationships _ _ _) as [pl1| |]; simpl; [|done..].
  pose proof (next_relationship_not_OutOfFuel (innerStreams ij) pl1).
  by destruct (next_relationship _ _).
Qed.

(** The fuel is never exhausted when it is at least the number of streams not
    used at the call. *)
Lemma findBestOrder_fuel fuel : ∀ position idx pl cost card ij si,
  innerStreams ij !! idx = Some si → used si = false →
  unused_count (innerStreams ij) ≤ fuel →
  findBestOrder fuel position idx pl cost card ij ≠ OutOfFuel.
Proof.
  induction fuel as [|fuel IH]; intros * Hsi Hu Hfuel.
  { pose proof (unused_count_pos _ _ _ Hsi Hu). lia. }
  rewrite findBestOrder_S.
  pose proof (enter_not_OutOfFuel position idx cost card ij) as Hne.
  destruct (enter _ _ _ _ _) as [[[[[si' fl] nc] ncard] ij1]| |] eqn:Henter; simpl; [|done..].
  pose proof (choose_next_not_OutOfFuel position si' nc pl ij1) as Hnc.
  destruct (choose_next _ _ _ _ _) as [[pl1 [next|]]| |] eqn:Hnext; simpl; [|done..].
  destruct (choose_next_Some _ _ _ _ _ _ _ Hnext) as (sn & Hsn & Hun).
  destruct (enter_innerStreams _ _ _ _ _ _ _ _ _ _ Henter) as (Hsi' & _ & _).
  assert (si' = si) as -> by congruence.
  pose proof (descent_decreases _ _ _ _ _ _ _ _ _ _ Henter Hu) as Hdec.
  pose proof (IH (S position) next pl1 nc ncard ij1 sn Hsn Hun ltac:(lia)) as Hrec.
  by destruct (findBestOrder _ _ _ _ _ _ _) as [[]| |].
Qed.

(** With well-formed relationships and enough slots, the invocation succeeds. *)
Lemma findBestOrder_Ok fuel : ∀ position idx pl cost card ij si,
  wf_relationships (innerStreams ij) → wf_processList (innerStreams ij) pl →
  innerStreams ij !! idx = Some si → used si = false →
  position + unused_count (innerStreams ij) ≤ length (joinedStreams ij) →
  unused_count (innerStreams ij) ≤ fuel →
  ∃ pl' ij', findBestOrder fuel position idx pl cost card ij = Ok (pl', ij').
Proof.
  induction fuel as [|fuel IH]; intros * Hwf Hpl Hsi Hu Hlen Hfuel.
  { pose proof (unused_count_pos _ _ _ Hsi Hu). lia. }
  pose proof (unused_count_pos _ _ _ Hsi Hu) as Hpos.
  rewrite findBestOrder_S.
  destruct (enter_is_Ok position idx cost card ij si Hsi ltac:(lia))
    as (fl & nc & ncard & ij1 & Henter).
  rewrite Henter. simpl.
  destruct (enter_innerStreams _ _ _ _ _ _ _ _ _ _ Henter) as (_ & _ & Hstreams).
  destruct (enter_joinedStreams _ _ _ _ _ _ _ _ _ _ Henter) as (_ & Hlen1 & _).
  pose proof (descent_decreases _ _ _ _ _ _ _ _ _ _ Henter Hu) as Hdec.
  assert (wf_relationships (innerStreams ij1)) as Hwf1.
  { rewrite Hstreams. by apply wf_relationships_alter. }
  assert (wf_processList (innerStreams ij1) pl) as Hpl1.
  { unfold wf_processList. by rewrite Hstreams, stream_alter_used. }
  assert (innerStreams ij1 !! idx = Some (set_used true si)) as Hsi1.
  { by rewrite Hstreams, list_lookup_alter_eq, Hsi. }
  destruct (choose_next_Ok position idx (set_used true si) nc pl ij1 Hwf1 Hpl1 Hsi1)
    as (pl1 & next & Hnext & Hpl2).
  assert (choose_next position si nc pl ij1 = Ok (pl1, next)) as Hnext' by exact Hnext.
  rewrite Hnext'. simpl. destruct next as [next|]; [|eauto].
  destruct (choose_next_Some _ _ _ _ _ _ _ Hnext') as (sn & Hsn & Hun).
  destruct (IH (S position) next pl1 nc ncard ij1 sn Hwf1 Hpl2 Hsn Hun)
    as (pl2 & ij2 & Hrec); [lia..|].
  rewrite Hrec. simpl. eauto.
Qed.

(** ** The first loop of [findJoinOrder] *)

Lemma count_streams_used streams filters navigations ij :
  Forall (λ si, used si = true) streams →
  count_streams streams filters navigations ij = Ok (filters, navigations, ij).
Proof.
  induction 1 as [|x l Hx _ IH]; simpl; [done|]. by rewrite Hx.
Qed.

Lemma store_bestStream_Ok s ij ij' :
  store_bestStream 0 s ij = Ok ij' →
  ∃ j, joinedStreams ij !! 0 = Some j ∧
       ij' = set_joinedStreams (<[0 := set_bestStream s j]> (joinedStreams ij)) ij.
Proof.
  unfold store_bestStream. intros H.
  apply rbind_Ok in H as (j & Hj%deref_Ok & H). injection H as <-. eauto.
Qed.

(** The first loop touches the counters, the best order and the first slot. *)
Lemma count_streams_fields streams : ∀ filters navigations ij f n ij',
  count_streams streams filters navigations ij = Ok (f, n, ij') →
  (f, n) = first_pass streams filters navigations ∧
  innerStreams ij' = innerStreams ij ∧ csb_active ij' = csb_active ij ∧
  foundOrders ij' = foundOrders ij ∧ estimates ij' = estimates ij ∧
  remainingStreams ij' = remainingStreams ij + unused_count streams ∧
  length (joinedStreams ij') = length (joinedStreams ij).
Proof.
  induction streams as [|x l IH]; simpl; intros * H.
  { simplify_eq. unfold unused_count. simpl. split_and!; (done || lia). }
  unfold unused_count. rewrite filter_cons. destruct (used x) eqn:Hu.
  { rewrite decide_False by done. by apply IH. }
  rewrite decide_True by done.
  apply rbind_Ok in H as (ij1 & Hseed & H).
  destruct (IH _ _ _ _ _ _ H) as (-> & -> & -> & -> & -> & -> & ->).
  assert (innerStreams ij1 = innerStreams ij ∧ csb_active ij1 = csb_active ij ∧
          foundOrders ij1 = foundOrders ij ∧ estimates ij1 = estimates ij ∧
          remainingStreams ij1 = S (remainingStreams ij) ∧
          length (joinedStreams ij1) = length (joinedStreams ij))
    as (-> & -> & -> & -> & -> & ->).
  { destruct (isIndependent x); [|by simplify_eq].
    destruct (_ || _); [|by simplify_eq].
    apply rbind_Ok in Hseed as (ij2 & (j & Hj & ->)%store_bestStream_Ok & Hseed).
    simplify_eq. simpl. by rewrite length_insert. }
  split_and!; try done; unfold unused_count; simpl; lia.
Qed.

Lemma cheapest_independent_app pre x i si :
  cheapest_independent pre i si →
  (independent_candidate x → (baseCost si <= baseCost x)%Q) →
  cheapest_independent (pre ++ [x]) i si.
Proof.
  intros (Hi & Hc & Hmin) Hx. pose proof (lookup_lt_Some _ _ _ Hi) as Hlt. split_and!.
  - by apply lookup_app_l_Some.
  - done.
  - intros j sj Hj Hcj. apply lookup_app_Some in Hj as [Hj|[Hge Hj]]; [by apply Hmin|].
    apply list_lookup_singleton_Some in Hj as [_ <-]. split; [by apply Hx|lia].
Qed.

Lemma cheapest_independent_new pre x :
  independent_candidate x →
  (∀ j sj, pre !! j = Some sj → independent_candidate sj → (baseCost x < baseCost sj)%Q) →
  cheapest_independent (pre ++ [x]) (length pre) x.
Proof.
  intros Hc Hmin. split_and!.
  - by rewrite lookup_app_r, Nat.sub_diag by lia.
  - done.
  - intros j sj Hj Hcj. apply lookup_app_Some in Hj as [Hj|[Hge Hj]].
    + split; [apply Qlt_le_weak|intros _]; by eapply Hmin.
    + apply list_lookup_singleton_Some in Hj as [_ <-]. split; [apply Qle_refl|lia].
Qed.

Lemma no_candidate_app (pre : list StreamInfo) x :
  (∀ si, si ∈ pre → ¬ independent_candidate si) → ¬ independent_candidate x →
  ∀ si, si ∈ pre ++ [x] → ¬ independent_candidate si.
Proof.
  intros Hno Hx si Hsi. apply elem_of_app in Hsi as [?|Hsi]; [by apply Hno|].
  apply list_elem_of_singleton in Hsi. by subst.
Qed.

Lemma count_streams_seed streams : ∀ pre filters navigations ij f n ij',
  seed_state pre ij →
  count_streams streams filters navigations ij = Ok (f, n, ij') →
  seed_state (pre ++ streams) ij'.
Proof.
  induction streams as [|x l IH]; simpl; intros * Hpre H.
  { simplify_eq. by rewrite app_nil_r. }
  rewrite cons_middle, app_assoc.
  destruct (used x) eqn:Hu.
  { eapply IH; [|exact H]. destruct Hpre as [[Hb Hno]|(Hb & i & si & j & Hch & ? & ? & ?)].
    - left. split; [done|]. apply no_candidate_app; [done|]. intros [? _]. congruence.
    - right. split; [done|]. exists i, si, j. split_and!; [|done..].
      apply cheapest_independent_app; [done|]. intros [? _]. congruence. }
  apply rbind_Ok in H as (ij1 & Hseed & H).
  eapply IH; [|exact H]. clear H IH.
  destruct (isIndependent x) eqn:Hind.
  - destruct Hpre as [[Hb Hno]|(Hb & i & si & j & Hch & Hcost & Hj & Hbs)].
    + simpl in Hseed. rewrite Hb in Hseed. simpl in Hseed.
      apply rbind_Ok in Hseed as (ij2 & (j & Hj & ->)%store_bestStream_Ok & Hseed).
      simplify_eq. right. split; [done|].
      exists (length pre), x, (set_bestStream (stream x) j). split_and!; [|done| |done].
      * apply cheapest_independent_new; [done|]. intros k sk Hk Hck. exfalso.
        eapply Hno; [|done]. apply list_elem_of_lookup. eauto.
      * simpl. apply list_lookup_insert_eq. by eapply lookup_lt_Some.
    + simpl in Hseed. rewrite Hb, Hcost in Hseed. simpl in Hseed.
      destruct (Qltb (baseCost x) (baseCost si)) eqn:Hlt.
      * apply Qltb_lt in Hlt.
        apply rbind_Ok in Hseed as (ij2 & (j' & Hj' & ->)%store_bestStream_Ok & Hseed).
        simplify_eq. right. split; [done|].
        exists (length pre), x, (set_bestStream (stream x) j'). split_and!; [|done| |done].
        -- apply cheapest_independent_new; [done|]. intros k sk Hk Hck.
           destruct Hch as (_ & _ & Hmin). destruct (Hmin k sk Hk Hck) as [Hle _].
           by eapply Qlt_le_trans.
        -- simpl. apply list_lookup_insert_eq. by eapply lookup_lt_Some.
      * apply Qltb_ge in Hlt. simplify_eq. right. split; [done|].
        exists i, si, j. split_and!; [|done..]. by apply cheapest_independent_app.
  - simplify_eq. destruct Hpre as [[Hb Hno]|(Hb & i & si & j & Hch & ? & ? & ?)].
    + left. split; [done|]. apply no_candidate_app; [done|]. intros [_ ?]. congruence.
    + right. split; [done|]. exists i, si, j. split_and!; [|done..].
      apply cheapest_independent_app; [done|]. intros [_ ?]. congruence.
Qed.

Lemma count_streams_Ok streams : ∀ filters navigations ij,
  0 < length (joinedStreams ij) →
  ∃ f n ij', count_streams streams filters navigations ij = Ok (f, n, ij').
Proof.
  induction streams as [|x l IH]; simpl; intros * Hlen; [eauto|].
  destruct (used x); [by apply IH|].
  destruct (isIndependent x); simpl; [|by apply IH].
  destruct (_ || _); simpl; [|by apply IH].
  apply lookup_lt_is_Some in Hlen as [j Hj]. unfold store_bestStream. simpl.
  rewrite Hj. simpl.
  apply IH. simpl. rewrite length_insert. by eapply lookup_lt_Some.
Qed.

(** ** The last loop of [findJoinOrder] *)

Lemma mark_used_fields idx b ij :
  csb_active (mark_used idx b ij) = csb_active ij ∧
  joinedStreams (mark_used idx b ij) = joinedStreams ij ∧
  bestCount (mark_used idx b ij) = bestCount ij ∧
  bestCost (mark_used idx b ij) = bestCost ij ∧
  remainingStreams (mark_used idx b ij) = remainingStreams ij ∧
  foundOrders (mark_used idx b ij) = foundOrders ij ∧
  estimates (mark_used idx b ij) = estimates ij.
Proof. done. Qed.

Lemma mark_streams_fields count : ∀ i acc ij order ij',
  mark_streams count i acc ij = Ok (order, ij') →
  order = acc ++ (bestStream <$> take count (drop i (joinedStreams ij))) ∧
  length order = length acc + count ∧
  csb_active ij' = csb_active ij ∧ joinedStreams ij' = joinedStreams ij ∧
  bestCount ij' = bestCount ij ∧ bestCost ij' = bestCost ij ∧
  remainingStreams ij' = remainingStreams ij ∧
  foundOrders ij' = foundOrders ij ∧ estimates ij' = estimates ij.
Proof.
  induction count as [|count IH]; simpl; intros i acc ij order ij' H.
  { simplify_eq. rewrite app_nil_r. split_and!; (done || lia). }
  apply rbind_Ok in H as (j & Hj%deref_Ok & H).
  apply rbind_Ok in H as ([idx si] & Hg%deref_Ok & H).
  destruct (IH _ _ _ _ _ H) as (Ho & Hlen & -> & -> & -> & -> & -> & -> & ->).
  simpl in *. split_and!; try done.
  - rewrite Ho, <- app_assoc. f_equal. rewrite (drop_S _ _ _ Hj). done.
  - rewrite Hlen, length_app. simpl. lia.
Qed.

(** With distinct stream numbers, the last loop sets the used flag of the
    streams of the order and of no other stream. *)
Lemma alter_used_stream (l : list StreamInfo) idx si :
  NoDup (stream <$> l) → l !! idx = Some si →
  alter (set_used true) idx l =
  (λ x, if bool_decide (stream x = stream si) then set_used true x else x) <$> l.
Proof.
  intros Hnd Hsi. apply list_eq. intros k.
  rewrite list_lookup_alter, list_lookup_fmap. case_decide as Hk.
  - subst k. rewrite Hsi. simpl. by rewrite bool_decide_eq_true_2.
  - destruct (l !! k) as [x|] eqn:Hx; simpl; [|done].
    rewrite bool_decide_eq_false_2; [done|]. intros Heq. apply Hk.
    eapply (NoDup_lookup _ idx k (stream si) Hnd);
      rewrite list_lookup_fmap; [by rewrite Hsi|by rewrite Hx, <- Heq].
Qed.

Lemma mark_streams_used count : ∀ i acc ij order ij',
  NoDup (stream <$> innerStreams ij) →
  mark_streams count i acc ij = Ok (order, ij') →
  innerStreams ij' =
  (λ x, if bool_decide (stream x ∈ bestStream <$> take count (drop i (joinedStreams ij)))
        then set_used true x else x) <$> innerStreams ij.
Proof.
  induction count as [|count IH]; simpl; intros i acc ij order ij' Hnd H.
  { simplify_eq. symmetry. apply list_fmap_id. }
  apply rbind_Ok in H as (j & Hj%deref_Ok & H).
  apply rbind_Ok in H as ([idx si] & Hg%deref_Ok & H).
  apply getStreamInfo_Some in Hg as [Hsi Hs].
  apply IH in H; [|simpl; by rewrite stream_alter_used]. rewrite H. simpl.
  rewrite (alter_used_stream _ _ _ Hnd Hsi), <- list_fmap_compose.
  apply list_fmap_ext. intros k x _. simpl.
  rewrite (drop_S _ _ _ Hj). simpl. rewrite Hs.
  destruct (bool_decide (stream x = bestStream j)) eqn:E1.
  - apply bool_decide_eq_true in E1. rewrite !(bool_decide_eq_true_2 (_ ∈ _ :: _)).
    + by destruct (bool_decide _).
    + rewrite E1. by left.
  - apply bool_decide_eq_false in E1.
    destruct (bool_decide (stream x ∈ _)) eqn:E2.
    + apply bool_decide_eq_true in E2. rewrite bool_decide_eq_true_2; [done|]. by right.
    + apply bool_decide_eq_false in E2. rewrite bool_decide_eq_false_2; [done|].
      by intros [?|?]%elem_of_cons.
Qed.

Lemma mark_streams_Ok count : ∀ i acc ij,
  i + count ≤ length (joinedStreams ij) →
  (∀ j, j ∈ take count (drop i (joinedStreams ij)) →
        bestStream j ∈ stream <$> innerStreams ij) →
  ∃ order ij', mark_streams count i acc ij = Ok (order, ij').
Proof.
  induction count as [|count IH]; simpl; intros i acc ij Hlen Hin; [eauto|].
  destruct (lookup_lt_is_Some_2 (joinedStreams ij) i) as [j Hj]; [lia|].
  rewrite Hj. simpl. rewrite (drop_S _ _ _ Hj) in Hin. simpl in Hin.
  destruct (getStreamInfo_elem_of (innerStreams ij) (bestStream j)) as [[idx si] Hg].
  { apply Hin. by left. }
  rewrite Hg. simpl. apply IH; simpl.
  - lia.
  - intros j' Hj'. rewrite stream_alter_used. apply Hin. by right.
Qed.

(** ** The second loop when every stream is used *)

Lemma try_seeds_used fuel filters navigations count : ∀ from pl ij,
  Forall (λ si, used si = true) (innerStreams ij) →
  from + count ≤ length (innerStreams ij) →
  try_seeds fuel filters navigations count from pl ij = Ok (pl, ij).
Proof.
  induction count as [|count IH]; simpl; intros from pl ij Hused Hlen; [done|].
  destruct (lookup_lt_is_Some_2 (innerStreams ij) from) as [si Hsi]; [lia|].
  rewrite Hsi. simpl.
  rewrite (proj1 (Forall_lookup _ _) Hused _ _ Hsi). apply IH; [done|lia].
Qed.

Lemma findJoinOrder_used ij :
  Forall (λ si, used si = true) (innerStreams ij) →
  findJoinOrder ij = Ok (false, [], set_remainingStreams 0 (set_bestCount 0 ij)).
Proof.
  intros Hused. unfold findJoinOrder. simpl.
  rewrite count_streams_used by done. simpl.
  rewrite try_seeds_used by (simpl; done || lia). done.
Qed.

(** ** The trace of found orders *)

(** An invocation logs its own order first, then the orders of the descent,
    all of them longer. *)
Lemma findBestOrder_trace fuel position idx pl cost card ij pl' ij' :
  findBestOrder fuel position idx pl cost card ij = Ok (pl', ij') →
  ∃ si e rest,
    innerStreams ij !! idx = Some si ∧
    foundOrders ij' = foundOrders ij ++ e :: rest ∧
    fo_position e = S position ∧
    fo_streams e = take position (number <$> joinedStreams ij) ++ [stream si] ∧
    Forall (λ e', S position < fo_position e') rest.
Proof.
  intros H.
  eapply (findBestOrder_rule (λ _ _ _ _ _ _, True)
    (λ position idx ij ij', ∃ si e rest,
       innerStreams ij !! idx = Some si ∧
       foundOrders ij' = foundOrders ij ++ e :: rest ∧
       fo_position e = S position ∧
       fo_streams e = take position (number <$> joinedStreams ij) ++ [stream si] ∧
       Forall (λ e', S position < fo_position e') rest));
    [| |done|exact H]; clear.
  - intros * _ Henter _.
    destruct (enter_foundOrders _ _ _ _ _ _ _ _ _ _ Henter) as (e & Hf & Hp & _ & Hs).
    destruct (enter_innerStreams _ _ _ _ _ _ _ _ _ _ Henter) as (Hsi & _ & _).
    exists si, e, []. split_and!; try done.
  - intros * _ Henter _. split; [done|].
    intros ij2 (sn & e2 & rest & _ & Hf2 & Hp2 & _ & Hrest).
    destruct (enter_foundOrders _ _ _ _ _ _ _ _ _ _ Henter) as (e & Hf & Hp & _ & Hs).
    destruct (enter_innerStreams _ _ _ _ _ _ _ _ _ _ Henter) as (Hsi & _ & _).
    exists si, e, (e2 :: rest). split_and!; try done.
    + simpl. by rewrite Hf2, Hf, <- app_assoc.
    + constructor; [lia|]. eapply Forall_impl; [exact Hrest|]. simpl. lia.
Qed.


(** ** The second loop of [findJoinOrder] *)

(** A rule for the loop over the seeds: an invariant indexed by the position
    in the list; under an explicit PLAN the loop ends after the first seed. *)
Lemma try_seeds_rule fuel filters navigations
    (Inv : nat → InnerJoin → Prop) (Post : InnerJoin → Prop) :
  (∀ ij, Inv (length (innerStreams ij)) ij → Post ij) →
  (∀ from ij si, Inv from ij → innerStreams ij !! from = Some si →
     used si = true ∨ seed_allowed filters navigations si = false →
     Inv (S from) ij) →
  (∀ from ij si pl' ij', Inv from ij → innerStreams ij !! from = Some si →
     used si = false → seed_allowed filters navigations si = true →
     findBestOrder fuel 0 from [] 0%Q 1%Q ij = Ok (pl', ij') →
     if plan then Post ij' else Inv (S from) ij') →
  ∀ count from pl ij pl' ij',
    from + count = length (innerStreams ij) →
    Inv from ij →
    try_seeds fuel filters navigations count from pl ij = Ok (pl', ij') →
    Post ij'.
Proof.
  intros Hend Hskip Hseed.
  induction count as [|count IH]; simpl; intros from pl ij pl' ij' Hlen Hinv H.
  { simplify_eq. apply Hend. by replace (length (innerStreams ij')) with from by lia. }
  apply rbind_Ok in H as (si & Hsi%deref_Ok & H).
  destruct (used si) eqn:Hu.
  { eapply (IH (S from)); [|by eauto|exact H]. lia. }
  destruct (seed_allowed _ _ _) eqn:Hallowed.
  - apply rbind_Ok in H as ([pl1 ij1] & Hrun & H).
    specialize (Hseed _ _ _ _ _ Hinv Hsi Hu Hallowed Hrun).
    destruct (findBestOrder_frame _ _ _ _ _ _ _ _ _ Hrun) as (Hstreams & _).
    destruct plan; [by simplify_eq|].
    eapply (IH (S from)); [|exact Hseed|exact H]. rewrite Hstreams. lia.
  - eapply (IH (S from)); [|by eauto|exact H]. lia.
Qed.

(** ** Where the recursion stops *)

Lemma is_done_true position nc ij :
  is_done position nc ij = true ↔
  position = remainingStreams ij ∨
  (bestCount ij = remainingStreams ij ∧ (bestCost ij < nc)%Q).
Proof.
  unfold is_done. rewrite orb_true_iff, andb_true_iff, !Nat.eqb_eq, Qltb_lt. done.
Qed.

Lemma choose_next_None position si nc pl ij :
  (∃ pl1, choose_next position si nc pl ij = Ok (pl1, None)) ↔
  if plan then next_stream (innerStreams ij) = None
  else is_done (S position) nc ij = true ∨
       ∃ pl1, add_relationships (innerStreams ij) (indexedRelationships si) pl = Ok pl1 ∧
              next_relationship (innerStreams ij) pl1 = Ok None.
Proof.
  unfold choose_next. destruct plan.
  - split; [intros [pl1 H]; congruence|intros ->; eauto].
  - destruct (is_done _ _ _).
    + split; [by left|eauto].
    + split.
      * intros [pl1 H]. right.
        apply rbind_Ok in H as (pl2 & Hadd & H).
        apply rbind_Ok in H as (n & Hn & H). simplify_eq. eauto.
      * intros [?|(pl1 & -> & Hn)]; [done|]. simpl. rewrite Hn. simpl. eauto.
Qed.

Lemma findBestOrder_descends fuel position idx pl cost card ij pl' ij' si fl nc ncard ij1 :
  enter position idx cost card ij = Ok (si, fl, nc, ncard, ij1) →
  findBestOrder fuel position idx pl cost card ij = Ok (pl', ij') →
  foundOrders ij' = foundOrders ij1 ↔ ∃ pl1, choose_next position si nc pl ij1 = Ok (pl1, None).
Proof.
  intros Henter H. destruct fuel as [|fuel]; [done|].
  rewrite findBestOrder_S, Henter in H. simpl in H.
  apply rbind_Ok in H as ([pl1 [next|]] & Hnext & H).
  - apply rbind_Ok in H as ([pl2 ij2] & Hrec & H). simplify_eq.
    destruct (findBestOrder_trace _ _ _ _ _ _ _ _ _ Hrec) as (sn & e & rest & _ & Hf & _).
    simpl. rewrite Hf. split.
    + intros Heq. apply (f_equal length) in Heq. rewrite length_app in Heq. simpl in Heq. lia.
    + intros [pl3 H3]. congruence.
  - simplify_eq. simpl. split; eauto.
Qed.

(** ** The best order during the search *)

Lemma unused_streams_elem_of streams s :
  s ∈ unused_streams streams ↔ ∃ si, si ∈ streams ∧ used si = false ∧ stream si = s.
Proof.
  unfold unused_streams. rewrite list_elem_of_fmap. split.
  - intros (si & -> & [? ?]%list_elem_of_filter). eauto.
  - intros (si & ? & ? & <-). exists si. split; [done|]. by apply list_elem_of_filter.
Qed.

Lemma unused_streams_subseteq streams : unused_streams streams ⊆ stream <$> streams.
Proof.
  intros s (si & ? & _ & <-)%unused_streams_elem_of. apply list_elem_of_fmap. eauto.
Qed.

Lemma unused_streams_length streams : length (unused_streams streams) = unused_count streams.
Proof. unfold unused_streams, unused_count. apply length_fmap. Qed.

(** Marking a record removes its stream from the unused streams. *)
Lemma unused_streams_mark streams idx si s :
  NoDup (stream <$> streams) → streams !! idx = Some si →
  s ∈ unused_streams (alter (set_used true) idx streams) →
  s ∈ unused_streams streams ∧ s ≠ stream si.
Proof.
  intros Hnd Hsi (x & Hx & Hu & <-)%unused_streams_elem_of.
  apply list_elem_of_lookup in Hx as [k Hk]. rewrite list_lookup_alter in Hk.
  case_decide as Hik.
  - subst k. rewrite Hsi in Hk. by simplify_eq/=.
  - split.
    + apply unused_streams_elem_of. exists x. split_and!; [|done..].
      apply list_elem_of_lookup. eauto.
    + intros Heq. apply Hik.
      eapply (NoDup_lookup _ idx k (stream si) Hnd);
        rewrite list_lookup_fmap; [by rewrite Hsi|rewrite Hk; simpl; by rewrite Heq].
Qed.

Lemma related_static streams streams' a b :
  relationships_of streams = relationships_of streams' →
  related streams a b ↔ related streams' a b.
Proof. unfold related. by intros ->. Qed.

Lemma current_order_enter position idx cost card ij si fl nc ncard ij1 :
  enter position idx cost card ij = Ok (si, fl, nc, ncard, ij1) →
  current_order (S position) ij1 = current_order position ij ++ [stream si] ∧
  length (current_order position ij) = position.
Proof.
  intros (Hlt & _ & Hn)%enter_joinedStreams. unfold current_order. rewrite Hn. split.
  - rewrite (take_S_r _ _ (stream si)).
    + by rewrite take_insert_ge by lia.
    + apply list_lookup_insert_eq. by rewrite length_fmap.
  - rewrite length_take, length_fmap. lia.
Qed.

Lemma reachable_order_snoc streams order s :
  reachable_order streams order →
  (order ≠ [] → ∃ t, t ∈ order ∧ related streams t s) →
  reachable_order streams (order ++ [s]).
Proof.
  intros Hr Hs k x Hk Hpos. apply lookup_app_Some in Hk as [Hk|[Hge Hk]].
  - destruct (Hr k x Hk Hpos) as (t & Ht & Hrel). exists t. split; [|done].
    rewrite take_app_le by (apply lookup_lt_Some in Hk; lia). done.
  - apply list_lookup_singleton_Some in Hk as [Hk <-].
    assert (k = length order) as -> by lia.
    rewrite take_app_length. apply Hs. intros ->. simpl in *. lia.
Qed.

Lemma reachable_order_nil streams : reachable_order streams [].
Proof. intros k s Hk. by rewrite lookup_nil in Hk. Qed.

Lemma good_order_nil base : good_order base [].
Proof.
  split_and!; [constructor| |intros; apply reachable_order_nil].
  intros x Hx. by apply elem_of_nil in Hx.
Qed.

(** The order under exploration after [enter] is good. *)
Lemma search_state_enter base position idx pl cost card ij si fl nc ncard ij1 :
  search_state base position idx pl ij →
  enter position idx cost card ij = Ok (si, fl, nc, ncard, ij1) →
  used si = false ∧
  relationships_of (innerStreams ij1) = relationships_of base ∧
  NoDup (stream <$> innerStreams ij1) ∧
  unused_streams (innerStreams ij1) ⊆ unused_streams base ∧
  good_order base (current_order (S position) ij1) ∧
  (∀ s, s ∈ current_order (S position) ij1 → s ∉ unused_streams (innerStreams ij1)) ∧
  (plan = false → ∀ r, r ∈ pl ∨ r ∈ indexedRelationships si →
     ∃ t, t ∈ current_order (S position) ij1 ∧ related base t (ir_stream r)) ∧
  good_best base ij1.
Proof.
  intros (Hrel & Hnd & Hsub & (si' & Hsi' & Hu & Hreach) & (Hpnd & Hpsub & Hpr) & Hpused
          & Hpl & Hlen & Hbest) Henter.
  destruct (enter_innerStreams _ _ _ _ _ _ _ _ _ _ Henter) as (Hsi & _ & Hstreams).
  assert (si' = si) as -> by congruence.
  destruct (current_order_enter _ _ _ _ _ _ _ _ _ _ Henter) as [Hcur Hcurlen].
  assert (stream si ∈ unused_streams (innerStreams ij)) as Hsin.
  { apply unused_streams_elem_of. exists si. split_and!; [|done..].
    apply list_elem_of_lookup. eauto. }
  assert (good_order base (current_order (S position) ij1)) as Hgood.
  { rewrite Hcur. split_and!.
    - apply NoDup_app. split_and!; [done| |apply NoDup_singleton].
      intros x Hx Hx'%list_elem_of_singleton. subst x. by apply (Hpused _ Hx).
    - intros x [Hx| ->]%elem_of_snoc; [by apply Hpsub|by apply Hsub].
    - intros Hplan. apply reachable_order_snoc; [by apply Hpr|].
      intros Hne. apply Hreach; [done|].
      destruct position; [|lia]. by destruct (current_order 0 ij). }
  split_and!; try done.
  - by rewrite Hstreams, relationships_alter_used.
  - by rewrite Hstreams, stream_alter_used.
  - rewrite Hstreams. intros s Hs.
    apply Hsub. by eapply unused_streams_mark.
  - rewrite Hcur, Hstreams. intros s [Hs| ->]%elem_of_snoc Hin;
      destruct (unused_streams_mark _ _ _ _ Hnd Hsi Hin) as [Hin' Hne]; [|done].
    by apply (Hpused _ Hs).
  - intros Hplan r [Hr|Hr].
    + destruct (Hpl Hplan r Hr) as (t & Ht & Hrt). exists t. split; [|done].
      rewrite Hcur. apply elem_of_app. by left.
    + exists (stream si). split.
      * rewrite Hcur. apply elem_of_app. right. by apply list_elem_of_singleton.
      * apply (related_static _ _ _ _ Hrel). by eapply related_lookup.
  - pose proof (enter_best _ _ _ _ _ _ _ _ _ _ Henter) as Hb.
    destruct (enter_joinedStreams _ _ _ _ _ _ _ _ _ _ Henter) as (Hlt & Hlen1 & _).
    unfold good_best, best_order in *.
    destruct (_ || _); destruct Hb as (Hbc & _ & Hbo); rewrite Hbo, Hlen1, Hbc.
    + split; [lia|]. fold (current_order position ij).
      by rewrite <- Hcur.
    + done.
Qed.

Lemma choose_next_related position si nc pl ij pl1 next :
  plan = false →
  choose_next position si nc pl ij = Ok (pl1, Some next) →
  (∀ r, r ∈ pl1 → r ∈ pl ∨ r ∈ indexedRelationships si) ∧
  ∃ sn r, innerStreams ij !! next = Some sn ∧ r ∈ pl1 ∧ ir_stream r = stream sn.
Proof.
  unfold choose_next. intros ->. destruct (is_done _ _ _); [done|]. intros H.
  apply rbind_Ok in H as (pl' & Hadd & H).
  apply rbind_Ok in H as (n & Hn & H). simplify_eq. split.
  - intros r Hr. by eapply add_relationships_elem_of.
  - destruct (next_relationship_Some _ _ _ Hn) as (sn & r & ? & ? & ? & ?). eauto.
Qed.


(** The best order stays good through an invocation. *)
Lemma findBestOrder_good_best base fuel position idx pl cost card ij pl' ij' :
  search_state base position idx pl ij →
  findBestOrder fuel position idx pl cost card ij = Ok (pl', ij') →
  good_best base ij'.
Proof.
  intros Hpre H.
  eapply (findBestOrder_rule (λ position idx pl _ _ ij, search_state base position idx pl ij)
            (λ _ _ _ ij', good_best base ij')); [| |exact Hpre|exact H]; clear.
  - intros * Hpre Henter _.
    by destruct (search_state_enter _ _ _ _ _ _ _ _ _ _ _ _ Hpre Henter)
      as (_ & _ & _ & _ & _ & _ & _ & Hbest).
  - intros * Hpre Henter Hnext. split; [|done].
    destruct (search_state_enter _ _ _ _ _ _ _ _ _ _ _ _ Hpre Henter)
      as (Hu & Hrel & Hnd & Hsub & Hgood & Hpused & Hpl & Hbest).
    destruct (choose_next_Some _ _ _ _ _ _ _ Hnext) as (sn & Hsn & Hun).
    split_and!; try done.
    + exists sn. split_and!; [done..|]. intros Hplan _.
      destruct (choose_next_related _ _ _ _ _ _ _ Hplan Hnext)
        as (Hin & sn' & r & Hsn' & Hr & Hrs).
      assert (sn' = sn) as -> by congruence. rewrite <- Hrs. apply Hpl; [done|]. by apply Hin.
    + intros Hplan r Hr.
      destruct (choose_next_related _ _ _ _ _ _ _ Hplan Hnext) as (Hin & _).
      apply Hpl; [done|]. by apply Hin.
Qed.

(** ** [findJoinOrder] as a whole *)

Lemma unused_count_le streams : unused_count streams ≤ length streams.
Proof. apply length_filter. Qed.

Lemma good_order_length base order : good_order base order → length order ≤ unused_count base.
Proof.
  intros (Hnd & Hsub & _). rewrite <- unused_streams_length.
  by apply submseteq_length, NoDup_submseteq.
Qed.

(** The best order after the first loop. *)
Lemma seed_state_good_best base ij :
  seed_state base ij → good_best base ij.
Proof.
  unfold good_best, best_order.
  intros [[-> _]|(-> & i & si & j & (Hi & [Hu _] & _) & _ & Hj & Hbs)].
  - split; [lia|]. rewrite take_0. apply good_order_nil.
  - pose proof (lookup_lt_Some _ _ _ Hj). split; [lia|].
    destruct (joinedStreams ij) as [|j' js]; simplify_eq/=.
    rewrite Hbs. split_and!.
    + apply NoDup_singleton.
    + intros x ->%list_elem_of_singleton. apply unused_streams_elem_of.
      exists si. split_and!; [|done..]. apply list_elem_of_lookup. eauto.
    + intros _ [|k] s Hk Hpos; [lia|]. by destruct k.
Qed.

Lemma search_state_seed base from si ij :
  innerStreams ij = base → NoDup (stream <$> base) →
  base !! from = Some si → used si = false → good_best base ij →
  search_state base 0 from [] ij.
Proof.
  intros Hbase Hnd Hsi Hu Hbest. unfold search_state, current_order. rewrite Hbase, take_0.
  split_and!; try done.
  - exists si. split_and!; [done..|]. intros; lia.
  - apply good_order_nil.
  - intros s Hs. by apply elem_of_nil in Hs.
  - intros _ r Hr. by apply elem_of_nil in Hr.
Qed.

(** The second loop keeps the streams and a good best order. *)
Lemma try_seeds_good_best fuel filters navigations count from pl ij pl' ij' :
  NoDup (stream <$> innerStreams ij) →
  from + count = length (innerStreams ij) →
  good_best (innerStreams ij) ij →
  try_seeds fuel filters navigations count from pl ij = Ok (pl', ij') →
  innerStreams ij' = innerStreams ij ∧
  remainingStreams ij' = remainingStreams ij ∧
  length (joinedStreams ij') = length (joinedStreams ij) ∧
  good_best (innerStreams ij) ij'.
Proof.
  intros Hnd Hlen Hbest H. set (base := innerStreams ij) in *.
  eapply (try_seeds_rule fuel filters navigations
            (λ _ ij', innerStreams ij' = base ∧ remainingStreams ij' = remainingStreams ij ∧
                      length (joinedStreams ij') = length (joinedStreams ij) ∧
                      good_best base ij')
            (λ ij', innerStreams ij' = base ∧ remainingStreams ij' = remainingStreams ij ∧
                    length (joinedStreams ij') = length (joinedStreams ij) ∧
                    good_best base ij')); [| | | |done|exact H]; try done.
  clear H. intros from' ij1 si pl1 ij2 (Hb & Hr & Hl & Hg) Hsi Hu _ Hrun.
  destruct (findBestOrder_frame _ _ _ _ _ _ _ _ _ Hrun) as (Hstreams & Hrem & Hlen2).
  assert (innerStreams ij2 = base ∧ remainingStreams ij2 = remainingStreams ij ∧
          length (joinedStreams ij2) = length (joinedStreams ij) ∧
          good_best base ij2) as Hgoal.
  { split_and!; [congruence..|]. eapply findBestOrder_good_best; [|exact Hrun].
    rewrite Hb in Hsi. by eapply search_state_seed. }
  by destruct plan.
Qed.

(** The second loop succeeds on well-formed relationships. *)
Lemma try_seeds_Ok filters navigations count : ∀ from pl ij,
  wf_relationships (innerStreams ij) →
  length (joinedStreams ij) = length (innerStreams ij) →
  from + count = length (innerStreams ij) →
  ∃ pl' ij', try_seeds (length (innerStreams ij)) filters navigations count from pl ij
             = Ok (pl', ij').
Proof.
  induction count as [|count IH]; simpl; intros from pl ij Hwf Hjs Hlen; [eauto|].
  destruct (lookup_lt_is_Some_2 (innerStreams ij) from) as [si Hsi]; [lia|].
  rewrite Hsi. simpl. destruct (used si) eqn:Hu; [apply IH; (done || lia)|].
  destruct (seed_allowed _ _ _); [|apply IH; (done || lia)].
  pose proof (unused_count_le (innerStreams ij)) as Hle.
  destruct (findBestOrder_Ok (length (innerStreams ij)) 0 from [] 0%Q 1%Q ij si)
    as (pl1 & ij1 & Hrun); try done; try lia.
  { intros r Hr. by apply elem_of_nil in Hr. }
  rewrite Hrun. simpl. destruct plan; [eauto|].
  destruct (findBestOrder_frame _ _ _ _ _ _ _ _ _ Hrun) as (Hstreams & _ & Hjs1).
  rewrite <- Hstreams. apply IH; rewrite ?Hstreams; (done || lia).
Qed.

(** [findJoinOrder] returns, on streams of distinct numbers with well-formed
    relationships and as many slots as streams; the order returned is the
    best order, it is good, and exactly its streams are newly marked used. *)
Lemma findJoinOrder_good ij :
  NoDup (stream <$> innerStreams ij) →
  wf_relationships (innerStreams ij) →
  length (joinedStreams ij) = length (innerStreams ij) →
  ∃ b order ij',
    findJoinOrder ij = Ok (b, order, ij') ∧
    b = negb (length order =? 0) ∧
    good_order (innerStreams ij) order ∧
    remainingStreams ij' = unused_count (innerStreams ij) ∧
    innerStreams ij' =
      (λ x, if bool_decide (stream x ∈ order) then set_used true x else x)
        <$> innerStreams ij ∧
    length (joinedStreams ij') = length (joinedStreams ij).
Proof.
  intros Hnd Hwf Hjs.
  destruct (innerStreams ij) as [|s0 base'] eqn:Hbase.
  { rewrite findJoinOrder_used by (rewrite Hbase; constructor).
    exists false, []. eexists. split_and!; try done. }
  rewrite <- Hbase in *. unfold findJoinOrder.
  set (ij0 := set_remainingStreams 0 (set_bestCount 0 ij)).
  assert (0 < length (joinedStreams ij0)) as Hpos by (simpl; rewrite Hjs, Hbase; simpl; lia).
  destruct (count_streams_Ok (innerStreams ij0) 0 0 ij0 Hpos) as (f & n & ij1 & Hcount).
  rewrite Hcount. simpl.
  destruct (count_streams_fields _ _ _ _ _ _ _ Hcount)
    as (_ & Hstreams1 & _ & _ & _ & Hrem1 & Hjs1).
  simpl in Hstreams1, Hrem1, Hjs1.
  assert (good_best (innerStreams ij) ij1) as Hbest1.
  { apply seed_state_good_best.
    apply (count_streams_seed (innerStreams ij0) [] 0 0 ij0 f n ij1); [|done].
    left. split; [done|]. intros ? []%elem_of_nil. }
  assert (∃ pl2 ij2,
    (if bestCount ij1 =? 0
     then try_seeds (length (innerStreams ij1)) f n (length (innerStreams ij1)) 0 [] ij1
     else Ok ([], ij1)) = Ok (pl2, ij2) ∧
    innerStreams ij2 = innerStreams ij ∧ remainingStreams ij2 = remainingStreams ij1 ∧
    length (joinedStreams ij2) = length (joinedStreams ij1) ∧
    good_best (innerStreams ij) ij2)
    as (pl2 & ij2 & Hloop & Hstreams2 & Hrem2 & Hjs2 & Hbest2).
  { destruct (bestCount ij1 =? 0); [|by eauto 10].
    assert (wf_relationships (innerStreams ij1)) as Hwf1 by (by rewrite Hstreams1).
    assert (length (joinedStreams ij1) = length (innerStreams ij1)) as Hjs1'
      by (rewrite Hstreams1; lia).
    destruct (try_seeds_Ok f n (length (innerStreams ij1)) 0 [] ij1 Hwf1 Hjs1' eq_refl)
      as (pl2 & ij2 & Hloop).
    exists pl2, ij2. split; [done|].
    apply try_seeds_good_best in Hloop; rewrite ?Hstreams1 in *; done. }
  rewrite Hloop. simpl.
  destruct Hbest2 as (Hlen2 & Hgood2).
  destruct (mark_streams_Ok (bestCount ij2) 0 [] ij2) as (order & ij3 & Hmark).
  { lia. }
  { intros j Hj. rewrite drop_0 in Hj. rewrite Hstreams2.
    apply unused_streams_subseteq. apply Hgood2. unfold best_order.
    apply list_elem_of_fmap. eauto. }
  rewrite Hmark. simpl.
  destruct (mark_streams_fields _ _ _ _ _ _ Hmark)
    as (Ho & _ & _ & Hjs3 & _ & _ & Hrem3 & _).
  simpl in Ho. rewrite drop_0 in Ho. fold (best_order ij2) in Ho.
  exists (negb (length order =? 0)), order, ij3. split_and!; try done.
  - by rewrite Ho.
  - rewrite Hrem3, Hrem2, Hrem1. done.
  - rewrite (mark_streams_used _ _ _ _ _ _ ltac:(by rewrite Hstreams2) Hmark).
    rewrite drop_0. fold (best_order ij2). by rewrite <- Ho, Hstreams2.
  - by rewrite Hjs3, Hjs2, Hjs1.
Qed.

(** The conditions on the state under which the properties are stated hold
    again after [findJoinOrder]: they hold at every call. *)
Lemma findJoinOrder_keeps_state ij b order ij' :
  NoDup (stream <$> innerStreams ij) →
  wf_relationships (innerStreams ij) →
  length (joinedStreams ij) = length (innerStreams ij) →
  findJoinOrder ij = Ok (b, order, ij') →
  NoDup (stream <$> innerStreams ij') ∧
  wf_relationships (innerStreams ij') ∧
  length (joinedStreams ij') = length (innerStreams ij').
Proof.
  intros Hnd Hwf Hjs Hrun.
  destruct (findJoinOrder_good ij Hnd Hwf Hjs)
    as (b' & order' & ij'' & Hrun' & _ & _ & _ & Hstreams & Hlen).
  rewrite Hrun in Hrun'. simplify_eq.
  assert (stream <$> innerStreams ij'' = stream <$> innerStreams ij) as Hs.
  { rewrite Hstreams, <- list_fmap_compose. apply list_fmap_ext.
    intros k x _. simpl. by case_bool_decide. }
  assert (relationships_of (innerStreams ij'') = relationships_of (innerStreams ij)) as Hr.
  { unfold relationships_of. rewrite Hstreams, <- list_fmap_compose. apply list_fmap_ext.
    intros k x _. simpl. by case_bool_decide. }
  split_and!.
  - by rewrite Hs.
  - unfold wf_relationships, related. by rewrite Hr, Hs.
  - rewrite Hlen, Hjs, <- (length_fmap stream (innerStreams ij'')), Hs. symmetry. apply length_fmap.
Qed.


(** ** The orders visited by the search *)




(** ** The seeds tried by the second loop *)

Lemma seeds_tried_app l1 l2 : seeds_tried (l1 ++ l2) = seeds_tried l1 ++ seeds_tried l2.
Proof. unfold seeds_tried. by rewrite filter_app, fmap_app. Qed.

Lemma seeds_tried_deeper rest :
  Forall (λ e, 1 < fo_position e) rest → seeds_tried rest = [].
Proof.
  unfold seeds_tried. induction 1 as [|e rest He _ IH]; [done|].
  rewrite filter_cons, decide_False by lia. done.
Qed.

(** The streams of the list from [from] on that the second loop takes as
    seeds: not used and allowed by the test; only the first under a PLAN. *)
Lemma try_seeds_trace fuel filters navigations count : ∀ from pl ij pl' ij',
  from + count = length (innerStreams ij) →
  try_seeds fuel filters navigations count from pl ij = Ok (pl', ij') →
  ∃ new, foundOrders ij' = foundOrders ij ++ new ∧
    seeds_tried new =
    (λ si, [stream si]) <$>
      (let allowed := filter (λ si, used si = false ∧
                                    seed_allowed filters navigations si = true)
                             (drop from (innerStreams ij)) in
       if plan then take 1 allowed else allowed).
Proof.
  induction count as [|count IH]; simpl; intros from pl ij pl' ij' Hlen H.
  { simplify_eq. exists []. rewrite app_nil_r, drop_ge by lia. split; [done|].
    by destruct plan. }
  apply rbind_Ok in H as (si & Hsi%deref_Ok & H).
  rewrite (drop_S _ _ _ Hsi), filter_cons.
  destruct (used si) eqn:Hu.
  { rewrite decide_False by (intros [? _]; congruence).
    eapply (IH (S from)); [lia|exact H]. }
  destruct (seed_allowed _ _ _) eqn:Hallowed.
  - rewrite decide_True by done.
    apply rbind_Ok in H as ([pl1 ij1] & Hrun & H).
    destruct (findBestOrder_trace _ _ _ _ _ _ _ _ _ Hrun)
      as (si' & e & rest & Hsi' & Hf & Hp & Hs & Hrest).
    assert (si' = si) as -> by congruence. rewrite take_0 in Hs. simpl in Hs.
    destruct (findBestOrder_frame _ _ _ _ _ _ _ _ _ Hrun) as (Hstreams & _).
    assert (seeds_tried (e :: rest) = [[stream si]]) as Hseed.
    { change (e :: rest) with ([e] ++ rest).
      rewrite seeds_tried_app, (seeds_tried_deeper rest) by done.
      unfold seeds_tried. rewrite filter_cons, decide_True by done. simpl. by rewrite Hs. }
    destruct plan.
    + simplify_eq. exists (e :: rest). split; [done|]. by rewrite Hseed.
    + apply (IH (S from)) in H as (new & Hf' & Hnew); [|rewrite Hstreams; lia].
      exists (e :: rest ++ new). split.
      * by rewrite Hf', Hf, <- app_assoc.
      * change (e :: rest ++ new) with ((e :: rest) ++ new).
        rewrite seeds_tried_app, Hseed, Hnew, Hstreams. done.
  - rewrite decide_False by (intros [_ ?]; congruence).
    eapply (IH (S from)); [lia|exact H].
Qed.

Lemma first_pass_filters streams : ∀ f n,
  fst (first_pass streams f n) = f + filters_total streams.
Proof.
  unfold filters_total.
  induction streams as [|x l IH]; simpl; intros f n; [lia|].
  rewrite filter_cons. destruct (used x) eqn:Hu.
  { rewrite decide_False by (intros [? _]; congruence). apply IH. }
  rewrite IH. destruct (isFiltered x) eqn:Hf.
  - rewrite decide_True by done. simpl. lia.
  - rewrite decide_False by (intros [_ ?]; congruence). lia.
Qed.

(** The trace and the seeds of a whole [findJoinOrder] when no stream is an
    independent candidate. *)
Lemma findJoinOrder_trace ij b order ij' :
  (∀ si, si ∈ innerStreams ij → ¬ independent_candidate si) →
  findJoinOrder ij = Ok (b, order, ij') →
  ∃ new, foundOrders ij' = foundOrders ij ++ new ∧
    seeds_tried new =
    (λ si, [stream si]) <$>
      (let '(filters, navigations) := first_pass (innerStreams ij) 0 0 in
       let allowed := filter (λ si, used si = false ∧
                                    seed_allowed filters navigations si = true)
                             (innerStreams ij) in
       if plan then take 1 allowed else allowed).
Proof.
  intros Hno H. unfold findJoinOrder in H.
  apply rbind_Ok in H as ([[f n] ij1] & Hcount & H).
  apply rbind_Ok in H as ([pl2 ij2] & Hloop & H).
  apply rbind_Ok in H as ([order' ij3] & Hmark & H). simplify_eq.
  destruct (count_streams_fields _ _ _ _ _ _ _ Hcount)
    as (Hfn & Hstreams1 & _ & Hfound1 & _ & _ & _).
  simpl in Hfn, Hstreams1, Hfound1. rewrite <- Hfn.
  assert (seed_state [] (set_remainingStreams 0 (set_bestCount 0 ij))) as Hseed0.
  { left. split; [done|]. intros ? []%elem_of_nil. }
  pose proof (count_streams_seed _ _ _ _ _ _ _ _ Hseed0 Hcount) as Hseed.
  simpl in Hseed.
  destruct Hseed as [[Hb _]|(_ & i & si & j & (Hi & Hc & _) & _)].
  2:{ exfalso. eapply Hno; [|exact Hc]. apply list_elem_of_lookup. eauto. }
  rewrite Hb in Hloop. simpl in Hloop.
  apply try_seeds_trace in Hloop as (new & Hf & Hnew); [|lia].
  destruct (mark_streams_fields _ _ _ _ _ _ Hmark) as (_ & _ & _ & _ & _ & _ & _ & Hf3 & _).
  exists new. split.
  - by rewrite Hf3, Hf, Hfound1.
  - by rewrite Hnew, drop_0, Hstreams1.
Qed.

(** ** The search under an explicit PLAN *)









(** ** The cost of the best order *)





(** ** The logged costs are the cumulative costs of the orders *)


Lemma estimateCost_ext ij ij' s start :
  csb_active ij = csb_active ij' → estimateCost ij s start = estimateCost ij' s start.
Proof. unfold estimateCost. by intros ->. Qed.




(** ** Checks of the hypotheses on given streams *)

Lemma wf_relationships_check streams :
  Forall (λ si, Forall (λ r, ir_stream r ∈ stream <$> streams) (indexedRelationships si))
         streams →
  wf_relationships streams.
Proof.
  intros Hall a b (rels & r & Hin & Hr & <-).
  apply list_elem_of_fmap in Hin as (si & Heq & Hsi). simplify_eq.
  rewrite Forall_forall in Hall. specialize (Hall si Hsi).
  rewrite Forall_forall in Hall. by apply Hall.
Qed.

Lemma wf_processList_nil streams : wf_processList streams [].
Proof. intros r Hr. by apply elem_of_nil in Hr. Qed.

Lemma inactive_unused_empty ij : csb_active ij = ∅ → inactive_unused ij.
Proof. intros Hcsb si _ _. rewrite Hcsb. apply not_elem_of_empty. Qed.

(** ** The constructor *)

Lemma stream_alter (f : StreamInfo → StreamInfo) i (l : list StreamInfo) :
  (∀ x, stream (f x) = stream x) → stream <$> alter f i l = stream <$> l.
Proof.
  intros Hf. revert i. induction l as [|x l IH]; intros [|i]; simpl; [done..| |].
  - by rewrite Hf.
  - f_equal. apply IH.
Qed.

Lemma base_costs_streams count : ∀ i ij,
  stream <$> innerStreams (base_costs count i ij) = stream <$> innerStreams ij.
Proof.
  induction count as [|count IH]; intros i ij; simpl; [done|].
  destruct (innerStreams ij !! i); [|done]. rewrite IH. simpl. by apply stream_alter.
Qed.

Lemma relationships_loop_streams count : ∀ base test candidate ij,
  stream <$> innerStreams (relationships_loop count base test candidate ij)
  = stream <$> innerStreams ij.
Proof.
  induction count as [|count IH]; intros base test candidate ij; simpl; [done|].
  destruct (innerStreams ij !! base); [|done]. destruct (innerStreams ij !! test); [|done].
  rewrite IH. destruct (_ && _); [|done]. simpl. by rewrite !stream_alter.
Qed.

Lemma getIndexedRelationships_streams test ij :
  stream <$> innerStreams (getIndexedRelationships test ij) = stream <$> innerStreams ij.
Proof.
  unfold getIndexedRelationships. destruct (innerStreams ij !! test); [|done].
  apply relationships_loop_streams.
Qed.

Lemma collect_relationships_streams count : ∀ i ij,
  stream <$> innerStreams (collect_relationships count i ij) = stream <$> innerStreams ij.
Proof.
  induction count as [|count IH]; intros i ij; simpl; [done|].
  rewrite IH. apply getIndexedRelationships_streams.
Qed.



Lemma Forall_alter_preserved {A} (P : A → Prop) (f : A → A) i (l : list A) :
  (∀ x, P x → P (f x)) → Forall P l → Forall P (alter f i l).
Proof.
  intros Hf Hl. apply Forall_lookup. intros k x Hk.
  rewrite Forall_lookup in Hl. rewrite list_lookup_alter in Hk. case_decide.
  - destruct (l !! i) as [y|] eqn:Hy; simplify_eq/=. apply Hf. by eapply Hl.
  - by eapply Hl.
Qed.

Lemma base_costs_fields count : ∀ i ij ids,
  Forall (unused_and_closed ids) (innerStreams ij) →
  Forall (unused_and_closed ids) (innerStreams (base_costs count i ij)) ∧
  joinedStreams (base_costs count i ij) = joinedStreams ij ∧
  csb_active (base_costs count i ij) =
    csb_active ij ∖ list_to_set (take count (drop i (stream <$> innerStreams ij))).
Proof.
  induction count as [|count IH]; intros i ij ids Hall; simpl.
  { split_and!; [done..|]. apply set_eq. intros x. rewrite elem_of_difference.
    rewrite elem_of_empty. tauto. }
  destruct (innerStreams ij !! i) as [si|] eqn:Hsi.
  - match goal with
    | |- context [base_costs count (S i) ?s] =>
        destruct (IH (S i) s ids) as (Hall' & -> & ->)
    end.
    { simpl. apply Forall_alter_preserved; [|done]. by intros x [? ?]. }
    split_and!; [exact Hall'|done|]. simpl. rewrite stream_alter by done.
    rewrite (drop_S (stream <$> innerStreams ij) (stream si) i)
      by (by rewrite list_lookup_fmap, Hsi).
    simpl.
    apply set_eq. intros x.
    rewrite !elem_of_difference, !elem_of_union, !elem_of_singleton. tauto.
  - split_and!; [done..|].
    rewrite drop_ge by (rewrite length_fmap; by apply lookup_ge_None).
    rewrite take_nil. simpl.
    apply set_eq. intros x. rewrite elem_of_difference, elem_of_empty. tauto.
Qed.

Lemma relationships_loop_fields count : ∀ base test candidate ij,
  Forall (unused_and_closed (stream <$> innerStreams ij)) (innerStreams ij) →
  Forall (unused_and_closed (stream <$> innerStreams ij))
         (innerStreams (relationships_loop count base test candidate ij)) ∧
  joinedStreams (relationships_loop count base test candidate ij) = joinedStreams ij ∧
  csb_active (relationships_loop count base test candidate ij) = csb_active ij.
Proof.
  induction count as [|count IH]; intros base test candidate ij Hall; simpl; [done|].
  destruct (innerStreams ij !! base) as [bs|] eqn:Hbs; [|done].
  destruct (innerStreams ij !! test) as [ts|] eqn:Hts; [|done].
  destruct (_ && _); [|by apply IH].
  match goal with
  | |- context [relationships_loop count (S base) test candidate ?s] =>
      destruct (IH (S base) test candidate s) as (Hall' & -> & ->)
  end.
  2:{ split_and!; [|done..]. simpl in Hall'. rewrite !stream_alter in Hall' by done.
      exact Hall'. }
  simpl. rewrite !stream_alter by done.
  apply Forall_alter_preserved; [by intros x [? ?]|].
  apply Forall_alter_preserved; [|done].
  intros x [Hu Hrels]. split; [done|]. simpl. apply Forall_forall.
  intros r [->|Hr]%ir_add_elem_of.
  - simpl. apply list_elem_of_fmap. exists ts. split; [done|].
    apply list_elem_of_lookup. eauto.
  - rewrite Forall_forall in Hrels. by apply Hrels.
Qed.

Lemma collect_relationships_fields count : ∀ i ij,
  Forall (unused_and_closed (stream <$> innerStreams ij)) (innerStreams ij) →
  Forall (unused_and_closed (stream <$> innerStreams ij))
         (innerStreams (collect_relationships count i ij)) ∧
  joinedStreams (collect_relationships count i ij) = joinedStreams ij ∧
  csb_active (collect_relationships count i ij) = csb_active ij.
Proof.
  induction count as [|count IH]; intros i ij Hall; simpl; [done|].
  assert (Forall (unused_and_closed (stream <$> innerStreams ij))
                 (innerStreams (getIndexedRelationships i ij)) ∧
          joinedStreams (getIndexedRelationships i ij) = joinedStreams ij ∧
          csb_active (getIndexedRelationships i ij) = csb_active ij) as (Hall1 & Hjs1 & Hcsb1).
  { unfold getIndexedRelationships. destruct (innerStreams ij !! i); [|done].
    by apply relationships_loop_fields. }
  rewrite <- (getIndexedRelationships_streams i ij) in Hall1 |- *.
  destruct (IH (S i) _ Hall1) as (Hall2 & -> & ->). done.
Qed.

(** The state built by the constructor from distinct streams, when [qsort]
    permutes its argument: the hypotheses of the properties of the search. *)
Lemma InnerJoin_new_state active streams :
  NoDup streams →
  (∀ l, qsort compare l ≡ₚ l) →
  let ij := InnerJoin_new active streams in
  stream <$> innerStreams ij ≡ₚ streams ∧
  NoDup (stream <$> innerStreams ij) ∧
  wf_relationships (innerStreams ij) ∧
  length (joinedStreams ij) = length (innerStreams ij) ∧
  Forall (λ si, used si = false) (innerStreams ij) ∧
  inactive_unused ij.
Proof.
  intros Hnd Hsort. unfold InnerJoin_new, calculateStreamInfo.
  set (ij0 := mkInnerJoin _ _ _ _ _ _ _ _).
  assert (stream <$> innerStreams ij0 = streams) as Hs0.
  { simpl. rewrite <- list_fmap_compose. apply list_fmap_id. }
  assert (Forall (unused_and_closed streams) (innerStreams ij0)) as Hall0.
  { simpl. apply Forall_fmap, Forall_forall. intros s _. split; [done|constructor]. }
  destruct (base_costs_fields (length (innerStreams ij0)) 0 ij0 streams Hall0)
    as (Hall1 & Hjs1 & Hcsb1).
  rewrite drop_0, take_ge, Hs0 in Hcsb1 by (rewrite length_fmap; lia).
  pose proof (base_costs_streams (length (innerStreams ij0)) 0 ij0) as Hs1.
  set (ij1 := base_costs _ 0 ij0) in *.
  set (ij2 := holder_activate (stream <$> innerStreams ij0) ij1).
  assert (stream <$> innerStreams ij2 = streams) as Hs2 by (simpl; congruence).
  destruct (collect_relationships_fields (length (innerStreams ij2)) 0 ij2)
    as (Hall3 & Hjs3 & Hcsb3).
  { rewrite Hs2. exact Hall1. }
  pose proof (collect_relationships_streams (length (innerStreams ij2)) 0 ij2) as Hs3.
  set (ij3 := collect_relationships _ 0 ij2) in *.
  rewrite Hs2 in Hall3, Hs3.
  set (ij4 := if negb plan && (1 <? length (innerStreams ij3))
              then set_innerStreams (qsort compare (innerStreams ij3)) ij3 else ij3).
  assert (innerStreams ij4 ≡ₚ innerStreams ij3 ∧ joinedStreams ij4 = joinedStreams ij3 ∧
          csb_active ij4 = csb_active ij3) as (Hperm & Hjs4 & Hcsb4).
  { unfold ij4. destruct (_ && _); [|done]. simpl. split_and!; [apply Hsort|done..]. }
  assert (stream <$> innerStreams ij4 ≡ₚ streams) as Hs4 by (by rewrite Hperm, Hs3).
  simpl. split_and!.
  - done.
  - by rewrite Hs4.
  - apply wf_relationships_check. rewrite Hperm. eapply Forall_impl; [exact Hall3|].
    intros si [_ Hrels]. eapply Forall_impl; [exact Hrels|]. simpl. intros r Hr.
    by rewrite Hs4.
  - rewrite Hjs4, Hjs3. simpl. rewrite Hjs1. simpl.
    rewrite length_replicate, <- (length_fmap stream (innerStreams ij4)), Hs4. done.
  - rewrite Hperm. eapply Forall_impl; [exact Hall3|]. by intros si [? _].
  - intros si Hsi _. simpl in Hsi. simpl. rewrite Hcsb4, Hcsb3. simpl. rewrite Hcsb1.
    simpl in Hs0. rewrite !Hs0.
    assert (stream si ∈ streams) as Hin.
    { rewrite <- Hs4. apply list_elem_of_fmap. eauto. }
    rewrite elem_of_union, elem_of_intersection, !elem_of_difference, elem_of_union.
    rewrite elem_of_list_to_set. tauto.
Qed.

(** * Properties of the other parts of the code *)

(** ** [getStreamInfo] *)

(** X1. [getStreamInfo] returns the first record of [innerStreams] that has
    the stream number asked for, and it fails (the null pointer after the
    assertion) exactly when no record has it. *)
Theorem getStreamInfo_first_match streams s :
  (getStreamInfo streams s = None ↔ s ∉ stream <$> streams) ∧
  ∀ i si, getStreamInfo streams s = Some (i, si) ↔
          streams !! i = Some si ∧ stream si = s ∧
          ∀ j sj, streams !! j = Some sj → j < i → stream sj ≠ s.
Proof.
  unfold getStreamInfo. split.
  - rewrite list_find_None, Forall_forall. split.
    + intros Hall (si & -> & Hsi)%list_elem_of_fmap. by apply (Hall si).
    + intros Hnot si Hsi Heq. apply Hnot. apply list_elem_of_fmap. eauto.
  - intros i si. rewrite list_find_Some. done.
Qed.

(** ** The best order during the search *)


Lemma best_improves_trans ij1 ij2 ij3 :
  best_improves ij1 ij2 → best_improves ij2 ij3 → best_improves ij1 ij3.
Proof.
  unfold best_improves.
  intros [H1|[[E1 H1]|(E1 & C1 & S1)]] [H2|[[E2 H2]|(E2 & C2 & S2)]].
  - left. lia.
  - left. lia.
  - left. lia.
  - left. lia.
  - right. left. split; [congruence|]. eapply Qlt_trans; [exact H2|exact H1].
  - right. left. split; [congruence|]. by rewrite C2.
  - left. lia.
  - right. left. split; [congruence|]. by rewrite <- C1.
  - right. right. split_and!; congruence.
Qed.

Lemma best_improves_leave ij ij' si fl :
  best_improves ij ij' → best_improves ij (leave si fl ij').
Proof. done. Qed.

(** [enter] keeps the best order or replaces it by the order it has just
    formed, which is then at least as long as the order under exploration. *)
Lemma enter_best_improves position idx cost card ij si fl nc ncard ij1 :
  enter position idx cost card ij = Ok (si, fl, nc, ncard, ij1) →
  best_improves ij ij1 ∧ S position ≤ bestCount ij1.
Proof.
  intros (j & ij0 & e & ? & Hj & ? & ? & ? & Hjs & Hc & Hb & ? & ? & ? & ? & ? & ? & ? & ->)%enter_Ok.
  pose proof (save_best_best (S position) nc ij0) as Hbest.
  unfold best_improves. simpl. rewrite Hc, Hb in Hbest.
  destruct (bestCount ij <? S position) eqn:Hlt.
  - destruct Hbest as [Hbc Hbcost]. rewrite Hbc. apply Nat.ltb_lt in Hlt.
    split; [left; lia|lia].
  - apply Nat.ltb_ge in Hlt. rewrite orb_false_l in Hbest.
    destruct ((S position =? bestCount ij) && Qltb nc (bestCost ij)) eqn:Hsave.
    + destruct Hbest as [Hbc Hbcost]. rewrite Hbc, Hbcost.
      apply andb_true_iff in Hsave as [He%Nat.eqb_eq Hq%Qltb_lt].
      split; [|lia]. right. left. done.
    + destruct Hbest as [Hbc Hbcost]. rewrite Hbc, Hbcost.
      split; [|lia]. right. right. split_and!; [done..|].
      unfold save_best. rewrite Hc, Hb.
      replace (bestCount ij <? S position) with false by (symmetry; by apply Nat.ltb_ge).
      rewrite orb_false_l, Hsave. rewrite Hjs, list_fmap_insert. simpl.
      apply list_insert_id. by rewrite list_lookup_fmap, Hj.
Qed.

(** X2. An invocation of [findBestOrder] never makes the best order worse:
    at its return the best order is longer than before, or as long and
    strictly cheaper, or the best streams, their count and their cost are
    those of before; and the best order is at least as long as every order
    formed during the invocation. *)
Theorem findBestOrder_best_improves fuel position idx pl cost card ij pl' ij' :
  findBestOrder fuel position idx pl cost card ij = Ok (pl', ij') →
  best_improves ij ij' ∧
  ∃ new, foundOrders ij' = foundOrders ij ++ new ∧
         Forall (λ e, fo_position e ≤ bestCount ij') new.
Proof.
  intros H.
  eapply (findBestOrder_rule (λ _ _ _ _ _ _, True)
    (λ _ _ ij ij', best_improves ij ij' ∧
       ∃ new, foundOrders ij' = foundOrders ij ++ new ∧
              Forall (λ e, fo_position e ≤ bestCount ij') new));
    [| |done|exact H]; clear.
  - intros * _ Henter _.
    destruct (enter_best_improves _ _ _ _ _ _ _ _ _ _ Henter) as [Himp Hlen].
    destruct (enter_foundOrders _ _ _ _ _ _ _ _ _ _ Henter) as (e & Hf & Hp & _).
    split; [done|]. exists [e]. split; [done|]. constructor; [|done]. simpl. lia.
  - intros * _ Henter _. split; [done|].
    intros ij2 (Himp2 & new & Hf2 & Hnew).
    destruct (enter_best_improves _ _ _ _ _ _ _ _ _ _ Henter) as [Himp Hlen].
    destruct (enter_foundOrders _ _ _ _ _ _ _ _ _ _ Henter) as (e & Hf & Hp & _).
    split; [by eapply best_improves_trans|].
    exists (e :: new). split; [simpl; by rewrite Hf2, Hf, <- app_assoc|].
    constructor; [|done]. simpl. rewrite Hp.
    destruct Himp2 as [?|[[-> _]|[-> _]]]; lia.
Qed.

(** ** The calls made by [findJoinOrder] *)

Lemma try_seeds_runs fuel filters navigations count : ∀ from pl ij pl' ij',
  try_seeds fuel filters navigations count from pl ij = Ok (pl', ij') →
  seed_runs fuel filters navigations ij ij'.
Proof.
  induction count as [|count IH]; simpl; intros from pl ij pl' ij' H.
  { simplify_eq. constructor. }
  apply rbind_Ok in H as (si & Hsi%deref_Ok & H).
  destruct (used si) eqn:Hu; [by eapply IH|].
  destruct (seed_allowed _ _ _) eqn:Hallowed; [|by eapply IH].
  apply rbind_Ok in H as ([pl1 ij1] & Hrun & H).
  econstructor; [done..|].
  destruct plan; [simplify_eq; constructor|by eapply IH].
Qed.

(** The three parts of [findJoinOrder]: the first loop, the invocations of
    [findBestOrder] when it found no independent stream, and the marking of
    the best order. *)
Lemma findJoinOrder_parts ij b order ij' :
  findJoinOrder ij = Ok (b, order, ij') →
  ∃ filters navigations ij1 ij2,
    count_streams (innerStreams ij) 0 0 (set_remainingStreams 0 (set_bestCount 0 ij))
    = Ok (filters, navigations, ij1) ∧
    (if bestCount ij1 =? 0
     then seed_runs (length (innerStreams ij)) filters navigations ij1 ij2
     else ij2 = ij1) ∧
    mark_streams (bestCount ij2) 0 [] ij2 = Ok (order, ij') ∧
    b = negb (length order =? 0).
Proof.
  intros H. unfold findJoinOrder in H.
  apply rbind_Ok in H as ([[f n] ij1] & Hcount & H).
  apply rbind_Ok in H as ([pl2 ij2] & Hloop & H).
  apply rbind_Ok in H as ([order' ij3] & Hmark & H). simplify_eq.
  exists f, n, ij1, ij2. split_and!; [done| |done..].
  destruct (count_streams_fields _ _ _ _ _ _ _ Hcount) as (_ & Hstreams1 & _).
  simpl in Hstreams1, Hloop.
  destruct (bestCount ij1 =? 0); [|by simplify_eq].
  rewrite Hstreams1 in Hloop. by eapply try_seeds_runs.
Qed.

(** ** The calls of [estimateCost] *)

Lemma findBestOrder_estimate_each fuel position idx pl cost card ij pl' ij' :
  findBestOrder fuel position idx pl cost card ij = Ok (pl', ij') →
  ∃ new, foundOrders ij' = foundOrders ij ++ new ∧
         estimates ij' = estimates ij ++ (if plan then [] else estimate_of <$> new).
Proof.
  intros H.
  eapply (findBestOrder_rule (λ _ _ _ _ _ _, True)
    (λ _ _ ij ij', ∃ new, foundOrders ij' = foundOrders ij ++ new ∧
       estimates ij' = estimates ij ++ (if plan then [] else estimate_of <$> new)));
    [| |done|exact H]; clear.
  - intros * _ Henter _.
    destruct (enter_foundOrders _ _ _ _ _ _ _ _ _ _ Henter) as (e & Hf & Hp & _ & Hs).
    pose proof (enter_estimates _ _ _ _ _ _ _ _ _ _ Henter) as He.
    exists [e]. split; [done|]. simpl. rewrite He. destruct plan; [done|].
    simpl. unfold estimate_of. by rewrite Hs, Hp, last_snoc.
  - intros * _ Henter _. split; [done|]. intros ij2 (new & Hf2 & He2).
    destruct (enter_foundOrders _ _ _ _ _ _ _ _ _ _ Henter) as (e & Hf & Hp & _ & Hs).
    pose proof (enter_estimates _ _ _ _ _ _ _ _ _ _ Henter) as He.
    exists (e :: new). split; [simpl; by rewrite Hf2, Hf, <- app_assoc|].
    simpl. rewrite He2, He. destruct plan; [by rewrite !app_nil_r|].
    rewrite <- app_assoc. simpl. unfold estimate_of at 2. by rewrite Hs, Hp, last_snoc.
Qed.

(** X3. During [findJoinOrder], [estimateCost] is called exactly once by each
    invocation of [findBestOrder] without a PLAN (and never with one), for
    the stream that the invocation places, and with [start] set (so with the
    sort clause) exactly for the first stream of an order. *)
Theorem findJoinOrder_estimate_each ij b order ij' :
  findJoinOrder ij = Ok (b, order, ij') →
  ∃ new, foundOrders ij' = foundOrders ij ++ new ∧
         estimates ij' = estimates ij ++ (if plan then [] else estimate_of <$> new).
Proof.
  intros (f & n & ij1 & ij2 & Hcount & Hruns & Hmark & _)%findJoinOrder_parts.
  destruct (count_streams_fields _ _ _ _ _ _ _ Hcount)
    as (_ & _ & _ & Hf1 & He1 & _).
  destruct (mark_streams_fields _ _ _ _ _ _ Hmark) as (_ & _ & _ & _ & _ & _ & _ & Hf3 & He3).
  simpl in Hf1, He1. rewrite Hf3, He3, <- Hf1, <- He1. clear Hf3 He3 Hf1 He1 Hcount Hmark.
  destruct (bestCount ij1 =? 0).
  2:{ subst ij2. exists []. rewrite app_nil_r. by destruct plan; rewrite ?app_nil_r. }
  induction Hruns as [ij0|ij0 from si pl ij3 ij4 _ _ _ Hrun _ IH].
  - exists []. rewrite app_nil_r. by destruct plan; rewrite ?app_nil_r.
  - destruct (findBestOrder_estimate_each _ _ _ _ _ _ _ _ _ Hrun) as (new1 & Hf1 & He1).
    destruct IH as (new2 & Hf2 & He2).
    exists (new1 ++ new2). split; [by rewrite Hf2, Hf1, <- app_assoc|].
    rewrite He2, He1. destruct plan; [by rewrite !app_nil_r|].
    by rewrite fmap_app, <- app_assoc.
Qed.

(** ** The shape of the search: one descent from each seed *)

Lemma findBestOrder_descent fuel position idx pl cost card ij pl' ij' :
  findBestOrder fuel position idx pl cost card ij = Ok (pl', ij') →
  ∃ new, foundOrders ij' = foundOrders ij ++ new ∧ new ≠ [] ∧
         descent position (current_order position ij) new.
Proof.
  intros H.
  eapply (findBestOrder_rule (λ _ _ _ _ _ _, True)
    (λ position _ ij ij', ∃ new, foundOrders ij' = foundOrders ij ++ new ∧ new ≠ [] ∧
       descent position (current_order position ij) new));
    [| |done|exact H]; clear.
  - intros * _ Henter _.
    destruct (enter_foundOrders _ _ _ _ _ _ _ _ _ _ Henter) as (e & Hf & Hp & _ & Hs).
    exists [e]. split_and!; [done..|]. simpl. split_and!; [done| |done].
    exists (stream si). done.
  - intros * _ Henter _. split; [done|]. intros ij2 (new & Hf2 & _ & Hnew).
    destruct (enter_foundOrders _ _ _ _ _ _ _ _ _ _ Henter) as (e & Hf & Hp & _ & Hs).
    destruct (current_order_enter _ _ _ _ _ _ _ _ _ _ Henter) as [Hcur _].
    exists (e :: new). split_and!; [simpl; by rewrite Hf2, Hf, <- app_assoc|done|].
    simpl. split_and!; [done|by exists (stream si)|].
    unfold current_order in *. by rewrite Hs, <- Hcur.
Qed.

(** X4. The search never backtracks: the orders formed during
    [findJoinOrder] are, seed after seed, one descent from each seed tried,
    in which each order is the order before it with one more stream. *)
Theorem findJoinOrder_descents ij b order ij' :
  findJoinOrder ij = Ok (b, order, ij') →
  ∃ runs, foundOrders ij' = foundOrders ij ++ concat runs ∧
          Forall (λ run, run ≠ [] ∧ descent 0 [] run) runs.
Proof.
  intros (f & n & ij1 & ij2 & Hcount & Hruns & Hmark & _)%findJoinOrder_parts.
  destruct (count_streams_fields _ _ _ _ _ _ _ Hcount) as (_ & _ & _ & Hf1 & _).
  destruct (mark_streams_fields _ _ _ _ _ _ Hmark) as (_ & _ & _ & _ & _ & _ & _ & Hf3 & _).
  simpl in Hf1. rewrite Hf3, <- Hf1. clear Hf3 Hf1 Hcount Hmark.
  destruct (bestCount ij1 =? 0).
  2:{ subst ij2. exists []. by rewrite app_nil_r. }
  induction Hruns as [ij0|ij0 from si pl ij3 ij4 _ _ _ Hrun _ IH].
  - exists []. by rewrite app_nil_r.
  - destruct (findBestOrder_descent _ _ _ _ _ _ _ _ _ Hrun) as (new1 & Hf1 & Hne & Hd).
    destruct IH as (runs & Hf2 & Hall).
    exists (new1 :: runs). split; [simpl; by rewrite Hf2, Hf1, <- app_assoc|].
    constructor; [|done]. split; [done|]. unfold current_order in Hd.
    by rewrite take_0 in Hd.
Qed.

(** ** Costs and cardinalities *)

(** The cardinality that [estimateCost] returns is at least the minimum. *)
Lemma estimateCost_cardinality ij s start :
  (MINIMUM_CARDINALITY <= snd (estimateCost ij s start))%Q.
Proof.
  unfold estimateCost, MAX. simpl. destruct (Qltb _ _) eqn:E.
  - apply Qltb_lt in E. by apply Qlt_le_weak.
  - apply Qle_refl.
Qed.

(** The line of the trace written by [enter] without a PLAN. *)
Lemma enter_entry position idx cost card ij si fl nc ncard ij1 :
  plan = false →
  enter position idx cost card ij = Ok (si, fl, nc, ncard, ij1) →
  ∃ e, foundOrders ij1 = foundOrders ij ++ [e] ∧
       fo_positionCost e
       = fst (estimateCost (activate (stream si) ij) (stream si) (position =? 0)) ∧
       fo_positionCardinality e
       = snd (estimateCost (activate (stream si) ij) (stream si) (position =? 0)) ∧
       fo_cost e = nc ∧ fo_cardinality e = ncard ∧
       nc = (cost + card * fo_positionCost e)%Q ∧
       ncard = (fo_positionCardinality e * card)%Q.
Proof.
  intros Hplan H. unfold enter, store_number in H. rewrite Hplan in H.
  apply rbind_Ok in H as (si' & Hsi%deref_Ok & H).
  apply rbind_Ok in H as (ij0 & H0 & H).
  apply rbind_Ok in H0 as (j & Hj%deref_Ok & H0). injection H0 as <-.
  simpl in H. simplify_eq/=. eexists.
  split; [simpl; by rewrite save_best_foundOrders|]. split_and!; reflexivity.
Qed.

(** The rule of [findBestOrder] with all the arguments and the process list
    returned in the postcondition. *)
Lemma findBestOrder_rule_args
    (Pre : nat → nat → IndexedRelationships → Q → Q → InnerJoin → Prop)
    (Post : nat → nat → IndexedRelationships → Q → Q → InnerJoin →
            IndexedRelationships → InnerJoin → Prop) :
  (∀ position idx pl cost card ij si fl nc ncard ij1 pl1,
      Pre position idx pl cost card ij →
      enter position idx cost card ij = Ok (si, fl, nc, ncard, ij1) →
      choose_next position si nc pl ij1 = Ok (pl1, None) →
      Post position idx pl cost card ij pl1 (leave si fl ij1)) →
  (∀ position idx pl cost card ij si fl nc ncard ij1 pl1 next,
      Pre position idx pl cost card ij →
      enter position idx cost card ij = Ok (si, fl, nc, ncard, ij1) →
      choose_next position si nc pl ij1 = Ok (pl1, Some next) →
      Pre (S position) next pl1 nc ncard ij1 ∧
      ∀ pl2 ij2, Post (S position) next pl1 nc ncard ij1 pl2 ij2 →
                 Post position idx pl cost card ij pl2 (leave si fl ij2)) →
  ∀ fuel position idx pl cost card ij pl' ij',
    Pre position idx pl cost card ij →
    findBestOrder fuel position idx pl cost card ij = Ok (pl', ij') →
    Post position idx pl cost card ij pl' ij'.
Proof.
  intros Hstop Hdesc. induction fuel as [|fuel IH]; intros * HPre Hrun; [done|].
  rewrite findBestOrder_S in Hrun.
  apply rbind_Ok in Hrun as ([[[[si fl] nc] ncard] ij1] & Henter & Hrun).
  apply rbind_Ok in Hrun as ([pl1 [next|]] & Hnext & Hrun).
  - apply rbind_Ok in Hrun as ([pl2 ij2] & Hrec & Hrun). simplify_eq.
    destruct (Hdesc _ _ _ _ _ _ _ _ _ _ _ _ _ HPre Henter Hnext) as [HPre' Hback].
    eapply Hback, IH; eauto.
  - simplify_eq. eapply Hstop; eauto.
Qed.

Lemma enter_costs_grow position idx cost card ij si fl nc ncard ij1 :
  plan = false → nonnegative_costs → (1 <= card)%Q →
  enter position idx cost card ij = Ok (si, fl, nc, ncard, ij1) →
  (1 <= ncard)%Q ∧ (cost <= nc)%Q ∧
  ∃ e, foundOrders ij1 = foundOrders ij ++ [e] ∧ fo_cost e = nc ∧
       ∀ rest, costs_grow nc rest → costs_grow cost (e :: rest).
Proof.
  intros Hplan Hcosts Hcard Henter.
  destruct (enter_entry _ _ _ _ _ _ _ _ _ _ Hplan Henter)
    as (e & Hf & Hpc & Hpcard & Hc & Hcd & Hnc & Hncard).
  assert (0 <= fo_positionCost e)%Q as Hpc0 by (rewrite Hpc; apply Hcosts).
  assert (1 <= fo_positionCardinality e)%Q as Hpcard1.
  { rewrite Hpcard. apply estimateCost_cardinality. }
  assert (0 <= card)%Q as Hcard0 by (eapply Qle_trans; [|exact Hcard]; done).
  assert (1 <= ncard)%Q as Hncard1.
  { rewrite Hncard. change 1%Q with (1 * 1)%Q at 1.
    apply Qmult_le_compat_nonneg; split; (done || exact Hpcard1 || exact Hcard). }
  assert (cost <= nc)%Q as Hgrow.
  { rewrite Hnc. rewrite <- (Qplus_0_r cost) at 1. apply Qplus_le_r.
    by apply Qmult_le_0_compat. }
  split_and!; [done..|]. exists e. split_and!; [done..|].
  intros rest Hrest. simpl. rewrite Hc, Hcd. done.
Qed.

Lemma findBestOrder_costs_grow fuel position idx pl cost card ij pl' ij' :
  plan = false → nonnegative_costs → (1 <= card)%Q →
  findBestOrder fuel position idx pl cost card ij = Ok (pl', ij') →
  ∃ new, foundOrders ij' = foundOrders ij ++ new ∧ costs_grow cost new.
Proof.
  intros Hplan Hcosts Hcard H.
  eapply (findBestOrder_rule_args (λ _ _ _ _ card _, (1 <= card)%Q)
    (λ _ _ _ cost _ ij _ ij',
       ∃ new, foundOrders ij' = foundOrders ij ++ new ∧ costs_grow cost new));
    [| |exact Hcard|exact H]; clear -Hplan Hcosts.
  - intros * Hcard Henter _.
    destruct (enter_costs_grow _ _ _ _ _ _ _ _ _ _ Hplan Hcosts Hcard Henter)
      as (_ & _ & e & Hf & _ & Hchain).
    exists [e]. split; [done|]. by apply Hchain.
  - intros * Hcard Henter _.
    destruct (enter_costs_grow _ _ _ _ _ _ _ _ _ _ Hplan Hcosts Hcard Henter)
      as (Hncard & _ & e & Hf & _ & Hchain).
    split; [done|]. intros _ ij2 (new & Hf2 & Hnew).
    exists (e :: new). split; [simpl; by rewrite Hf2, Hf, <- app_assoc|].
    by apply Hchain.
Qed.

(** X5. Without a PLAN and with a probe that reports no negative cost, along
    each descent of [findJoinOrder] the cumulative cost starts at 0 or more
    and never decreases from one order to its extension, and the position
    cardinality and the cumulative cardinality of every order are at least 1. *)
Theorem findJoinOrder_costs_grow ij b order ij' :
  plan = false → nonnegative_costs →
  findJoinOrder ij = Ok (b, order, ij') →
  ∃ runs, foundOrders ij' = foundOrders ij ++ concat runs ∧
          Forall (costs_grow 0) runs.
Proof.
  intros Hplan Hcosts (f & n & ij1 & ij2 & Hcount & Hruns & Hmark & _)%findJoinOrder_parts.
  destruct (count_streams_fields _ _ _ _ _ _ _ Hcount) as (_ & _ & _ & Hf1 & _).
  destruct (mark_streams_fields _ _ _ _ _ _ Hmark) as (_ & _ & _ & _ & _ & _ & _ & Hf3 & _).
  simpl in Hf1. rewrite Hf3, <- Hf1. clear Hf3 Hf1 Hcount Hmark.
  destruct (bestCount ij1 =? 0).
  2:{ subst ij2. exists []. by rewrite app_nil_r. }
  induction Hruns as [ij0|ij0 from si pl ij3 ij4 _ _ _ Hrun _ IH].
  - exists []. by rewrite app_nil_r.
  - destruct (findBestOrder_costs_grow _ _ _ _ _ _ _ _ _ Hplan Hcosts (Qle_refl 1) Hrun)
      as (new1 & Hf1 & Hd).
    destruct IH as (runs & Hf2 & Hall).
    exists (new1 :: runs). split; [simpl; by rewrite Hf2, Hf1, <- app_assoc|].
    by constructor.
Qed.

(** The cost of an order is at least the cost of the order it extends. *)
Lemma order_cost_grows rest : ∀ ij position cost card,
  nonnegative_costs → (0 <= card)%Q →
  (cost <= order_cost ij position cost card rest)%Q.
Proof.
  induction rest as [|s rest IH]; intros ij position cost card Hcosts Hcard; simpl.
  { apply Qle_refl. }
  pose proof (estimateCost_cardinality (activate s ij) s (position =? 0)) as Hpcard.
  simpl in Hpcard.
  eapply Qle_trans; [|apply IH; [done|]].
  - rewrite <- (Qplus_0_r cost) at 1. apply Qplus_le_r.
    apply Qmult_le_0_compat; [done|]. apply Hcosts.
  - apply Qmult_le_0_compat; [|done]. eapply Qle_trans; [|exact Hpcard]. done.
Qed.

(** X6. The cut-off by cost loses nothing when the probe reports no negative
    cost: when the second test of [findBestOrder] sets [done] (a full order
    is known and [bestCost < new_cost]), every extension of the order under
    exploration, whatever streams are appended, costs more than [bestCost]. *)
Theorem cut_off_loses_nothing position idx cost card ij si fl nc ncard ij1 :
  plan = false → nonnegative_costs → (1 <= card)%Q →
  enter position idx cost card ij = Ok (si, fl, nc, ncard, ij1) →
  (bestCount ij1 =? remainingStreams ij1) && Qltb (bestCost ij1) nc = true →
  ∀ rest, (bestCost ij1 < order_cost ij1 (S position) nc ncard rest)%Q.
Proof.
  intros Hplan Hcosts Hcard Henter [_ Hlt%Qltb_lt]%andb_true_iff rest.
  destruct (enter_costs_grow _ _ _ _ _ _ _ _ _ _ Hplan Hcosts Hcard Henter)
    as (Hncard & _).
  eapply Qlt_le_trans; [exact Hlt|]. apply order_cost_grows; [done|].
  eapply Qle_trans; [|exact Hncard]. done.
Qed.

(** ** The process list *)

Lemma ir_add_Permutation r l : ir_add r l ≡ₚ r :: l.
Proof.
  induction l as [|p l IH]; simpl; [done|].
  destruct (ir_cheaperThan p r); [|done]. rewrite IH. apply Permutation_swap.
Qed.

(** The scan of the process list: either the entry of the stream stays
    ([found]), or no entry of the stream is left, the first one having been
    removed because the relationship is cheaper. *)
Lemma scan_processList_cases r t pl found pl' :
  scan_processList r t pl = (found, pl') →
  (found = true ∧ pl' = pl ∧
   ∃ l1 p l2, pl = l1 ++ p :: l2 ∧ ir_stream p = t ∧ (t ∉ ir_stream <$> l1) ∧
              ir_cheaperThan r p = false) ∨
  (found = false ∧ pl' = pl ∧ t ∉ (ir_stream <$> pl)) ∨
  (found = false ∧
   ∃ l1 p l2, pl = l1 ++ p :: l2 ∧ pl' = l1 ++ l2 ∧ ir_stream p = t ∧
              (t ∉ ir_stream <$> l1) ∧ ir_cheaperThan r p = true).
Proof.
  revert found pl'. induction pl as [|p pl IH]; simpl; intros found pl' H.
  { simplify_eq. right. left. split_and!; [done..|]. by intros ?%elem_of_nil. }
  destruct (t =? ir_stream p) eqn:Ht.
  - apply Nat.eqb_eq in Ht. destruct (ir_cheaperThan r p) eqn:Hcheap.
    + injection H as <- <-. right. right. split; [done|].
      exists [], p, pl. split_and!; try done. by intros ?%elem_of_nil.
    + injection H as <- <-. left. split_and!; [done..|].
      exists [], p, pl. split_and!; try done. by intros ?%elem_of_nil.
  - apply Nat.eqb_neq in Ht.
    destruct (scan_processList r t pl) as [found0 rest'] eqn:Hscan.
    injection H as <- <-.
    destruct (IH _ _ eq_refl) as [(-> & -> & l1 & q & l2 & Hpl & Hq & Hl1 & Hc)
                                 |[(-> & -> & Hnot)|(-> & l1 & q & l2 & Hpl & -> & Hq & Hl1 & Hc)]].
    + left. split_and!; [done..|]. exists (p :: l1), q, l2. split_and!; try done.
      * by rewrite Hpl.
      * simpl. rewrite not_elem_of_cons. done.
    + right. left. split_and!; [done..|]. simpl. rewrite not_elem_of_cons. done.
    + right. right. split; [done|]. exists (p :: l1), q, l2. split_and!; try done.
      * by rewrite Hpl.
      * simpl. rewrite not_elem_of_cons. done.
Qed.

(** The list after one relationship to the stream [ir_stream r] has been
    merged into it. *)
Lemma merge_entries r pl found pl' e :
  scan_processList r (ir_stream r) pl = (found, pl') →
  ir_stream e ≠ ir_stream r →
  e ∈ (if found then pl' else ir_add r pl') ↔ e ∈ pl.
Proof.
  intros Hscan Hne.
  destruct (scan_processList_cases _ _ _ _ _ Hscan)
    as [(-> & -> & _)|[(-> & -> & _)|(-> & l1 & p & l2 & -> & -> & Hp & _)]].
  - done.
  - rewrite ir_add_elem_of. split; [|by right]. intros [->|?]; [congruence|done].
  - rewrite ir_add_elem_of, !elem_of_app, elem_of_cons. split.
    + intros [->|[?|?]]; [congruence|by left|by right; right].
    + intros [?|[->|?]]; [by right; left|congruence|by right; right].
Qed.

Lemma elem_of_targets (l : IndexedRelationships) e : e ∈ l → ir_stream e ∈ ir_stream <$> l.
Proof. intros He. apply list_elem_of_fmap. eauto. Qed.

Lemma merge_targets r pl found pl' :
  NoDup (ir_stream <$> pl) →
  scan_processList r (ir_stream r) pl = (found, pl') →
  NoDup (ir_stream <$> (if found then pl' else ir_add r pl')) ∧
  (∀ s, s ∈ ir_stream <$> (if found then pl' else ir_add r pl') ↔
        s = ir_stream r ∨ s ∈ ir_stream <$> pl) ∧
  (∀ e, e ∈ (if found then pl' else ir_add r pl') → ir_stream e = ir_stream r →
        (e = r ∧ ∀ old, old ∈ pl → ir_stream old = ir_stream r → ir_cheaperThan r old = true)
        ∨ (e ∈ pl ∧ ir_cheaperThan r e = false)).
Proof.
  intros Hnd Hscan.
  destruct (scan_processList_cases _ _ _ _ _ Hscan)
    as [(-> & -> & l1 & p & l2 & -> & Hp & Hl1 & Hc)
       |[(-> & -> & Hnot)|(-> & l1 & p & l2 & -> & -> & Hp & Hl1 & Hc)]].
  - pose proof Hnd as Hnd'.
    rewrite fmap_app, fmap_cons in Hnd'. apply NoDup_app in Hnd' as (_ & _ & Hnd2).
    apply NoDup_cons in Hnd2 as [Hl2 _]. rewrite Hp in Hl2. split_and!; [done| |].
    + intros s. split; [by right|]. intros [->|?]; [|done].
      rewrite fmap_app, fmap_cons, elem_of_app, elem_of_cons. right. left. done.
    + intros e He Het. right.
      assert (e = p) as ->; [|split; [apply elem_of_app; right; by left|done]].
      apply elem_of_app in He as [He|He].
      { exfalso. apply Hl1. rewrite <- Het. by apply elem_of_targets. }
      apply elem_of_cons in He as [->|He]; [done|].
      exfalso. apply Hl2. rewrite <- Het. by apply elem_of_targets.
  - split_and!.
    + rewrite ir_add_Permutation, fmap_cons. by apply NoDup_cons.
    + intros s. by rewrite ir_add_Permutation, fmap_cons, elem_of_cons.
    + intros e [->|He]%ir_add_elem_of Het.
      * left. split; [done|]. intros old Hold Heq. exfalso. apply Hnot.
        rewrite <- Heq. by apply elem_of_targets.
      * exfalso. apply Hnot. rewrite <- Het. by apply elem_of_targets.
  - pose proof Hnd as Hnd'.
    rewrite fmap_app, fmap_cons in Hnd'. apply NoDup_app in Hnd' as (Hnd1 & Hdisj & Hnd2).
    apply NoDup_cons in Hnd2 as [Hl2 Hnd2]. rewrite Hp in Hl2.
    assert (ir_stream r ∉ ir_stream <$> (l1 ++ l2)) as Hnot.
    { rewrite fmap_app, elem_of_app. by intros [?|?]. }
    split_and!.
    + rewrite ir_add_Permutation, fmap_cons. apply NoDup_cons. split; [done|].
      rewrite fmap_app. apply NoDup_app. split_and!; [done| |done].
      intros x Hx1 Hx2. apply (Hdisj x Hx1). by right.
    + intros s. rewrite ir_add_Permutation, fmap_cons, elem_of_cons.
      rewrite !fmap_app, fmap_cons, !elem_of_app, elem_of_cons, Hp. tauto.
    + intros e [->|He]%ir_add_elem_of Het.
      * left. split; [done|]. intros old Hold Heq.
        assert (old = p) as ->; [|done].
        apply elem_of_app in Hold as [Hold|Hold].
        { exfalso. apply Hl1. rewrite <- Heq. by apply elem_of_targets. }
        apply elem_of_cons in Hold as [->|Hold]; [done|].
        exfalso. apply Hl2. rewrite <- Heq. by apply elem_of_targets.
      * exfalso. apply Hnot. rewrite <- Het. by apply elem_of_targets.
Qed.

(** X7. Merging the relationships of a stream into a process list with at
    most one entry per stream ("add these relations to the processing list")
    leaves at most one entry per stream, and the streams of the list are then
    those it had together with the streams of the relationships that are not
    used: no stream is lost and no used stream is added. *)
Theorem add_relationships_targets streams rels : ∀ pl pl',
  NoDup (ir_stream <$> pl) →
  add_relationships streams rels pl = Ok pl' →
  NoDup (ir_stream <$> pl') ∧
  ∀ s, s ∈ ir_stream <$> pl' ↔
       s ∈ ir_stream <$> pl ∨
       ∃ r i si, r ∈ rels ∧ ir_stream r = s ∧
                 getStreamInfo streams s = Some (i, si) ∧ used si = false.
Proof.
  induction rels as [|r rels IH]; simpl; intros pl pl' Hnd H.
  { simplify_eq. split; [done|]. intros s. split; [by left|].
    intros [?|(r & ? & ? & []%elem_of_nil & _)]. done. }
  apply rbind_Ok in H as ([i si] & Hg%deref_Ok & H).
  destruct (getStreamInfo_Some _ _ _ _ Hg) as [_ Hs].
  destruct (used si) eqn:Hu.
  - destruct (IH _ _ Hnd H) as [Hnd' Hiff]. split; [done|]. intros s. rewrite Hiff.
    split; intros [?|(r' & i' & si' & Hr' & Hs' & Hg' & Hu')]; [by left| |by left|].
    + right. exists r', i', si'. split_and!; [by right|done..].
    + apply elem_of_cons in Hr' as [->|Hr'].
      * rewrite <- Hs' in Hg'. rewrite Hg in Hg'. congruence.
      * right. exists r', i', si'. done.
  - rewrite Hs in H.
    destruct (scan_processList r (ir_stream r) pl) as [found pl1] eqn:Hscan.
    destruct (merge_targets _ _ _ _ Hnd Hscan) as (Hnd1 & Hiff1 & _).
    destruct (IH _ _ Hnd1 H) as [Hnd' Hiff]. split; [done|]. intros s.
    rewrite Hiff, Hiff1. split.
    + intros [[->|?]|(r' & i' & si' & Hr' & Hs' & Hg' & Hu')].
      * right. exists r, i, si. split_and!; [by left|done..].
      * by left.
      * right. exists r', i', si'. split_and!; [by right|done..].
    + intros [?|(r' & i' & si' & Hr' & Hs' & Hg' & Hu')]; [by left; right|].
      apply elem_of_cons in Hr' as [->|Hr']; [by left; left|].
      right. exists r', i', si'. done.
Qed.

(** The entries to the streams that the relationships do not lead to stay. *)
Lemma add_relationships_others streams rels : ∀ pl pl' e,
  add_relationships streams rels pl = Ok pl' →
  ir_stream e ∉ ir_stream <$> rels →
  e ∈ pl' ↔ e ∈ pl.
Proof.
  induction rels as [|r rels IH]; simpl; intros pl pl' e H Hnot; [by simplify_eq|].
  apply not_elem_of_cons in Hnot as [Hne Hnot].
  apply rbind_Ok in H as ([i si] & Hg%deref_Ok & H).
  destruct (getStreamInfo_Some _ _ _ _ Hg) as [_ Hs].
  destruct (used si); [by apply IH|].
  rewrite Hs in H.
  destruct (scan_processList r (ir_stream r) pl) as [found pl1] eqn:Hscan.
  rewrite (IH _ _ _ H Hnot). by apply merge_entries.
Qed.

(** X8. In the merge the cheaper entry wins: for a relationship of the
    stream to a stream that is not used, the entry of that stream in the
    process list afterwards is the relationship itself when the list had no
    entry for the stream or a costlier one, and the old entry when the
    relationship is not cheaper than it. *)
Theorem add_relationships_keeps_cheaper streams rels : ∀ pl pl' r i si e,
  NoDup (ir_stream <$> pl) → NoDup (ir_stream <$> rels) →
  add_relationships streams rels pl = Ok pl' →
  r ∈ rels → getStreamInfo streams (ir_stream r) = Some (i, si) → used si = false →
  e ∈ pl' → ir_stream e = ir_stream r →
  (e = r ∧ ∀ old, old ∈ pl → ir_stream old = ir_stream r → ir_cheaperThan r old = true)
  ∨ (e ∈ pl ∧ ir_cheaperThan r e = false).
Proof.
  induction rels as [|r0 rels IH]; simpl; intros pl pl' r i si e Hnd Hndr H Hr Hg Hu He Het.
  { by apply elem_of_nil in Hr. }
  apply NoDup_cons in Hndr as [Hr0 Hndr].
  apply rbind_Ok in H as ([i0 si0] & Hg0%deref_Ok & H).
  destruct (getStreamInfo_Some _ _ _ _ Hg0) as [_ Hs0].
  apply elem_of_cons in Hr as [->|Hr].
  - rewrite Hg in Hg0. simplify_eq. rewrite Hu, Hs0 in H.
    destruct (scan_processList r0 (ir_stream r0) pl) as [found pl1] eqn:Hscan.
    destruct (merge_targets _ _ _ _ Hnd Hscan) as (_ & _ & Hentry).
    apply Hentry; [|done]. apply (add_relationships_others _ _ _ _ _ H); [|done].
    by rewrite Het.
  - assert (ir_stream r ≠ ir_stream r0) as Hne.
    { intros Heq. apply Hr0. rewrite <- Heq. by apply elem_of_targets. }
    destruct (used si0).
    { by eapply IH. }
    rewrite Hs0 in H.
    destruct (scan_processList r0 (ir_stream r0) pl) as [found pl1] eqn:Hscan.
    destruct (merge_targets _ _ _ _ Hnd Hscan) as (Hnd1 & _ & _).
    destruct (IH _ _ _ _ _ _ Hnd1 Hndr H Hr Hg Hu He Het) as [[-> Hold]|[Hin Hc]].
    + left. split; [done|]. intros old Hold' Heq. apply Hold; [|done].
      apply (merge_entries _ _ _ _ _ Hscan); [congruence|done].
    + right. split; [|done]. apply (merge_entries _ _ _ _ _ Hscan) in Hin; [done|congruence].
Qed.

Lemma choose_next_targets position si nc pl ij pl1 next :
  NoDup (ir_stream <$> pl) →
  choose_next position si nc pl ij = Ok (pl1, next) →
  NoDup (ir_stream <$> pl1) ∧
  (∀ s, s ∈ ir_stream <$> pl → s ∈ ir_stream <$> pl1) ∧
  (∀ r, r ∈ pl1 → r ∈ pl ∨ r ∈ indexedRelationships si).
Proof.
  intros Hnd H. unfold choose_next in H.
  destruct plan; [simplify_eq; split_and!; [done..|by left]|].
  destruct (is_done _ _ _); [simplify_eq; split_and!; [done..|by left]|].
  apply rbind_Ok in H as (pl2 & Hadd & H).
  apply rbind_Ok in H as (n & _ & H). simplify_eq.
  destruct (add_relationships_targets _ _ _ _ Hnd Hadd) as [Hnd1 Hiff].
  split_and!; [done| |].
  - intros s Hs. apply Hiff. by left.
  - intros r Hr. by eapply add_relationships_elem_of.
Qed.

(** X9. The process list that an invocation of [findBestOrder] leaves to its
    caller: when the list passed has at most one entry per stream, so has
    the list returned; no stream of the list passed is lost; and every new
    entry is an indexed relationship of one of the streams. *)
Theorem findBestOrder_processList fuel position idx pl cost card ij pl' ij' :
  NoDup (ir_stream <$> pl) →
  findBestOrder fuel position idx pl cost card ij = Ok (pl', ij') →
  NoDup (ir_stream <$> pl') ∧
  (∀ s, s ∈ ir_stream <$> pl → s ∈ ir_stream <$> pl') ∧
  (∀ r, r ∈ pl' → r ∈ pl ∨ ∃ a, related (innerStreams ij) a (ir_stream r)).
Proof.
  intros Hnd H.
  eapply (findBestOrder_rule_args (λ _ _ pl _ _ _, NoDup (ir_stream <$> pl))
    (λ _ _ pl _ _ ij pl' _,
       NoDup (ir_stream <$> pl') ∧
       (∀ s, s ∈ ir_stream <$> pl → s ∈ ir_stream <$> pl') ∧
       (∀ r, r ∈ pl' → r ∈ pl ∨ ∃ a, related (innerStreams ij) a (ir_stream r))));
    [| |exact Hnd|exact H]; clear.
  - intros * Hnd Henter Hnext.
    destruct (choose_next_targets _ _ _ _ _ _ _ Hnd Hnext) as (Hnd1 & Hsub & Hfrom).
    destruct (enter_innerStreams _ _ _ _ _ _ _ _ _ _ Henter) as (Hsi & _ & _).
    split_and!; [done..|]. intros r [?|Hr]%Hfrom; [by left|]. right.
    exists (stream si). by eapply related_lookup.
  - intros * Hnd Henter Hnext.
    destruct (choose_next_targets _ _ _ _ _ _ _ Hnd Hnext) as (Hnd1 & Hsub & Hfrom).
    destruct (enter_innerStreams _ _ _ _ _ _ _ _ _ _ Henter) as (Hsi & _ & Hstreams).
    split; [done|]. intros pl2 _ (Hnd2 & Hsub2 & Hfrom2). split_and!; [done| |].
    + intros s Hs. by apply Hsub2, Hsub.
    + intros r [[?|Hr]%Hfrom|[a Ha]]%Hfrom2; [by left| |].
      * right. exists (stream si). by eapply related_lookup.
      * right. exists a. eapply related_static; [|exact Ha].
        rewrite Hstreams. symmetry. apply relationships_alter_used.
Qed.

(** ** The counters of the first loop of [findJoinOrder] *)

Lemma filters_total_snoc pre x :
  filters_total (pre ++ [x]) =
  filters_total pre + (if used x then 0 else currentFilter x).
Proof.
  unfold filters_total, currentFilter. rewrite filter_app, length_app, filter_cons, filter_nil.
  destruct (used x) eqn:Hu, (isFiltered x) eqn:Hf; simpl;
    repeat case_decide; simpl; try lia; naive_solver.
Qed.

Lemma navigated_snoc f pre x :
  length (filter (λ si, used si = false ∧ baseNavigated si = true ∧ currentFilter si = f)
                 (pre ++ [x])) =
  length (filter (λ si, used si = false ∧ baseNavigated si = true ∧ currentFilter si = f) pre)
  + (if used x then 0
     else if baseNavigated x && (currentFilter x =? f) then 1 else 0).
Proof.
  rewrite filter_app, length_app, filter_cons, filter_nil. f_equal.
  destruct (decide (used x = false ∧ baseNavigated x = true ∧ currentFilter x = f))
    as [(Hu & Hn & Hc)|Hnot]; simpl.
  - by rewrite Hu, Hn, Hc, Nat.eqb_refl.
  - destruct (used x) eqn:Hu; [done|].
    destruct (baseNavigated x) eqn:Hn; simpl; [|done].
    destruct (currentFilter x =? f) eqn:Hc; [|done].
    apply Nat.eqb_eq in Hc. by destruct Hnot.
Qed.

Lemma navigated_filtered_none pre :
  filters_total pre = 0 →
  length (filter (λ si, used si = false ∧ baseNavigated si = true ∧ currentFilter si = 1)
                 pre) = 0.
Proof.
  unfold filters_total. induction pre as [|x pre IH]; [done|].
  rewrite !filter_cons. intros H.
  destruct (decide (used x = false ∧ isFiltered x = true)) as [?|Hnot]; [simpl in H; lia|].
  destruct (decide (used x = false ∧ baseNavigated x = true ∧ currentFilter x = 1))
    as [(Hu & _ & Hc)|_]; [|by apply IH].
  exfalso. apply Hnot. split; [done|]. unfold currentFilter in Hc.
  by destruct (isFiltered x).
Qed.

(** One iteration of the first loop on a stream that is not used, on the
    closed forms of the counters. *)
Lemma navigations_total_snoc pre x :
  used x = false →
  navigations_total (pre ++ [x]) =
  (let navigations :=
     if negb (navigations_total pre =? 0) && negb (currentFilter x =? 0)
     then 0 else navigations_total pre in
   if baseNavigated x && (currentFilter x =? filters_total pre + currentFilter x)
   then S navigations else navigations).
Proof.
  intros Hu. unfold navigations_total at 1.
  rewrite filters_total_snoc, navigated_snoc, Hu.
  unfold navigations_total.
  pose proof (navigated_filtered_none pre) as Hnone.
  unfold currentFilter in *.
  destruct (isFiltered x), (baseNavigated x); simpl;
    destruct (filters_total pre) as [|[|f]]; simpl; rewrite ?Nat.add_0_r; simpl;
    rewrite ?Hnone by done; simpl; try lia;
    try (destruct (length _ =? 0) eqn:E; simpl; try apply Nat.eqb_eq in E; lia).
Qed.

Lemma first_pass_closed streams : ∀ pre,
  first_pass streams (filters_total pre) (navigations_total pre) =
  (filters_total (pre ++ streams), navigations_total (pre ++ streams)).
Proof.
  induction streams as [|x l IH]; intros pre; simpl.
  { by rewrite app_nil_r. }
  rewrite (cons_middle x pre l), app_assoc. rewrite <- IH.
  destruct (used x) eqn:Hu.
  - f_equal.
    + rewrite filters_total_snoc, Hu. lia.
    + unfold navigations_total. rewrite filters_total_snoc, navigated_snoc, Hu.
      by rewrite !Nat.add_0_r.
  - rewrite navigations_total_snoc by done. rewrite filters_total_snoc, Hu. done.
Qed.

Lemma navigations_total_pos streams :
  0 < navigations_total streams ↔
  filters_total streams ≤ 1 ∧
  ∃ si, si ∈ streams ∧ used si = false ∧ baseNavigated si = true ∧
        currentFilter si = filters_total streams.
Proof.
  unfold navigations_total.
  destruct (filters_total streams <=? 1) eqn:Hle.
  - apply Nat.leb_le in Hle. split.
    + intros Hpos. split; [done|].
      destruct (filter _ streams) as [|si rest] eqn:Hfilter; [simpl in Hpos; lia|].
      assert (si ∈ filter (λ si, used si = false ∧ baseNavigated si = true ∧
                currentFilter si = filters_total streams) streams) as Hin
        by (rewrite Hfilter; by left).
      apply list_elem_of_filter in Hin as [(? & ? & ?) ?]. by exists si.
    + intros (_ & si & Hsi & Hu & Hn & Hc).
      assert (si ∈ filter (λ si, used si = false ∧ baseNavigated si = true ∧
                currentFilter si = filters_total streams) streams) as Hin
        by (by apply list_elem_of_filter).
      destruct (filter _ streams); [by apply elem_of_nil in Hin|simpl; lia].
  - apply Nat.leb_gt in Hle. split; [lia|]. intros [? _]. lia.
Qed.

Lemma first_pass_totals streams :
  first_pass streams 0 0 = (filters_total streams, navigations_total streams).
Proof. apply (first_pass_closed streams []). Qed.

(** X10. The counters of the first loop of [findJoinOrder] in closed form:
    [filters] ends as the number of filtered streams among those not used,
    and [navigations] ends positive exactly when at most one of them is
    filtered and one of them is navigated with [currentFilter] equal to the
    final [filters]; its value is then the number of such streams. *)
Theorem count_streams_counters streams ij f n ij' :
  count_streams streams 0 0 ij = Ok (f, n, ij') →
  f = filters_total streams ∧ n = navigations_total streams ∧
  (0 < n ↔ f ≤ 1 ∧ ∃ si, si ∈ streams ∧ used si = false ∧ baseNavigated si = true ∧
                         currentFilter si = f).
Proof.
  intros (Hfn & _)%count_streams_fields.
  rewrite first_pass_totals in Hfn. injection Hfn as -> ->.
  split_and!; [done..|]. apply navigations_total_pos.
Qed.

(** ** Progress of [findJoinOrder] *)

(** The seed test never rejects all the streams: a stream that is not used
    passes it whenever there is a stream that is not used. *)
Lemma seed_allowed_some streams si :
  si ∈ streams → used si = false →
  ∃ sj, sj ∈ streams ∧ used sj = false ∧
        seed_allowed (filters_total streams) (navigations_total streams) sj = true.
Proof.
  intros Hsi Hu. unfold seed_allowed.
  destruct (navigations_total streams) as [|n] eqn:Hn.
  { exists si. split_and!; [done..|]. simpl. by rewrite orb_true_r. }
  destruct (proj1 (navigations_total_pos streams)) as (_ & sj & Hsj & Huj & Hnj & Hcj); [lia|].
  exists sj. split_and!; [done..|]. rewrite Hnj. fold (currentFilter sj). rewrite Hcj.
  rewrite Nat.eqb_refl. simpl. by rewrite !orb_true_r.
Qed.

Lemma findBestOrder_bestCount fuel position idx pl cost card ij pl' ij' :
  findBestOrder fuel position idx pl cost card ij = Ok (pl', ij') →
  bestCount ij ≤ bestCount ij' ∧ S position ≤ bestCount ij'.
Proof.
  intros H.
  eapply (findBestOrder_rule (λ _ _ _ _ _ _, True)
    (λ position _ ij ij', bestCount ij ≤ bestCount ij' ∧ S position ≤ bestCount ij'));
    [| |done|exact H]; clear.
  - intros * _ Henter _.
    destruct (enter_best_improves _ _ _ _ _ _ _ _ _ _ Henter) as [Himp Hlen].
    change (bestCount (leave si fl ij1)) with (bestCount ij1).
    destruct Himp as [?|[[? _]|[? _]]]; lia.
  - intros * _ Henter _. split; [done|]. intros ij2 [Hle2 _].
    destruct (enter_best_improves _ _ _ _ _ _ _ _ _ _ Henter) as [Himp Hlen].
    change (bestCount (leave si fl ij2)) with (bestCount ij2).
    destruct Himp as [?|[[? _]|[? _]]]; lia.
Qed.

Lemma seed_runs_bestCount fuel filters navigations ij ij' :
  seed_runs fuel filters navigations ij ij' → bestCount ij ≤ bestCount ij'.
Proof.
  induction 1 as [|ij from si pl ij1 ij2 _ _ _ Hrun _ IH]; [done|].
  destruct (findBestOrder_bestCount _ _ _ _ _ _ _ _ _ Hrun). lia.
Qed.

(** The second loop finds an order when a stream that is not used passes the
    seed test. *)
Lemma try_seeds_progress fuel filters navigations count : ∀ from pl ij pl' ij' i si,
  from ≤ i → innerStreams ij !! i = Some si → used si = false →
  seed_allowed filters navigations si = true →
  from + count = length (innerStreams ij) →
  try_seeds fuel filters navigations count from pl ij = Ok (pl', ij') →
  1 ≤ bestCount ij'.
Proof.
  induction count as [|count IH]; simpl; intros from pl ij pl' ij' i si Hi Hsi Hu Ha Hlen H.
  { apply lookup_lt_Some in Hsi. lia. }
  apply rbind_Ok in H as (sj & Hsj%deref_Ok & H).
  assert (from = i ∨ S from ≤ i) as [->|Hlt] by lia.
  - rewrite Hsi in Hsj. simplify_eq. rewrite Hu, Ha in H.
    apply rbind_Ok in H as ([pl1 ij1] & Hrun & H).
    destruct (findBestOrder_bestCount _ _ _ _ _ _ _ _ _ Hrun) as [_ Hone].
    destruct plan; [by simplify_eq|].
    apply try_seeds_runs, seed_runs_bestCount in H. lia.
  - destruct (used sj) eqn:Huj; [eapply (IH (S from)); [exact Hlt|done..|lia|done]|].
    destruct (seed_allowed filters navigations sj) eqn:Haj;
      [|eapply (IH (S from)); [exact Hlt|done..|lia|done]].
    apply rbind_Ok in H as ([pl1 ij1] & Hrun & H).
    destruct (findBestOrder_bestCount _ _ _ _ _ _ _ _ _ Hrun) as [_ Hone].
    destruct plan; [by simplify_eq|].
    apply try_seeds_runs, seed_runs_bestCount in H. lia.
Qed.

Lemma findJoinOrder_unfold ij b order ij' :
  findJoinOrder ij = Ok (b, order, ij') →
  ∃ ij1 pl2 ij2,
    count_streams (innerStreams ij) 0 0 (set_remainingStreams 0 (set_bestCount 0 ij))
    = Ok (filters_total (innerStreams ij), navigations_total (innerStreams ij), ij1) ∧
    innerStreams ij1 = innerStreams ij ∧
    (if bestCount ij1 =? 0
     then try_seeds (length (innerStreams ij)) (filters_total (innerStreams ij))
            (navigations_total (innerStreams ij)) (length (innerStreams ij)) 0 [] ij1
     else Ok ([], ij1)) = Ok (pl2, ij2) ∧
    mark_streams (bestCount ij2) 0 [] ij2 = Ok (order, ij') ∧
    length order = bestCount ij2 ∧
    b = negb (length order =? 0).
Proof.
  intros H. unfold findJoinOrder in H.
  apply rbind_Ok in H as ([[f n] ij1] & Hcount & H).
  apply rbind_Ok in H as ([pl2 ij2] & Hloop & H).
  apply rbind_Ok in H as ([order' ij3] & Hmark & H). simplify_eq.
  destruct (count_streams_fields _ _ _ _ _ _ _ Hcount) as (Hfn & Hstreams1 & _).
  simpl in Hfn, Hstreams1, Hloop, Hcount.
  rewrite first_pass_totals in Hfn. injection Hfn as -> ->.
  rewrite Hstreams1 in Hloop.
  destruct (mark_streams_fields _ _ _ _ _ _ Hmark) as (_ & Hlen & _).
  exists ij1, pl2, ij2. split_and!; done.
Qed.

(** With a stream that is not used, the order returned is not empty. *)
Lemma findJoinOrder_finds ij b order ij' si :
  findJoinOrder ij = Ok (b, order, ij') →
  si ∈ innerStreams ij → used si = false →
  order ≠ [].
Proof.
  intros Hrun Hsi Hu.
  destruct (findJoinOrder_unfold _ _ _ _ Hrun)
    as (ij1 & pl2 & ij2 & Hcount & Hstreams1 & Hloop & _ & Hlen & _).
  assert (1 ≤ bestCount ij2) as Hone; [|destruct order; simpl in *; [lia|done]].
  destruct (bestCount ij1 =? 0) eqn:Hbest.
  2:{ simplify_eq. apply Nat.eqb_neq in Hbest. lia. }
  destruct (seed_allowed_some _ _ Hsi Hu) as (sj & Hsj & Huj & Haj).
  apply list_elem_of_lookup in Hsj as [i Hi].
  eapply (try_seeds_progress _ _ _ _ 0 [] ij1 pl2 ij2 i sj); try done; try lia.
  - by rewrite Hstreams1.
  - by rewrite Hstreams1.
Qed.

(** X11. [findJoinOrder] makes progress: on a well-formed state it returns
    true, with an order that is not empty, exactly when some stream is not
    yet used; the seed test for first rows never rejects every stream. *)
Theorem findJoinOrder_progress ij :
  NoDup (stream <$> innerStreams ij) →
  wf_relationships (innerStreams ij) →
  length (joinedStreams ij) = length (innerStreams ij) →
  ∃ b order ij',
    findJoinOrder ij = Ok (b, order, ij') ∧
    (b = true ↔ order ≠ []) ∧
    (b = true ↔ ∃ si, si ∈ innerStreams ij ∧ used si = false).
Proof.
  intros Hnd Hwf Hjs.
  destruct (findJoinOrder_good ij Hnd Hwf Hjs)
    as (b & order & ij' & Hrun & Hb & Hgood & _).
  exists b, order, ij'. split; [done|].
  assert (b = true ↔ order ≠ []) as Hne.
  { rewrite Hb. destruct order; simpl; split; (done || congruence). }
  split; [done|]. rewrite Hne. split.
  - intros Ho. destruct order as [|s order]; [done|].
    destruct Hgood as (_ & Hsub & _).
    assert (s ∈ unused_streams (innerStreams ij)) as Hs by (apply Hsub; by left).
    apply unused_streams_elem_of in Hs as (si & ? & ? & _). by exists si.
  - intros (si & Hsi & Hu). by eapply findJoinOrder_finds.
Qed.

(** ** Successive calls of [findJoinOrder] *)

Lemma unused_streams_NoDup streams :
  NoDup (stream <$> streams) → NoDup (unused_streams streams).
Proof.
  intros Hnd. eapply sublist_NoDup; [exact Hnd|]. unfold unused_streams.
  apply fmap_sublist, sublist_filter.
Qed.

Lemma unused_count_0 streams :
  unused_count streams = 0 → Forall (λ si, used si = true) streams.
Proof.
  unfold unused_count. induction streams as [|x l IH]; [constructor|].
  rewrite filter_cons. destruct (decide (used x = false)) as [Hu|Hu]; simpl; [done|].
  intros Hl. constructor; [by destruct (used x)|]. by apply IH.
Qed.

Lemma unused_streams_marked streams (order : list StreamType) s :
  s ∈ unused_streams
        ((λ x, if bool_decide (stream x ∈ order) then set_used true x else x) <$> streams)
  ↔ s ∈ unused_streams streams ∧ s ∉ order.
Proof.
  rewrite !unused_streams_elem_of. split.
  - intros (si' & (si & -> & Hsi)%list_elem_of_fmap & Hu & <-).
    case_bool_decide as Hin; [done|]. split; [by exists si|done].
  - intros [(si & Hsi & Hu & <-) Hnot].
    exists si. split_and!; [|done..]. apply list_elem_of_fmap. exists si.
    split; [|done]. by rewrite bool_decide_eq_false_2.
Qed.

(** The streams that were not used before a call are those of the order
    returned and those still not used after the call. *)
Lemma unused_streams_split streams (order : list StreamType) :
  NoDup (stream <$> streams) → NoDup order → order ⊆ unused_streams streams →
  unused_streams streams ≡ₚ
  order ++ unused_streams
             ((λ x, if bool_decide (stream x ∈ order) then set_used true x else x)
                <$> streams).
Proof.
  intros Hnd Hndo Hsub.
  assert (stream <$> ((λ x, if bool_decide (stream x ∈ order) then set_used true x else x)
                        <$> streams) = stream <$> streams) as Hs.
  { rewrite <- list_fmap_compose. apply list_fmap_ext. intros k x _. simpl.
    by case_bool_decide. }
  apply NoDup_Permutation.
  - by apply unused_streams_NoDup.
  - apply NoDup_app. split_and!; [done| |].
    + intros s Hs1 Hs2%unused_streams_marked. by destruct Hs2.
    + apply unused_streams_NoDup. by rewrite Hs.
  - intros s. rewrite elem_of_app, unused_streams_marked. split.
    + intros Hs'. destruct (decide (s ∈ order)); [by left|by right].
    + intros [?|[? _]]; [by apply Hsub|done].
Qed.

(** X12. Successive calls of [findJoinOrder] use up the streams: from a
    well-formed state, as many calls as there are streams not yet used are
    enough to reach the call that returns false; the orders returned before
    are not empty and hold, together, each stream that was not used exactly
    once; every stream is used at the end. *)
Theorem findJoinOrders_partition calls : ∀ ij,
  NoDup (stream <$> innerStreams ij) →
  wf_relationships (innerStreams ij) →
  length (joinedStreams ij) = length (innerStreams ij) →
  unused_count (innerStreams ij) ≤ calls →
  ∃ orders ij',
    findJoinOrders calls ij = Ok (orders, ij') ∧
    Forall (λ order, order ≠ []) orders ∧
    concat orders ≡ₚ unused_streams (innerStreams ij) ∧
    stream <$> innerStreams ij' = stream <$> innerStreams ij ∧
    Forall (λ si, used si = true) (innerStreams ij').
Proof.
  induction calls as [|calls IH]; intros ij Hnd Hwf Hjs Hle; simpl.
  { exists [], ij. assert (unused_count (innerStreams ij) = 0) as H0 by lia.
    split_and!; [done|constructor| |done|by apply unused_count_0].
    simpl. symmetry. apply Permutation_nil_r, length_zero_iff_nil.
    by rewrite unused_streams_length. }
  destruct (findJoinOrder_good ij Hnd Hwf Hjs)
    as (b & order & ij1 & Hrun & Hb & Hgood & _ & Hstreams1 & _).
  destruct (findJoinOrder_keeps_state _ _ _ _ Hnd Hwf Hjs Hrun) as (Hnd1 & Hwf1 & Hjs1).
  rewrite Hrun. simpl.
  destruct Hgood as (Hndo & Hsub & _).
  pose proof (unused_streams_split _ _ Hnd Hndo Hsub) as Hsplit.
  rewrite <- Hstreams1 in Hsplit.
  assert (stream <$> innerStreams ij1 = stream <$> innerStreams ij) as Hs1.
  { rewrite Hstreams1, <- list_fmap_compose. apply list_fmap_ext. intros k x _. simpl.
    by case_bool_decide. }
  destruct b.
  - assert (order ≠ []) as Hne by (intros ->; done).
    assert (unused_count (innerStreams ij1) ≤ calls) as Hle1.
    { apply Permutation_length in Hsplit.
      rewrite length_app, !unused_streams_length in Hsplit.
      destruct order; [done|]. simpl in Hsplit. lia. }
    destruct (IH ij1 Hnd1 Hwf1 Hjs1 Hle1) as (orders & ij' & Hrest & Hall & Hperm & Hs & Hused).
    rewrite Hrest. simpl. exists (order :: orders), ij'.
    split_and!; [done|by constructor| |congruence|done].
    simpl. by rewrite Hperm, Hsplit.
  - assert (order = []) as -> by (destruct order; [done|simpl in Hb; done]).
    exists [], ij1. split_and!; [done|constructor| |done|].
    + simpl. rewrite Hsplit. simpl. symmetry. apply Permutation_nil_r.
      destruct (unused_streams (innerStreams ij1)) as [|s rest] eqn:Hun; [done|].
      assert (s ∈ unused_streams (innerStreams ij)) as Hs.
      { rewrite Hsplit. simpl. by left. }
      apply unused_streams_elem_of in Hs as (si & Hsi & Hu & _).
      by destruct (findJoinOrder_finds _ _ _ _ _ Hrun Hsi Hu).
    + apply Forall_forall. intros si' Hsi'.
      destruct (used si') eqn:Hu'; [done|]. exfalso.
      assert (stream si' ∈ unused_streams (innerStreams ij1)) as Hin.
      { apply unused_streams_elem_of. by exists si'. }
      assert (stream si' ∈ unused_streams (innerStreams ij)) as Hs.
      { rewrite Hsplit. simpl. done. }
      apply unused_streams_elem_of in Hs as (si & Hsi & Hu & _).
      by destruct (findJoinOrder_finds _ _ _ _ _ Hrun Hsi Hu).
Qed.

(** ** The value of [bestCost] before the first order *)

Lemma with_cost_pos c ij : bestCount ij ≠ 0 → with_cost c ij = ij.
Proof. unfold with_cost. intros H%Nat.eqb_neq. by rewrite H. Qed.

Lemma rbind_rmap {A B C} (f : A → B) (m : result A) (k : B → result C) :
  rbind (rmap f m) k = rbind m (λ x, k (f x)).
Proof. by destruct m. Qed.

Lemma rmap_ext {A B} (f g : A → B) (m : result A) :
  (∀ a, m = Ok a → f a = g a) → rmap f m = rmap g m.
Proof. destruct m; simpl; intros H; [|done..]. by rewrite H. Qed.

Lemma rmap_id {A} (f : A → A) (m : result A) :
  (∀ a, m = Ok a → f a = a) → rmap f m = m.
Proof. destruct m; simpl; intros H; [|done..]. by rewrite H. Qed.

Lemma count_streams_bestCount streams : ∀ f n ij f' n' ij',
  count_streams streams f n ij = Ok (f', n', ij') →
  bestCount ij ≠ 0 → bestCount ij' ≠ 0.
Proof.
  induction streams as [|x l IH]; simpl; intros f n ij f' n' ij' H Hpos; [by simplify_eq|].
  destruct (used x); [by eapply IH|].
  apply rbind_Ok in H as (ij1 & Hseed & H). eapply IH; [exact H|].
  destruct (isIndependent x); [|by simplify_eq].
  destruct (_ || _); [|by simplify_eq].
  apply rbind_Ok in Hseed as (ij2 & _ & Hseed). by simplify_eq.
Qed.

Lemma count_streams_with_cost c streams : ∀ f n ij,
  count_streams streams f n (with_cost c ij) =
  rmap (λ '(f', n', ij'), (f', n', with_cost c ij')) (count_streams streams f n ij).
Proof.
  induction streams as [|x l IH]; intros f n ij; [done|].
  destruct (decide (bestCount ij = 0)) as [Hzero|Hpos].
  2:{ rewrite with_cost_pos by done. symmetry. apply rmap_id.
      intros [[f' n'] ij'] Hrun. rewrite with_cost_pos; [done|].
      by eapply count_streams_bestCount. }
  simpl. destruct (used x); [apply IH|].
  assert (with_cost c ij = set_best 0 c ij) as ->.
  { unfold with_cost. by rewrite Hzero. }
  simpl. rewrite Hzero. simpl.
  destruct (isIndependent x).
  - unfold store_bestStream. simpl.
    destruct (joinedStreams ij !! 0) as [j|]; simpl; [|done].
    symmetry. apply rmap_id. intros [[f' n'] ij'] Hrun. rewrite with_cost_pos; [done|].
    eapply count_streams_bestCount; [exact Hrun|]. done.
  - simpl. rewrite <- IH. f_equal. unfold with_cost. simpl. by rewrite Hzero.
Qed.

Lemma enter_with_cost c position idx cost card ij :
  enter position idx cost card (with_cost c ij) = enter position idx cost card ij.
Proof.
  destruct (decide (bestCount ij = 0)) as [Hzero|Hpos]; [|by rewrite with_cost_pos].
  unfold with_cost. rewrite Hzero. simpl. unfold enter, store_number. simpl.
  destruct (innerStreams ij !! idx) as [si|]; simpl; [|done].
  destruct (joinedStreams ij !! position) as [j|]; simpl; [|done].
  destruct plan; simpl; unfold save_best; simpl; rewrite Hzero; simpl; reflexivity.
Qed.

Lemma findBestOrder_with_cost c fuel position idx pl cost card ij :
  findBestOrder fuel position idx pl cost card (with_cost c ij) =
  findBestOrder fuel position idx pl cost card ij.
Proof.
  destruct fuel as [|fuel]; [done|].
  by rewrite !findBestOrder_S, enter_with_cost.
Qed.

Lemma try_seeds_bestCount fuel filters navigations count from pl ij pl' ij' :
  try_seeds fuel filters navigations count from pl ij = Ok (pl', ij') →
  bestCount ij ≠ 0 → bestCount ij' ≠ 0.
Proof.
  intros H%try_seeds_runs%seed_runs_bestCount. lia.
Qed.

Lemma try_seeds_with_cost c fuel filters navigations count : ∀ from pl ij,
  try_seeds fuel filters navigations count from pl (with_cost c ij) =
  rmap (λ '(pl', ij'), (pl', with_cost c ij'))
       (try_seeds fuel filters navigations count from pl ij).
Proof.
  induction count as [|count IH]; simpl; intros from pl ij; [done|].
  assert (innerStreams (with_cost c ij) = innerStreams ij) as ->.
  { unfold with_cost. by destruct (bestCount ij =? 0). }
  destruct (innerStreams ij !! from) as [si|]; simpl; [|done].
  destruct (used si); [apply IH|].
  destruct (seed_allowed _ _ _); [|apply IH].
  rewrite findBestOrder_with_cost.
  destruct (findBestOrder _ _ _ _ _ _ _) as [[pl1 ij1]| |] eqn:Hrun; simpl; [|done..].
  destruct (findBestOrder_bestCount _ _ _ _ _ _ _ _ _ Hrun) as [_ Hone].
  destruct plan.
  - simpl. rewrite with_cost_pos; [done|lia].
  - symmetry. apply rmap_id. intros [pl2 ij2] Hloop. rewrite with_cost_pos; [done|].
    eapply try_seeds_bestCount; [exact Hloop|lia].
Qed.

(** The result of [findJoinOrder] does not depend on the values that
    [bestCount], [bestCost] and [remainingStreams] have at the call. *)
Lemma findJoinOrder_with_cost n c r ij :
  findJoinOrder (set_remainingStreams r (set_best n c ij)) =
  rmap (λ '(b, order, ij'), (b, order, with_cost c ij')) (findJoinOrder ij).
Proof.
  unfold findJoinOrder.
  change (set_remainingStreams 0 (set_bestCount 0 (set_remainingStreams r (set_best n c ij))))
    with (with_cost c (set_remainingStreams 0 (set_bestCount 0 ij))).
  change (innerStreams (with_cost c (set_remainingStreams 0 (set_bestCount 0 ij))))
    with (innerStreams ij).
  change (innerStreams (set_remainingStreams 0 (set_bestCount 0 ij))) with (innerStreams ij).
  rewrite count_streams_with_cost, rbind_rmap.
  destruct (count_streams _ _ _ _) as [[[f n'] ij1]| |]; simpl; [|done..].
  assert (innerStreams (with_cost c ij1) = innerStreams ij1) as ->.
  { unfold with_cost. by destruct (bestCount ij1 =? 0). }
  destruct (decide (bestCount ij1 = 0)) as [Hzero|Hpos].
  2:{ rewrite with_cost_pos by done. apply Nat.eqb_neq in Hpos as Hpos'. rewrite Hpos'.
      simpl. destruct (mark_streams _ _ _ _) as [[order ij3]| |] eqn:Hmark; simpl; [|done..].
      destruct (mark_streams_fields _ _ _ _ _ _ Hmark) as (_ & _ & _ & _ & Hbc & _).
      rewrite with_cost_pos; [done|congruence]. }
  assert (bestCount (with_cost c ij1) = 0) as Hzero'.
  { unfold with_cost. by rewrite Hzero. }
  rewrite Hzero', Hzero. simpl.
  rewrite try_seeds_with_cost, rbind_rmap.
  destruct (try_seeds _ _ _ _ _ _ _) as [[pl2 ij2]| |]; simpl; [|done..].
  destruct (decide (bestCount ij2 = 0)) as [Hzero2|Hpos2].
  - assert (bestCount (with_cost c ij2) = 0) as ->.
    { unfold with_cost. by rewrite Hzero2. }
    rewrite Hzero2. done.
  - rewrite with_cost_pos by done.
    destruct (mark_streams _ _ _ _) as [[order ij3]| |] eqn:Hmark; simpl; [|done..].
    destruct (mark_streams_fields _ _ _ _ _ _ Hmark) as (_ & _ & _ & _ & Hbc & _).
    rewrite with_cost_pos; [done|congruence].
Qed.

(** X13. [findJoinOrder] reads no value left in [bestCount], [bestCost] or
    [remainingStreams] by an earlier call or by the constructor: called on a
    state that differs in these three members only, it returns the same
    value, the same order and, when it returns an order, the same state;
    when it returns none, the states differ by [bestCost], which was not
    written. *)
Theorem findJoinOrder_ignores_best n c r ij :
  findJoinOrder (set_remainingStreams r (set_best n c ij)) =
  rmap (λ x : bool * list StreamType * InnerJoin,
          let '(found, order, ij') := x in
          (found, order, if found then ij' else set_best 0 c ij'))
       (findJoinOrder ij).
Proof.
  rewrite findJoinOrder_with_cost. apply rmap_ext. intros [[b order] ij'] Hrun.
  destruct (findJoinOrder_unfold _ _ _ _ Hrun)
    as (ij1 & pl2 & ij2 & _ & _ & _ & Hmark & Hlen & Hb).
  destruct (mark_streams_fields _ _ _ _ _ _ Hmark) as (_ & _ & _ & _ & Hbc & _).
  f_equal. unfold with_cost. rewrite Hbc, <- Hlen, Hb.
  by destruct (length order =? 0).
Qed.

(** ** The active streams over [findJoinOrder] *)

Lemma inactive_unused_marked (order : list StreamType) ij ij' :
  innerStreams ij' =
    (λ x, if bool_decide (stream x ∈ order) then set_used true x else x) <$> innerStreams ij →
  csb_active ij' = csb_active ij →
  inactive_unused ij → inactive_unused ij'.
Proof.
  intros Hstreams Hcsb Hin si' Hsi' Hu'. rewrite Hcsb. rewrite Hstreams in Hsi'.
  apply list_elem_of_fmap in Hsi' as (si & -> & Hsi).
  case_bool_decide; [done|]. by apply Hin.
Qed.

(** X14. [findJoinOrder] leaves the active streams of the compiler scratch
    as it found them, when the stream numbers are distinct and no stream
    still to be joined is active; and then no stream still to be joined is
    active after the call either, so the same holds for the next call. *)
Theorem findJoinOrder_csb_active ij b order ij' :
  NoDup (stream <$> innerStreams ij) →
  inactive_unused ij →
  findJoinOrder ij = Ok (b, order, ij') →
  csb_active ij' = csb_active ij ∧ inactive_unused ij'.
Proof.
  intros Hnd Hin Hrun.
  destruct (findJoinOrder_unfold _ _ _ _ Hrun)
    as (ij1 & pl2 & ij2 & Hcount & Hstreams1 & Hloop & Hmark & _).
  destruct (count_streams_fields _ _ _ _ _ _ _ Hcount) as (_ & _ & Hcsb1 & _).
  simpl in Hcsb1.
  assert (innerStreams ij2 = innerStreams ij ∧ csb_active ij2 = csb_active ij)
    as [Hstreams2 Hcsb2].
  { destruct (bestCount ij1 =? 0); [|by simplify_eq].
    apply try_seeds_runs in Hloop. rewrite <- Hstreams1, <- Hcsb1.
    assert (NoDup (stream <$> innerStreams ij1)) as Hnd1 by (by rewrite Hstreams1).
    assert (inactive_unused ij1) as Hin1.
    { intros si Hsi Hu. rewrite Hcsb1. apply Hin; [|done]. by rewrite <- Hstreams1. }
    clear -Hloop Hnd1 Hin1.
    induction Hloop as [ij0|ij0 from si pl ij3 ij4 Hsi Hu _ Hcall _ IH]; [done|].
    destruct (findBestOrder_frame _ _ _ _ _ _ _ _ _ Hcall) as (Hs3 & _ & _).
    pose proof (findBestOrder_csb_active _ _ _ _ _ _ _ _ _ _ Hnd1 Hin1 Hsi Hu Hcall) as Hc3.
    destruct IH as [Hs4 Hc4].
    - by rewrite Hs3.
    - intros sj Hsj Huj. rewrite Hc3. apply Hin1; [|done]. by rewrite <- Hs3.
    - split; congruence. }
  destruct (mark_streams_fields _ _ _ _ _ _ Hmark) as (_ & _ & Hcsb3 & _).
  pose proof (mark_streams_used _ _ _ _ _ _ ltac:(by rewrite Hstreams2) Hmark) as Hstreams3.
  assert (csb_active ij' = csb_active ij) as Hcsb by congruence.
  split; [done|].
  eapply (inactive_unused_marked _ ij ij'); [|done..]. rewrite Hstreams3, Hstreams2. done.
Qed.

(** ** [getIndexedRelationships] *)

Lemma relationships_loop_csb_active count : ∀ base test candidate ij,
  csb_active (relationships_loop count base test candidate ij) = csb_active ij ∧
  joinedStreams (relationships_loop count base test candidate ij) = joinedStreams ij.
Proof.
  induction count as [|count IH]; intros base test candidate ij; simpl; [done|].
  destruct (innerStreams ij !! base); [|done]. destruct (innerStreams ij !! test); [|done].
  destruct (IH (S base) test candidate
              (if negb (stream s =? stream s0)
                  && bool_decide (stream s ∈ ic_dependentFromStreams candidate)
               then set_innerStreams
                      (alter incr_previousExpectedStreams test
                         (alter (add_indexedRelationship
                                   (mkIndexRelationship (stream s0) (ic_unique candidate)
                                      (ic_cost candidate)
                                      (if ic_unique candidate then csb_cardinality (stream s0)
                                       else (csb_cardinality (stream s0)
                                             * ic_selectivity candidate)%Q))) base
                            (innerStreams ij))) ij
               else ij)) as [-> ->].
  by destruct (_ && _).
Qed.

(** One iteration of the loop of [getIndexedRelationships] over the base
    streams. *)
Lemma relationships_loop_S count base test candidate ij baseStream testStream :
  innerStreams ij !! base = Some baseStream →
  innerStreams ij !! test = Some testStream →
  relationships_loop (S count) base test candidate ij =
  relationships_loop count (S base) test candidate
    (if can_use candidate (stream testStream) (stream baseStream)
     then set_innerStreams
            (alter incr_previousExpectedStreams test
               (alter (add_indexedRelationship
                         (indexRelationship_of candidate (stream testStream)))
                      base (innerStreams ij))) ij
     else ij).
Proof. intros Hb Ht. simpl. by rewrite Hb, Ht. Qed.

Lemma relationships_step_lookup candidate base test ij baseStream testStream j sj0 :
  innerStreams ij !! base = Some baseStream →
  innerStreams ij !! test = Some testStream →
  innerStreams ij !! j = Some sj0 →
  ∃ sj,
    innerStreams
      (if can_use candidate (stream testStream) (stream baseStream)
       then set_innerStreams
              (alter incr_previousExpectedStreams test
                 (alter (add_indexedRelationship
                           (indexRelationship_of candidate (stream testStream)))
                        base (innerStreams ij))) ij
       else ij) !! j = Some sj ∧
    base_info sj = base_info sj0 ∧ used sj = used sj0 ∧
    indexedRelationships sj ≡ₚ
      (if bool_decide (j = base) && can_use candidate (stream testStream) (stream sj0)
       then [indexRelationship_of candidate (stream testStream)] else [])
      ++ indexedRelationships sj0 ∧
    previousExpectedStreams sj = previousExpectedStreams sj0 +
      (if bool_decide (j = test) && can_use candidate (stream testStream) (stream baseStream)
       then 1 else 0).
Proof.
  intros Hb Ht Hj.
  destruct (can_use candidate (stream testStream) (stream baseStream)) eqn:Hcan.
  2:{ exists sj0. rewrite andb_false_r. split_and!; [done..| |lia].
      case_bool_decide as Hjb; simpl; [|done]. subst j.
      assert (sj0 = baseStream) as -> by congruence. by rewrite Hcan. }
  assert (base ≠ test) as Hne.
  { intros ->. assert (baseStream = testStream) as -> by congruence.
    unfold can_use in Hcan. by rewrite Nat.eqb_refl in Hcan. }
  simpl. rewrite !list_lookup_alter. rewrite andb_true_r.
  destruct (decide (test = j)) as [->|Htj].
  - rewrite decide_False by done. rewrite Hj. simpl. eexists. split; [done|].
    rewrite bool_decide_eq_false_2 by done. rewrite bool_decide_eq_true_2 by done.
    simpl. split_and!; [done..|lia].
  - destruct (decide (base = j)) as [->|Hbj].
    + rewrite Hj. simpl. eexists. split; [done|].
      assert (sj0 = baseStream) as -> by congruence.
      rewrite bool_decide_eq_true_2 by done. rewrite Hcan. simpl.
      rewrite bool_decide_eq_false_2 by done.
      split_and!; [done..|apply ir_add_Permutation|lia].
    + rewrite Hj. simpl. exists sj0. split; [done|].
      rewrite !bool_decide_eq_false_2 by done. simpl. split_and!; [done..|lia].
Qed.

(** The loop of [getIndexedRelationships] over the base streams [base],
    [base + 1], ... for the stream [t] at index [test]: the relationship is
    added to each base stream that passes the test, the test stream counts
    them, and nothing else changes. *)
Lemma relationships_loop_lookup candidate t count : ∀ base test ij,
  (∃ ts, innerStreams ij !! test = Some ts ∧ stream ts = t) →
  ∀ j sj0, innerStreams ij !! j = Some sj0 →
  ∃ sj,
    innerStreams (relationships_loop count base test candidate ij) !! j = Some sj ∧
    base_info sj = base_info sj0 ∧ used sj = used sj0 ∧
    indexedRelationships sj ≡ₚ
      (if bool_decide (base ≤ j < base + count) && can_use candidate t (stream sj0)
       then [indexRelationship_of candidate t] else [])
      ++ indexedRelationships sj0 ∧
    previousExpectedStreams sj = previousExpectedStreams sj0 +
      (if bool_decide (j = test)
       then length (filter (λ b, can_use candidate t b = true)
                           (take count (drop base (stream <$> innerStreams ij))))
       else 0).
Proof.
  induction count as [|count IH]; intros base test ij (ts & Hts & Ht) j sj0 Hj.
  { exists sj0. simpl. rewrite bool_decide_eq_false_2 by lia. simpl.
    split_and!; [done..|]. destruct (bool_decide _); simpl; lia. }
  destruct (innerStreams ij !! base) as [bs|] eqn:Hbs.
  2:{ simpl. rewrite Hbs. exists sj0.
      apply lookup_ge_None in Hbs. apply lookup_lt_Some in Hj as Hlt.
      rewrite bool_decide_eq_false_2 by lia. simpl. split_and!; [done..|].
      rewrite drop_ge by (rewrite length_fmap; lia). rewrite take_nil. simpl.
      destruct (bool_decide _); lia. }
  rewrite (relationships_loop_S _ _ _ _ _ _ _ Hbs Hts).
  destruct (relationships_step_lookup candidate _ _ _ _ _ _ _ Hbs Hts Hj)
    as (sj1 & Hj1 & Hinfo1 & Hused1 & Hrels1 & Hprev1).
  destruct (relationships_step_lookup candidate _ _ _ _ _ _ _ Hbs Hts Hts)
    as (ts1 & Hts1 & Hinfots & _).
  rewrite Ht in *.
  set (ij1 := if can_use candidate t (stream bs) then _ else ij) in *.
  assert (stream <$> innerStreams ij1 = stream <$> innerStreams ij) as Hids.
  { unfold ij1. destruct (can_use _ _ _); [|done]. simpl. by rewrite !stream_alter. }
  destruct (IH (S base) test ij1) with (j := j) (sj0 := sj1)
    as (sj & Hsj & Hinfo & Hused & Hrels & Hprev).
  { exists ts1. split; [done|]. unfold base_info in Hinfots. by simplify_eq. }
  { done. }
  exists sj. split; [done|].
  assert (stream sj1 = stream sj0) as Hs1 by (unfold base_info in Hinfo1; by simplify_eq).
  split_and!; [congruence..| |].
  - rewrite Hrels, Hrels1, Hs1.
    destruct (decide (j = base)) as [->|Hne].
    + rewrite (bool_decide_eq_false_2 (S base ≤ base < _)) by lia.
      rewrite (bool_decide_eq_true_2 (base = base)) by done.
      rewrite (bool_decide_eq_true_2 (base ≤ base < _)) by lia. done.
    + rewrite (bool_decide_eq_false_2 (j = base)) by done. simpl.
      destruct (decide (S base ≤ j < S base + count)).
      * rewrite bool_decide_eq_true_2 by done.
        rewrite (bool_decide_eq_true_2 (base ≤ j < _)) by lia. done.
      * rewrite bool_decide_eq_false_2 by done.
        rewrite (bool_decide_eq_false_2 (base ≤ j < _)) by lia. done.
  - rewrite Hprev, Hprev1, Hids.
    rewrite (drop_S _ (stream bs) base) by (by rewrite list_lookup_fmap, Hbs).
    simpl. rewrite filter_cons.
    destruct (bool_decide (j = test)); simpl; [|lia].
    destruct (can_use candidate t (stream bs)) eqn:Hcan.
    + rewrite decide_True by done. simpl. lia.
    + rewrite decide_False by done. lia.
Qed.

Lemma getIndexedRelationships_lookup test ij testStream j sj0 :
  innerStreams ij !! test = Some testStream →
  innerStreams ij !! j = Some sj0 →
  let candidate := getInversion (csb_active ij) (stream testStream) None in
  ∃ sj,
    innerStreams (getIndexedRelationships test ij) !! j = Some sj ∧
    base_info sj = base_info sj0 ∧ used sj = used sj0 ∧
    indexedRelationships sj ≡ₚ
      (if can_use candidate (stream testStream) (stream sj0)
       then [indexRelationship_of candidate (stream testStream)] else [])
      ++ indexedRelationships sj0 ∧
    previousExpectedStreams sj = previousExpectedStreams sj0 +
      (if bool_decide (j = test)
       then length (filter (λ b, can_use candidate (stream testStream) b = true)
                           (stream <$> innerStreams ij))
       else 0).
Proof.
  intros Hts Hj candidate. unfold getIndexedRelationships. rewrite Hts. fold candidate.
  destruct (relationships_loop_lookup candidate (stream testStream)
              (length (innerStreams ij)) 0 test ij) with (j := j) (sj0 := sj0)
    as (sj & Hsj & Hinfo & Hused & Hrels & Hprev); [by eauto|done|].
  exists sj. split_and!; [done..| |].
  - rewrite Hrels. apply lookup_lt_Some in Hj.
    by rewrite bool_decide_eq_true_2 by lia.
  - rewrite Hprev, drop_0, take_ge by (rewrite length_fmap; lia). done.
Qed.

(** X15. [getIndexedRelationships] for a stream adds one relationship, built
    from the probe of that stream, to every other stream of the list on which
    the probed access depends, and adds their number to
    [previousExpectedStreams] of the stream; it never gives a stream a
    relationship to itself and changes nothing else: no other field of a
    record, not the order of the list, the slots or the active streams. *)
Theorem getIndexedRelationships_adds test ij testStream :
  innerStreams ij !! test = Some testStream →
  let candidate := getInversion (csb_active ij) (stream testStream) None in
  let ij' := getIndexedRelationships test ij in
  csb_active ij' = csb_active ij ∧ joinedStreams ij' = joinedStreams ij ∧
  length (innerStreams ij') = length (innerStreams ij) ∧
  ∀ j sj0, innerStreams ij !! j = Some sj0 →
    ∃ sj, innerStreams ij' !! j = Some sj ∧
      base_info sj = base_info sj0 ∧ used sj = used sj0 ∧
      indexedRelationships sj ≡ₚ
        (if negb (stream sj0 =? stream testStream)
            && bool_decide (stream sj0 ∈ ic_dependentFromStreams candidate)
         then [indexRelationship_of candidate (stream testStream)] else [])
        ++ indexedRelationships sj0 ∧
      previousExpectedStreams sj = previousExpectedStreams sj0 +
        (if bool_decide (j = test)
         then length (filter (λ b, b ≠ stream testStream ∧
                                   b ∈ ic_dependentFromStreams candidate)
                             (stream <$> innerStreams ij))
         else 0).
Proof.
  intros Hts candidate ij'. unfold ij', getIndexedRelationships. rewrite Hts. fold candidate.
  destruct (relationships_loop_csb_active (length (innerStreams ij)) 0 test candidate ij)
    as [Hcsb Hjs].
  split_and!; [done..| |].
  - rewrite <- !(length_fmap stream). by rewrite relationships_loop_streams.
  - intros j sj0 Hj.
    destruct (getIndexedRelationships_lookup _ _ _ _ _ Hts Hj)
      as (sj & Hsj & Hinfo & Hused & Hrels & Hprev).
    unfold getIndexedRelationships in Hsj. rewrite Hts in Hsj.
    exists sj. split_and!; [done..|].
    rewrite Hprev. destruct (bool_decide (j = test)); [|done]. f_equal. f_equal.
    apply list_filter_iff. intros b. unfold can_use. fold candidate.
    rewrite andb_true_iff, negb_true_iff, Nat.eqb_neq, bool_decide_eq_true. done.
Qed.

(** ** The constructor *)

Lemma getIndexedRelationships_frame test ij :
  csb_active (getIndexedRelationships test ij) = csb_active ij ∧
  joinedStreams (getIndexedRelationships test ij) = joinedStreams ij.
Proof.
  unfold getIndexedRelationships. destruct (innerStreams ij !! test); [|done].
  apply relationships_loop_csb_active.
Qed.

(** "Collect stream inter-dependencies": after the streams [i], [i + 1], ...
    have been tested, each record holds the relationships to those of them
    that can use it, and each tested stream counts the streams it can use. *)
Lemma collect_relationships_lookup count : ∀ i ij j sj0,
  innerStreams ij !! j = Some sj0 →
  ∃ sj,
    innerStreams (collect_relationships count i ij) !! j = Some sj ∧
    base_info sj = base_info sj0 ∧ used sj = used sj0 ∧
    indexedRelationships sj ≡ₚ
      ((λ t, indexRelationship_of (getInversion (csb_active ij) t None) t) <$>
         filter (λ t, can_use (getInversion (csb_active ij) t None) t (stream sj0) = true)
                (take count (drop i (stream <$> innerStreams ij))))
      ++ indexedRelationships sj0 ∧
    previousExpectedStreams sj = previousExpectedStreams sj0 +
      (if bool_decide (i ≤ j < i + count)
       then length (filter (λ b, can_use (getInversion (csb_active ij) (stream sj0) None)
                                         (stream sj0) b = true)
                           (stream <$> innerStreams ij))
       else 0).
Proof.
  induction count as [|count IH]; intros i ij j sj0 Hj.
  { exists sj0. simpl. rewrite bool_decide_eq_false_2 by lia.
    split_and!; [done..|lia]. }
  simpl.
  destruct (innerStreams ij !! i) as [ts|] eqn:Hts.
  2:{ assert (getIndexedRelationships i ij = ij) as ->.
      { unfold getIndexedRelationships. by rewrite Hts. }
      destruct (IH (S i) ij j sj0 Hj) as (sj & Hsj & Hinfo & Hused & Hrels & Hprev).
      apply lookup_ge_None in Hts. apply lookup_lt_Some in Hj as Hlt.
      exists sj. split_and!; [done..| |].
      - rewrite Hrels. rewrite !drop_ge by (rewrite length_fmap; lia).
        by rewrite !take_nil.
      - rewrite Hprev. rewrite !bool_decide_eq_false_2 by lia. done. }
  destruct (getIndexedRelationships_lookup _ _ _ _ _ Hts Hj)
    as (sj1 & Hsj1 & Hinfo1 & Hused1 & Hrels1 & Hprev1).
  destruct (getIndexedRelationships_frame i ij) as [Hcsb1 _].
  pose proof (getIndexedRelationships_streams i ij) as Hids1.
  destruct (IH (S i) (getIndexedRelationships i ij) j sj1 Hsj1)
    as (sj & Hsj & Hinfo & Hused & Hrels & Hprev).
  rewrite Hcsb1, Hids1 in Hrels, Hprev.
  assert (stream sj1 = stream sj0) as Hs1 by (unfold base_info in Hinfo1; by simplify_eq).
  rewrite Hs1 in Hrels, Hprev.
  exists sj. split_and!; [done|congruence..| |].
  - rewrite Hrels, Hrels1.
    rewrite (drop_S _ (stream ts) i) by (by rewrite list_lookup_fmap, Hts).
    simpl. rewrite filter_cons.
    destruct (can_use (getInversion (csb_active ij) (stream ts) None) (stream ts)
                (stream sj0)) eqn:Hcan.
    + rewrite decide_True by done. simpl. symmetry. apply Permutation_middle.
    + rewrite decide_False by done. done.
  - rewrite Hprev, Hprev1.
    destruct (decide (j = i)) as [->|Hne].
    + assert (sj0 = ts) as -> by congruence.
      rewrite (bool_decide_eq_true_2 (i = i)) by done.
      rewrite (bool_decide_eq_false_2 (S i ≤ i < _)) by lia.
      rewrite (bool_decide_eq_true_2 (i ≤ i < _)) by lia. lia.
    + rewrite (bool_decide_eq_false_2 (j = i)) by done.
      destruct (decide (S i ≤ j < S i + count)).
      * rewrite bool_decide_eq_true_2 by done.
        rewrite (bool_decide_eq_true_2 (i ≤ j < _)) by lia. lia.
      * rewrite bool_decide_eq_false_2 by done.
        rewrite (bool_decide_eq_false_2 (i ≤ j < _)) by lia. lia.
Qed.

(** The first loop of [calculateStreamInfo]: the record of each stream gets
    the result of the probe made with the stream active, the streams before
    it in the list inactive, and the others as they were. *)
Lemma base_costs_lookup count : ∀ i ij j sj0,
  innerStreams ij !! j = Some sj0 →
  innerStreams (base_costs count i ij) !! j =
  Some (if bool_decide (i ≤ j < i + count)
        then set_base
               (getInversion
                  ({[stream sj0]} ∪
                   (csb_active ij ∖
                    list_to_set (take (j - i) (drop i (stream <$> innerStreams ij)))))
                  (stream sj0) sort) sj0
        else sj0).
Proof.
  induction count as [|count IH]; intros i ij j sj0 Hj.
  { simpl. by rewrite bool_decide_eq_false_2 by lia. }
  simpl. destruct (innerStreams ij !! i) as [si|] eqn:Hsi.
  2:{ apply lookup_ge_None in Hsi. apply lookup_lt_Some in Hj as Hlt.
      by rewrite bool_decide_eq_false_2 by lia. }
  set (ij1 := deactivate (stream si) _).
  assert (stream <$> innerStreams ij1 = stream <$> innerStreams ij) as Hids.
  { unfold ij1. simpl. by apply stream_alter. }
  assert (csb_active ij1 = ({[stream si]} ∪ csb_active ij) ∖ {[stream si]}) as Hcsb by done.
  destruct (decide (j = i)) as [->|Hne].
  - assert (sj0 = si) as -> by congruence.
    rewrite (IH (S i) ij1 i (set_base (getInversion ({[stream si]} ∪ csb_active ij)
                                        (stream si) sort) si)).
    2:{ unfold ij1. simpl. by rewrite list_lookup_alter_eq, Hsi. }
    rewrite bool_decide_eq_false_2 by lia. rewrite bool_decide_eq_true_2 by lia.
    rewrite Nat.sub_diag, take_0. simpl.
    assert (csb_active ij ∖ ∅ = csb_active ij) as ->; [|done].
    apply set_eq. intros x. rewrite elem_of_difference, elem_of_empty. tauto.
  - rewrite (IH (S i) ij1 j sj0).
    2:{ unfold ij1. simpl. by rewrite list_lookup_alter_ne. }
    destruct (decide (S i ≤ j < S i + count)) as [Hin|Hout].
    + rewrite bool_decide_eq_true_2 by done. rewrite bool_decide_eq_true_2 by lia.
      f_equal. f_equal. f_equal. f_equal. rewrite Hids, Hcsb.
      replace (j - i) with (S (j - S i)) by lia.
      rewrite (drop_S _ (stream si) i) by (by rewrite list_lookup_fmap, Hsi).
      simpl. apply set_eq. intros x.
      rewrite !elem_of_difference, !elem_of_union, elem_of_singleton. tauto.
    + rewrite bool_decide_eq_false_2 by done. by rewrite bool_decide_eq_false_2 by lia.
Qed.

(** The records built by the constructor, when [qsort] permutes its
    argument: each belongs to a stream of the list given; its base fields
    come from the probe of the first loop, its relationships and the count
    of expected streams from the probes made with all the streams active. *)
Lemma InnerJoin_new_records active streams si :
  (∀ l, qsort compare l ≡ₚ l) →
  si ∈ innerStreams (InnerJoin_new active streams) →
  ∃ i,
    streams !! i = Some (stream si) ∧
    base_info si =
      base_info
        (set_base (getInversion ({[stream si]} ∪ (active ∖ list_to_set (take i streams)))
                     (stream si) sort)
           (new_StreamInfo (stream si))) ∧
    used si = false ∧
    indexedRelationships si ≡ₚ
      (λ t, indexRelationship_of (getInversion (list_to_set streams ∪ active) t None) t) <$>
        filter (λ t, can_use (getInversion (list_to_set streams ∪ active) t None) t
                       (stream si) = true) streams ∧
    previousExpectedStreams si =
      length (filter (λ b, can_use (getInversion (list_to_set streams ∪ active)
                                      (stream si) None) (stream si) b = true) streams).
Proof.
  intros Hsort. unfold InnerJoin_new, calculateStreamInfo.
  set (ij0 := mkInnerJoin _ _ _ _ _ _ _ _).
  assert (stream <$> innerStreams ij0 = streams) as Hs0.
  { simpl. rewrite <- list_fmap_compose. apply list_fmap_id. }
  assert (length (innerStreams ij0) = length streams) as Hlen0.
  { simpl. by rewrite length_fmap. }
  assert (Forall (unused_and_closed streams) (innerStreams ij0)) as Hall0.
  { simpl. apply Forall_fmap, Forall_forall. intros s _. split; [done|constructor]. }
  destruct (base_costs_fields (length (innerStreams ij0)) 0 ij0 streams Hall0)
    as (_ & _ & Hcsb1).
  rewrite drop_0, take_ge, Hs0 in Hcsb1 by (rewrite length_fmap; lia).
  pose proof (base_costs_streams (length (innerStreams ij0)) 0 ij0) as Hs1.
  set (ij1 := base_costs _ 0 ij0) in *.
  set (ij2 := holder_activate (stream <$> innerStreams ij0) ij1).
  assert (stream <$> innerStreams ij2 = streams) as Hs2 by (simpl; congruence).
  assert (csb_active ij2 = list_to_set streams ∪ active) as Hcsb2.
  { simpl. rewrite Hcsb1. simpl in Hs0. rewrite Hs0. simpl. apply set_eq. intros x.
    rewrite !elem_of_union, elem_of_difference.
    destruct (decide (x ∈ (list_to_set streams : gset StreamType))); tauto. }
  assert (length (innerStreams ij2) = length streams) as Hlen2.
  { by rewrite <- (length_fmap stream), Hs2. }
  set (ij3 := collect_relationships _ 0 ij2).
  set (ij4 := if negb plan && (1 <? length (innerStreams ij3))
              then set_innerStreams (qsort compare (innerStreams ij3)) ij3 else ij3).
  assert (innerStreams ij4 ≡ₚ innerStreams ij3) as Hperm.
  { unfold ij4. destruct (_ && _); [|done]. simpl. apply Hsort. }
  change (innerStreams (holder_restore (csb_active ij1) (stream <$> innerStreams ij0) ij4))
    with (innerStreams ij4).
  rewrite Hperm. intros [j Hj]%list_elem_of_lookup.
  assert (j < length streams) as Hlt.
  { apply lookup_lt_Some in Hj. unfold ij3 in Hj.
    rewrite <- (length_fmap stream), collect_relationships_streams, Hs2 in Hj. done. }
  destruct (lookup_lt_is_Some_2 streams j Hlt) as [s Hs].
  assert (innerStreams ij0 !! j = Some (new_StreamInfo s)) as Hj0.
  { simpl. by rewrite list_lookup_fmap, Hs. }
  pose proof (base_costs_lookup (length (innerStreams ij0)) 0 ij0 j _ Hj0) as Hj1.
  rewrite bool_decide_eq_true_2 in Hj1 by lia.
  rewrite Nat.sub_0_r, drop_0, Hs0 in Hj1. simpl in Hj1.
  destruct (collect_relationships_lookup (length (innerStreams ij2)) 0 ij2 j _ Hj1)
    as (sj & Hsj & Hinfo & Hused & Hrels & Hprev).
  fold ij3 in Hsj. assert (sj = si) as -> by congruence.
  rewrite Hcsb2, Hs2, drop_0, Hlen2, (take_ge streams (length streams)) in Hrels by done.
  rewrite Hcsb2, Hs2, Hlen2, bool_decide_eq_true_2 in Hprev by lia.
  simpl in Hrels, Hprev, Hused. rewrite app_nil_r in Hrels.
  assert (stream si = s) as Hstream by (unfold base_info in Hinfo; by simplify_eq/=).
  subst s. exists j. split_and!; done.
Qed.

(** X16. The base information that the constructor gives each stream is
    the result of the probe made in [calculateStreamInfo] for that stream
    with the sort clause, the stream itself active and the streams before it
    in the list already deactivated; a record is not used when built. With
    no stream of the list active before the construction, each stream is
    probed with itself as the only one of them that is active. *)
Theorem InnerJoin_new_base active streams si :
  (∀ l, qsort compare l ≡ₚ l) →
  si ∈ innerStreams (InnerJoin_new active streams) →
  used si = false ∧
  ∃ i, streams !! i = Some (stream si) ∧
       let candidate :=
         getInversion ({[stream si]} ∪ (active ∖ list_to_set (take i streams)))
                      (stream si) sort in
       baseCost si = ic_cost candidate ∧
       baseSelectivity si = ic_selectivity candidate ∧
       baseIndexes si = ic_indexes candidate ∧
       baseUnique si = ic_unique candidate ∧
       baseNavigated si = ic_navigated candidate ∧
       ((∀ s, s ∈ streams → s ∉ active) →
        candidate = getInversion ({[stream si]} ∪ active) (stream si) sort).
Proof.
  intros Hsort Hsi.
  destruct (InnerJoin_new_records _ _ _ Hsort Hsi) as (i & Hi & Hinfo & Hused & _).
  split; [done|]. exists i. split; [done|]. unfold base_info in Hinfo. simpl in Hinfo.
  simplify_eq. split_and!; [done..|].
  intros Hnone. f_equal. f_equal. apply set_eq. intros x.
  rewrite elem_of_difference, elem_of_list_to_set. split; [by intros [? _]|].
  intros Hx. split; [done|]. intros Hin%elem_of_take. destruct Hin as (k & Hk & _).
  apply (Hnone x); [|done]. by eapply list_elem_of_lookup_2.
Qed.

(** X17. The dependency graph that the constructor builds: a stream holds a
    relationship to exactly the other streams of the list whose probe, made
    without sort clause and with all the streams of the list active, depends
    on it, one relationship for each, with the cost, the uniqueness and the
    cardinality of that probe; and [previousExpectedStreams] of a stream is
    the number of other streams on which its own probe depends. No stream
    has a relationship to itself or to a stream that is not in the list. *)
Theorem InnerJoin_new_relationships active streams si :
  (∀ l, qsort compare l ≡ₚ l) →
  si ∈ innerStreams (InnerJoin_new active streams) →
  let probe t := getInversion (list_to_set streams ∪ active) t None in
  indexedRelationships si ≡ₚ
    (λ t, indexRelationship_of (probe t) t) <$>
      filter (λ t, stream si ≠ t ∧ stream si ∈ ic_dependentFromStreams (probe t)) streams ∧
  previousExpectedStreams si =
    length (filter (λ b, b ≠ stream si ∧ b ∈ ic_dependentFromStreams (probe (stream si)))
                   streams) ∧
  ∀ r, r ∈ indexedRelationships si → ir_stream r ≠ stream si ∧ ir_stream r ∈ streams.
Proof.
  intros Hsort Hsi probe.
  destruct (InnerJoin_new_records _ _ _ Hsort Hsi) as (i & _ & _ & _ & Hrels & Hprev).
  fold probe in Hrels, Hprev.
  assert (∀ t b, can_use (probe t) t b = true ↔
                 b ≠ t ∧ b ∈ ic_dependentFromStreams (probe t)) as Hcan.
  { intros t b. unfold can_use.
    by rewrite andb_true_iff, negb_true_iff, Nat.eqb_neq, bool_decide_eq_true. }
  assert (indexedRelationships si ≡ₚ
            (λ t, indexRelationship_of (probe t) t) <$>
              filter (λ t, stream si ≠ t ∧ stream si ∈ ic_dependentFromStreams (probe t))
                     streams) as Hrels'.
  { rewrite Hrels. f_equiv. apply reflexive_eq, list_filter_iff. intros t. apply Hcan. }
  split_and!; [done| |].
  - rewrite Hprev. f_equal. apply list_filter_iff. intros b. apply Hcan.
  - intros r Hr. rewrite Hrels' in Hr.
    apply list_elem_of_fmap in Hr as (t & -> & [[Hne _] Ht]%list_elem_of_filter).
    simpl. split; [congruence|done].
Qed.

Lemma length_filter_ext {A} (P Q : A → Prop) `{∀ x, Decision (P x)} `{∀ x, Decision (Q x)}
    (l : list A) :
  (∀ x, x ∈ l → P x ↔ Q x) → length (filter P l) = length (filter Q l).
Proof.
  induction l as [|x l IH]; intros Hiff; [done|]. rewrite !filter_cons.
  assert (P x ↔ Q x) as Hx by (apply Hiff; by left).
  assert (length (filter P l) = length (filter Q l)) as Hl.
  { apply IH. intros y Hy. apply Hiff. by right. }
  destruct (decide (P x)), (decide (Q x)); simpl; try lia; tauto.
Qed.

Lemma length_filter_fmap {A B} (f : A → B) (P : B → Prop) `{∀ x, Decision (P x)}
    (l : list A) :
  length (filter P (f <$> l)) = length (filter (λ x, P (f x)) l).
Proof.
  induction l as [|x l IH]; [done|]. rewrite fmap_cons, !filter_cons.
  destruct (decide (P (f x))); simpl; by rewrite IH.
Qed.

Lemma InnerJoin_new_streams active streams :
  (∀ l, qsort compare l ≡ₚ l) →
  stream <$> innerStreams (InnerJoin_new active streams) ≡ₚ streams.
Proof.
  intros Hsort. unfold InnerJoin_new, calculateStreamInfo.
  set (ij0 := mkInnerJoin _ _ _ _ _ _ _ _).
  change (innerStreams (holder_restore ?a ?b ?ij)) with (innerStreams ij).
  assert (stream <$> innerStreams ij0 = streams) as Hs0.
  { simpl. rewrite <- list_fmap_compose. apply list_fmap_id. }
  set (ij3 := collect_relationships _ 0 _).
  assert (stream <$> innerStreams ij3 = streams) as Hs3.
  { unfold ij3. rewrite collect_relationships_streams. simpl.
    by rewrite base_costs_streams. }
  destruct (_ && _); [|by rewrite Hs3]. simpl. by rewrite Hsort, Hs3.
Qed.

(** X18. After the construction [previousExpectedStreams] of a stream is
    the number of streams of the list that hold an indexed relationship to
    it: a stream expects no previous stream exactly when no relationship
    leads to it. *)
Theorem InnerJoin_new_expected active streams si :
  (∀ l, qsort compare l ≡ₚ l) →
  si ∈ innerStreams (InnerJoin_new active streams) →
  previousExpectedStreams si =
    length (filter (λ sb, stream si ∈ ir_stream <$> indexedRelationships sb)
                   (innerStreams (InnerJoin_new active streams))) ∧
  (previousExpectedStreams si = 0 ↔
   ∀ sb, sb ∈ innerStreams (InnerJoin_new active streams) →
         stream si ∉ ir_stream <$> indexedRelationships sb).
Proof.
  intros Hsort Hsi.
  destruct (InnerJoin_new_records _ _ _ Hsort Hsi) as (i & Hi & _ & _ & _ & Hprev).
  set (probe := getInversion (list_to_set streams ∪ active)) in *.
  assert (∀ sb, sb ∈ innerStreams (InnerJoin_new active streams) →
            stream si ∈ ir_stream <$> indexedRelationships sb ↔
            can_use (probe (stream si) None) (stream si) (stream sb) = true) as Hiff.
  { intros sb Hsb.
    destruct (InnerJoin_new_records _ _ _ Hsort Hsb) as (_ & _ & _ & _ & Hrels & _).
    fold probe in Hrels. rewrite Hrels, <- list_fmap_compose. split.
    - intros (t & Ht & [Hcan _]%list_elem_of_filter)%list_elem_of_fmap.
      simpl in Ht. by subst t.
    - intros Hcan. apply list_elem_of_fmap. exists (stream si). split; [done|].
      apply list_elem_of_filter. split; [done|]. by eapply list_elem_of_lookup_2. }
  assert (previousExpectedStreams si =
          length (filter (λ sb, stream si ∈ ir_stream <$> indexedRelationships sb)
                         (innerStreams (InnerJoin_new active streams)))) as Hcount.
  { rewrite Hprev.
    trans (length (filter (λ b, can_use (probe (stream si) None) (stream si) b = true)
                          (stream <$> innerStreams (InnerJoin_new active streams)))).
    - apply Permutation_length. f_equiv. symmetry. by apply InnerJoin_new_streams.
    - rewrite length_filter_fmap. apply length_filter_ext.
      intros sb Hsb. symmetry. by apply Hiff. }
  split; [done|]. rewrite Hcount. split.
  - intros Hzero sb Hsb Hin.
    assert (sb ∈ filter (λ sb, stream si ∈ ir_stream <$> indexedRelationships sb)
                        (innerStreams (InnerJoin_new active streams))) as Hf
      by (by apply list_elem_of_filter).
    apply length_zero_iff_nil in Hzero. rewrite Hzero in Hf. by apply elem_of_nil in Hf.
  - intros Hnone.
    destruct (filter _ (innerStreams (InnerJoin_new active streams))) as [|sb rest] eqn:Hf;
      [done|].
    assert (sb ∈ filter (λ sb, stream si ∈ ir_stream <$> indexedRelationships sb)
                        (innerStreams (InnerJoin_new active streams))) as Hin
      by (rewrite Hf; by left).
    apply list_elem_of_filter in Hin as [Hin Hsb]. by destruct (Hnone sb Hsb).
Qed.

Lemma base_costs_members count : ∀ i ij,
  search_members (base_costs count i ij) = search_members ij.
Proof.
  induction count as [|count IH]; intros i ij; simpl; [done|].
  destruct (innerStreams ij !! i); [|done]. by rewrite IH.
Qed.

Lemma relationships_loop_members count : ∀ base test candidate ij,
  search_members (relationships_loop count base test candidate ij) = search_members ij.
Proof.
  induction count as [|count IH]; intros base test candidate ij; simpl; [done|].
  destruct (innerStreams ij !! base); [|done]. destruct (innerStreams ij !! test); [|done].
  rewrite IH. by destruct (_ && _).
Qed.

Lemma collect_relationships_members count : ∀ i ij,
  search_members (collect_relationships count i ij) = search_members ij ∧
  csb_active (collect_relationships count i ij) = csb_active ij.
Proof.
  induction count as [|count IH]; intros i ij; simpl; [done|].
  destruct (IH (S i) (getIndexedRelationships i ij)) as [-> ->].
  destruct (getIndexedRelationships_frame i ij) as [-> _]. split; [|done].
  unfold getIndexedRelationships. destruct (innerStreams ij !! i); [|done].
  apply relationships_loop_members.
Qed.

(** X19. The constructor leaves every stream of the list inactive, also one
    that was active before, and changes the activity of no other stream; it
    allocates one slot per stream and starts with no best order and an empty
    trace. *)
Theorem InnerJoin_new_scratch active streams :
  csb_active (InnerJoin_new active streams) = active ∖ list_to_set streams ∧
  search_members (InnerJoin_new active streams)
  = (replicate (length streams) (mkJoinedStreamInfo 0 0), 0, 0%Q, 0, [], []).
Proof.
  unfold InnerJoin_new, calculateStreamInfo.
  set (ij0 := mkInnerJoin _ _ _ _ _ _ _ _).
  assert (stream <$> innerStreams ij0 = streams) as Hs0.
  { simpl. rewrite <- list_fmap_compose. apply list_fmap_id. }
  assert (Forall (unused_and_closed streams) (innerStreams ij0)) as Hall0.
  { simpl. apply Forall_fmap, Forall_forall. intros s _. split; [done|constructor]. }
  destruct (base_costs_fields (length (innerStreams ij0)) 0 ij0 streams Hall0)
    as (_ & _ & Hcsb1).
  rewrite drop_0, take_ge, Hs0 in Hcsb1 by (rewrite length_fmap; lia).
  pose proof (base_costs_members (length (innerStreams ij0)) 0 ij0) as Hm1.
  set (ij1 := base_costs _ 0 ij0) in *.
  set (ij2 := holder_activate (stream <$> innerStreams ij0) ij1).
  destruct (collect_relationships_members (length (innerStreams ij2)) 0 ij2) as [Hm3 Hcsb3].
  set (ij3 := collect_relationships _ 0 ij2) in *.
  set (ij4 := if negb plan && (1 <? length (innerStreams ij3))
              then set_innerStreams (qsort compare (innerStreams ij3)) ij3 else ij3).
  assert (search_members ij4 = search_members ij3 ∧ csb_active ij4 = csb_active ij3)
    as [Hm4 Hcsb4] by (unfold ij4; by destruct (_ && _)).
  split.
  - simpl. rewrite Hcsb4, Hcsb3. simpl. rewrite Hcsb1. simpl in Hs0. rewrite !Hs0.
    simpl. apply set_eq. intros x.
    rewrite elem_of_union, elem_of_intersection, !elem_of_difference, elem_of_union.
    rewrite !elem_of_difference. tauto.
  - change (search_members (holder_restore ?a ?b ij4)) with (search_members ij4).
    rewrite Hm4, Hm3. change (search_members ij2) with (search_members ij1).
    rewrite Hm1. done.
Qed.

(** ** The descent under an explicit PLAN *)







(** ** Where a descent ends *)
















(** * The properties of the specification *)


(** C2, amended. An invocation of [findBestOrder] does not descend (it logs no
    further order) exactly when, without an explicit PLAN: all remaining
    streams are placed, or a full order is known and the new cost is strictly
    greater than [bestCost], or no stream of the process list is left unused;
    and with an explicit PLAN: no stream is left unused. A prefix whose cost
    equals [bestCost] is extended when a stream is available. *)
Theorem findBestOrder_cut_off fuel position idx pl cost card ij pl' ij' si fl nc ncard ij1 :
  enter position idx cost card ij = Ok (si, fl, nc, ncard, ij1) →
  findBestOrder fuel position idx pl cost card ij = Ok (pl', ij') →
  foundOrders ij' = foundOrders ij1 ↔
  if plan then next_stream (innerStreams ij1) = None
  else S position = remainingStreams ij1 ∨
       (bestCount ij1 = remainingStreams ij1 ∧ (bestCost ij1 < nc)%Q) ∨
       ∃ pl1, add_relationships (innerStreams ij1) (indexedRelationships si) pl = Ok pl1 ∧
              next_relationship (innerStreams ij1) pl1 = Ok None.
Proof.
  intros Henter H.
  rewrite (findBestOrder_descends _ _ _ _ _ _ _ _ _ _ _ _ _ _ Henter H), choose_next_None.
  destruct plan; [done|]. rewrite is_done_true. tauto.
Qed.

(** C3. When some stream not yet used is independent, the search is not
    entered ([findBestOrder] is not invoked, so the trace of found orders and
    the list of cost estimates are as before), and the order returned is one
    stream: the independent stream not yet used of the smallest [baseCost],
    the first of them in the list when several have that cost. *)
Theorem findJoinOrder_independent ij :
  length (joinedStreams ij) = length (innerStreams ij) →
  (∃ si, si ∈ innerStreams ij ∧ independent_candidate si) →
  ∃ i si ij',
    cheapest_independent (innerStreams ij) i si ∧
    findJoinOrder ij = Ok (true, [stream si], ij') ∧
    foundOrders ij' = foundOrders ij ∧ estimates ij' = estimates ij.
Proof.
  intros Hlen (sc & Hsc & Hcand).
  assert (0 < length (joinedStreams ij)) as Hpos.
  { rewrite Hlen. destruct (innerStreams ij); [by apply elem_of_nil in Hsc|simpl; lia]. }
  unfold findJoinOrder.
  set (ij0 := set_remainingStreams 0 (set_bestCount 0 ij)).
  destruct (count_streams_Ok (innerStreams ij0) 0 0 ij0 Hpos) as (f & n & ij1 & Hcount).
  rewrite Hcount. simpl.
  destruct (count_streams_fields _ _ _ _ _ _ _ Hcount)
    as (_ & Hstreams & _ & Hfound & Hest & _ & _).
  pose proof (count_streams_seed (innerStreams ij0) [] 0 0 ij0 f n ij1) as Hseed.
  destruct Hseed as [[_ Hno]|(Hb & i & si & j & Hch & Hcost & Hj & Hbs)]; [|done| |].
  { left. split; [done|]. intros ? []%elem_of_nil. }
  { exfalso. by eapply Hno. }
  exists i, si. rewrite Hb. simpl. rewrite Hb. simpl. rewrite Hj. simpl.
  destruct Hch as (Hi & Hc & Hmin).
  destruct (getStreamInfo_elem_of (innerStreams ij1) (bestStream j)) as [[idx sx] Hg].
  { rewrite Hbs, Hstreams. apply list_elem_of_fmap. exists si. split; [done|].
    apply list_elem_of_lookup. eauto. }
  rewrite Hg. simpl. eexists. split_and!; [done| | |].
  - by rewrite Hbs.
  - simpl. by rewrite Hfound.
  - simpl. by rewrite Hest.
Qed.


(** C5, amended. When first rows are favoured and the first loop counted a
    navigation, without an explicit PLAN and with no independent stream, a
    stream not yet used is tried as a seed exactly when it is [baseNavigated]
    and its [currentFilter] equals the final total of the counter [filters]
    of the first loop. *)
Theorem findJoinOrder_first_rows_seeds ij :
  favorFirstRows = true → plan = false →
  NoDup (stream <$> innerStreams ij) →
  wf_relationships (innerStreams ij) →
  length (joinedStreams ij) = length (innerStreams ij) →
  (∀ si, si ∈ innerStreams ij → ¬ independent_candidate si) →
  0 < snd (first_pass (innerStreams ij) 0 0) →
  ∃ b order ij' new,
    findJoinOrder ij = Ok (b, order, ij') ∧
    foundOrders ij' = foundOrders ij ++ new ∧
    ∀ si, si ∈ innerStreams ij → used si = false →
      ([stream si] ∈ seeds_tried new ↔
       baseNavigated si = true ∧
       (if isFiltered si then 1 else 0) = filters_total (innerStreams ij)).
Proof.
  intros Hfirst Hplan Hnd Hwf Hjs Hno Hnav.
  destruct (findJoinOrder_good ij Hnd Hwf Hjs) as (b & order & ij' & Hrun & _).
  destruct (findJoinOrder_trace _ _ _ _ Hno Hrun) as (new & Hf & Hseeds).
  exists b, order, ij', new. split_and!; [done..|].
  intros si Hsi Hu. rewrite Hseeds, Hplan.
  pose proof (first_pass_filters (innerStreams ij) 0 0) as Hfilters.
  destruct (first_pass (innerStreams ij) 0 0) as [f n]. simpl in *. subst f.
  assert (∀ x, seed_allowed (filters_total (innerStreams ij)) n x = true ↔
               baseNavigated x = true ∧
               (if isFiltered x then 1 else 0) = filters_total (innerStreams ij)) as Hallowed.
  { intros x. unfold seed_allowed. rewrite Hfirst. simpl.
    destruct n; [lia|]. simpl. by rewrite andb_true_iff, Nat.eqb_eq. }
  rewrite <- Hallowed, list_elem_of_fmap. split.
  - intros (x & Heq & [[_ Hx] Hin]%list_elem_of_filter).
    assert (x = si) as -> ; [|done].
    apply list_elem_of_lookup in Hin as [i Hi]. apply list_elem_of_lookup in Hsi as [k Hk].
    assert (i = k) as ->.
    { eapply (NoDup_lookup _ i k (stream x) Hnd); rewrite list_lookup_fmap.
      - by rewrite Hi.
      - rewrite Hk. simpl. congruence. }
    congruence.
  - intros Hx. exists si. split; [done|]. by apply list_elem_of_filter.
Qed.

(** C6. An invocation of [findBestOrder] on a stream that is not used, in a
    state where the stream numbers are distinct and no unused stream is active
    (so the constructor leaves the state), with well-formed relationships and
    enough slots, returns, and on return the used flag of every [StreamInfo]
    and the set of active streams are as they were before the call, although
    the invocation marks its stream used and activates it. The invocation it
    descends to, if any, is made under the same conditions, so this holds at
    every depth of the recursion. *)
Theorem findBestOrder_restores fuel position idx pl cost card ij si :
  NoDup (stream <$> innerStreams ij) →
  inactive_unused ij →
  wf_relationships (innerStreams ij) → wf_processList (innerStreams ij) pl →
  innerStreams ij !! idx = Some si → used si = false →
  position + unused_count (innerStreams ij) ≤ length (joinedStreams ij) →
  unused_count (innerStreams ij) ≤ fuel →
  (∃ pl' ij',
     findBestOrder fuel position idx pl cost card ij = Ok (pl', ij') ∧
     innerStreams ij' = innerStreams ij ∧
     csb_active ij' = csb_active ij) ∧
  ∀ fl nc ncard ij1 pl1 next,
    enter position idx cost card ij = Ok (si, fl, nc, ncard, ij1) →
    choose_next position si nc pl ij1 = Ok (pl1, Some next) →
    used <$> innerStreams ij1 = <[idx := true]> (used <$> innerStreams ij) ∧
    csb_active ij1 = {[stream si]} ∪ csb_active ij ∧
    NoDup (stream <$> innerStreams ij1) ∧
    inactive_unused ij1 ∧
    wf_relationships (innerStreams ij1) ∧ wf_processList (innerStreams ij1) pl1 ∧
    (∃ sn, innerStreams ij1 !! next = Some sn ∧ used sn = false) ∧
    S position + unused_count (innerStreams ij1) ≤ length (joinedStreams ij1) ∧
    S (unused_count (innerStreams ij1)) ≤ fuel.
Proof.
  intros Hnd Hin Hwf Hpl Hsi Hu Hlen Hfuel. split.
  - destruct (findBestOrder_Ok fuel position idx pl cost card ij si) as (pl' & ij' & H);
      [done..|].
    exists pl', ij'. split_and!; [done| |].
    + by eapply findBestOrder_frame.
    + by eapply findBestOrder_csb_active.
  - intros * Henter Hnext.
    destruct (enter_innerStreams _ _ _ _ _ _ _ _ _ _ Henter) as (_ & _ & Hstreams).
    destruct (enter_joinedStreams _ _ _ _ _ _ _ _ _ _ Henter) as (_ & Hlen1 & _).
    destruct (inactive_unused_enter _ _ _ _ _ _ _ _ _ _ Hnd Hin Henter) as [Hnd1 Hin1].
    pose proof (descent_decreases _ _ _ _ _ _ _ _ _ _ Henter Hu) as Hdec.
    assert (wf_relationships (innerStreams ij1)) as Hwf1.
    { rewrite Hstreams. by apply wf_relationships_alter. }
    assert (wf_processList (innerStreams ij1) pl) as Hpl1.
    { unfold wf_processList. by rewrite Hstreams, stream_alter_used. }
    assert (innerStreams ij1 !! idx = Some (set_used true si)) as Hsi1.
    { by rewrite Hstreams, list_lookup_alter_eq, Hsi. }
    destruct (choose_next_Ok position idx (set_used true si) nc pl ij1 Hwf1 Hpl1 Hsi1)
      as (pl1' & next' & Hnext' & Hpl2).
    assert (pl1' = pl1) as ->.
    { assert (choose_next position si nc pl ij1 = Ok (pl1', next')) as H by exact Hnext'.
      congruence. }
    split_and!; try done; try lia.
    + rewrite Hstreams. apply list_eq. intros k.
      rewrite list_lookup_fmap, list_lookup_alter. case_decide as Hk.
      * subst k. rewrite Hsi. simpl. symmetry. apply list_lookup_insert_eq.
        rewrite length_fmap. by eapply lookup_lt_Some.
      * by rewrite list_lookup_insert_ne, list_lookup_fmap.
    + by eapply enter_csb_active.
    + by eapply choose_next_Some.
Qed.

(** C7, amended. [findJoinOrder] returns; when it returns true the order holds
    between 1 and [remainingStreams] streams; the streams of the order are
    pairwise distinct and were not used before the call; and after the call
    the used flag of a stream is true exactly when it was already true before
    the call or the stream is in the order returned. *)
Theorem findJoinOrder_marks_order ij :
  NoDup (stream <$> innerStreams ij) →
  wf_relationships (innerStreams ij) →
  length (joinedStreams ij) = length (innerStreams ij) →
  ∃ b order ij',
    findJoinOrder ij = Ok (b, order, ij') ∧
    (b = true → 1 ≤ length order) ∧
    length order ≤ remainingStreams ij' ∧
    remainingStreams ij' = unused_count (innerStreams ij) ∧
    NoDup order ∧
    (∀ s, s ∈ order → s ∈ unused_streams (innerStreams ij)) ∧
    ∀ k si, innerStreams ij !! k = Some si →
      ∃ si', innerStreams ij' !! k = Some si' ∧ stream si' = stream si ∧
             (used si' = true ↔ used si = true ∨ stream si ∈ order).
Proof.
  intros Hnd Hwf Hjs.
  destruct (findJoinOrder_good ij Hnd Hwf Hjs)
    as (b & order & ij' & Hrun & Hb & Hgood & Hrem & Hstreams & _).
  exists b, order, ij'. split_and!; try done.
  - rewrite Hb. destruct (length order); [done|lia].
  - rewrite Hrem. by eapply good_order_length.
  - by destruct Hgood.
  - by destruct Hgood as (_ & ? & _).
  - intros k si Hsi. rewrite Hstreams, list_lookup_fmap, Hsi. simpl.
    eexists. split; [done|]. case_bool_decide as Hin; simpl.
    + split; [done|]. tauto.
    + split; [done|]. tauto.
Qed.

(** C8, amended. Without an explicit PLAN, every stream after the first of the
    order returned by [findJoinOrder] has an indexed relationship from a
    stream placed before it in the order. *)
Theorem findJoinOrder_reachable ij :
  plan = false →
  NoDup (stream <$> innerStreams ij) →
  wf_relationships (innerStreams ij) →
  length (joinedStreams ij) = length (innerStreams ij) →
  ∃ b order ij',
    findJoinOrder ij = Ok (b, order, ij') ∧
    ∀ k s, order !! k = Some s → 0 < k →
      ∃ t, t ∈ take k order ∧ related (innerStreams ij) t s.
Proof.
  intros Hplan Hnd Hwf Hjs.
  destruct (findJoinOrder_good ij Hnd Hwf Hjs)
    as (b & order & ij' & Hrun & _ & (_ & _ & Hreach) & _).
  exists b, order, ij'. split; [done|]. by apply Hreach.
Qed.

(** C9. When there is no candidate stream (the list of streams is empty, or
    every stream is already used), [findJoinOrder] returns false with an
    empty list of streams, and fails on no assertion. *)
Theorem findJoinOrder_no_candidates ij :
  Forall (λ si, used si = true) (innerStreams ij) →
  findJoinOrder ij = Ok (false, [], set_remainingStreams 0 (set_bestCount 0 ij)).
Proof.
  intros Hused. unfold findJoinOrder. simpl.
  rewrite count_streams_used by done. simpl.
  rewrite try_seeds_used by (simpl; done || lia).
  reflexivity.
Qed.

(** C10. Every invocation of [findBestOrder] terminates: with as much fuel as
    there are streams not used at the call, the recursion never runs out of
    fuel, that is, its depth is at most that number; the stream of the
    invocation is marked used before the descent, which leaves one unused
    stream fewer, and the descent goes to a stream that is not used. *)
Theorem findBestOrder_terminates fuel position idx pl cost card ij si :
  innerStreams ij !! idx = Some si → used si = false →
  unused_count (innerStreams ij) ≤ fuel →
  findBestOrder fuel position idx pl cost card ij ≠ OutOfFuel ∧
  ∀ fl nc ncard ij1 pl1 next,
    enter position idx cost card ij = Ok (si, fl, nc, ncard, ij1) →
    choose_next position si nc pl ij1 = Ok (pl1, Some next) →
    S (unused_count (innerStreams ij1)) = unused_count (innerStreams ij) ∧
    ∃ sn, innerStreams ij1 !! next = Some sn ∧ used sn = false.
Proof.
  intros Hsi Hu Hfuel. split; [by eapply findBestOrder_fuel|].
  intros * Henter Hnext. split; [by eapply descent_decreases|].
  by eapply choose_next_Some.
Qed.

End Search.

(** * The properties on the examples *)

Import Examples.

(** ** The example states are states of the program *)

(** Each example state is built by the constructor from its probe, on a
    scratch with no active stream ([stable_sort] standing for [qsort]). *)
Lemma chain_state_constructed :
  InnerJoin_new false unit None chain_probe unit_cardinality stable_sort ∅ [0; 1; 2]
  = chain_state.
Proof. vm_compute. reflexivity. Qed.

Lemma tie_state_constructed :
  InnerJoin_new false unit None tie_probe unit_cardinality stable_sort ∅ [0; 1] = tie_state.
Proof. vm_compute. reflexivity. Qed.

Lemma independent_state_constructed :
  InnerJoin_new false unit None independent_probe unit_cardinality stable_sort ∅ [0; 1]
  = independent_state.
Proof. vm_compute. reflexivity. Qed.

Lemma planned_independent_state_constructed :
  InnerJoin_new true unit None planned_independent_probe unit_cardinality stable_sort ∅ [0; 1]
  = planned_independent_state.
Proof. vm_compute. reflexivity. Qed.

Lemma planned_state_constructed :
  InnerJoin_new true unit None planned_probe unit_cardinality stable_sort ∅ [0; 1; 2]
  = planned_state.
Proof. vm_compute. reflexivity. Qed.

Lemma planned_navigated_state_constructed :
  InnerJoin_new true unit (Some tt) planned_navigated_probe unit_cardinality stable_sort ∅ [0; 1]
  = planned_navigated_state.
Proof. vm_compute. reflexivity. Qed.

Lemma navigated_state_constructed :
  InnerJoin_new false unit (Some tt) navigated_probe unit_cardinality stable_sort ∅ [0; 1]
  = navigated_state.
Proof. vm_compute. reflexivity. Qed.

Lemma single_state_constructed :
  InnerJoin_new false unit None independent_probe unit_cardinality stable_sort ∅ [0]
  = single_state.
Proof. vm_compute. reflexivity. Qed.

(** [tie_search_state] is [tie_state] after the first loop of [findJoinOrder],
    and [used_state] is [single_state] after [findJoinOrder]. *)
Lemma tie_search_state_reached :
  count_streams (innerStreams tie_state) 0 0 (set_remainingStreams 0 (set_bestCount 0 tie_state))
  = Ok (0, 0, tie_search_state).
Proof. vm_compute. reflexivity. Qed.

Lemma used_state_reached :
  findJoinOrder false false unit None independent_probe unit_cardinality single_state
  = Ok (true, [0], used_state).
Proof. vm_compute. reflexivity. Qed.

(** ** Counterexamples *)


(** C2, counterexample. On the two streams of [tie_state], after the search
    from the first seed has found the full order 0, 1 of cost 15, the
    invocation on the second seed has a new cost of 15: a full order is known
    and the new cost equals [bestCost], so the cut-off worded in the
    specification applies, and yet the invocation descends to stream 0. *)
Lemma tie_is_extended :
  ∃ pl st1 si fl nc ncard ij1 pl1 next,
    findBestOrder false unit None tie_probe unit_cardinality 2 0 0 [] 0 1 tie_search_state
    = Ok (pl, st1) ∧
    enter false unit None tie_probe unit_cardinality 0 1 0 1 st1
    = Ok (si, fl, nc, ncard, ij1) ∧
    bestCount ij1 = remainingStreams ij1 ∧ (nc == bestCost ij1)%Q ∧
    claimed_cut_off 1 nc ij1 = true ∧
    choose_next false 0 si nc [] ij1 = Ok (pl1, Some next).
Proof.
  do 9 eexists. split; [vm_compute; reflexivity|].
  split; [vm_compute; reflexivity|].
  split_and!; vm_compute; reflexivity.
Qed.


(** C5, counterexample. With first rows favoured, on two navigated streams of
    which the second is filtered, the first loop counts one navigation; stream
    0 is not used, is navigated, and its [currentFilter] equals the counter
    [filters] as it was when the first loop visited it, and yet it is not tried
    as a seed. *)
Lemma navigated_seed_not_tried :
  ∃ b order ij' si,
    findJoinOrder false true unit None navigated_probe unit_cardinality navigated_state
    = Ok (b, order, ij') ∧
    0 < snd (first_pass (innerStreams navigated_state) 0 0) ∧
    innerStreams navigated_state !! 0 = Some si ∧ used si = false ∧
    compatible_when_visited (innerStreams navigated_state) 0 si = true ∧
    [stream si] ∉ seeds_tried (foundOrders ij').
Proof.
  do 4 eexists. split; [vm_compute; reflexivity|].
  split_and!; try (vm_compute; reflexivity).
  vm_compute. intros Hin.
  repeat (apply elem_of_cons in Hin as [Hin|Hin]; [done|]). by apply elem_of_nil in Hin.
Qed.

(** C7, counterexample. On two independent streams, a first call of
    [findJoinOrder] returns stream 0 and a second call returns true with
    stream 1; after the second call the used flag of stream 0 is true although
    stream 0 is not in the order returned. *)
Lemma used_before_the_call :
  ∃ ij1 ij2 si,
    findJoinOrder false false unit None independent_probe unit_cardinality independent_state
    = Ok (true, [0], ij1) ∧
    findJoinOrder false false unit None independent_probe unit_cardinality ij1
    = Ok (true, [1], ij2) ∧
    si ∈ innerStreams ij2 ∧ used si = true ∧ stream si ∉ [1].
Proof.
  do 3 eexists. split; [vm_compute; reflexivity|].
  split; [vm_compute; reflexivity|].
  split_and!.
  - vm_compute. by left.
  - reflexivity.
  - vm_compute. intros Hin.
    repeat (apply elem_of_cons in Hin as [Hin|Hin]; [done|]). by apply elem_of_nil in Hin.
Qed.

(** C8, counterexample. Under a PLAN that gives the streams of
    [planned_state] in the order 0, 1, 2, [findJoinOrder] returns that order,
    in which stream 1 has no relationship from stream 0, the only stream
    before it. *)
Lemma plan_order_not_reachable :
  ∃ ij',
    findJoinOrder true false unit None planned_probe unit_cardinality planned_state
    = Ok (true, [0; 1; 2], ij') ∧
    ¬ ∀ k s, [0; 1; 2] !! k = Some s → 0 < k →
        ∃ t, t ∈ take k [0; 1; 2] ∧ related (innerStreams planned_state) t s.
Proof.
  eexists. split; [vm_compute; reflexivity|].
  intros Hreach. destruct (Hreach 1 1 eq_refl ltac:(lia)) as (t & Ht & rels & r & Hin & Hr & Hs).
  cbn in Ht. apply list_elem_of_singleton in Ht as ->.
  cbn in Hin.
  repeat (apply elem_of_cons in Hin as [Hin|Hin]; [simplify_eq|]).
  - apply list_elem_of_singleton in Hr as ->. done.
  - by apply elem_of_nil in Hin.
Qed.

(** ** The theorems at the examples *)

Lemma findJoinOrder_no_candidates_witness :
  findJoinOrder false false unit None independent_probe unit_cardinality used_state
  = Ok (false, [], set_remainingStreams 0 (set_bestCount 0 used_state)).
Proof.
  apply (findJoinOrder_no_candidates false false unit None independent_probe
           unit_cardinality used_state).
  repeat constructor.
Defined.

Lemma findJoinOrder_independent_witness :
  ∃ i si ij',
    cheapest_independent (innerStreams independent_state) i si ∧
    findJoinOrder false false unit None independent_probe unit_cardinality independent_state
    = Ok (true, [stream si], ij') ∧
    foundOrders ij' = foundOrders independent_state ∧
    estimates ij' = estimates independent_state.
Proof.
  apply (findJoinOrder_independent false false unit None independent_probe
           unit_cardinality independent_state).
  - reflexivity.
  - eexists. split; [apply list_elem_of_here|]. split; reflexivity.
Defined.

Lemma findBestOrder_terminates_witness :
  findBestOrder false unit None tie_probe unit_cardinality 2 0 0 [] 0 1 tie_search_state
  ≠ OutOfFuel.
Proof.
  eapply (findBestOrder_terminates false unit None tie_probe unit_cardinality
            2 0 0 [] 0 1 tie_search_state).
  - reflexivity.
  - reflexivity.
  - vm_compute. lia.
Defined.

Lemma findBestOrder_restores_witness :
  ∃ pl' ij',
    findBestOrder false unit None tie_probe unit_cardinality 2 0 0 [] 0 1 tie_search_state
    = Ok (pl', ij') ∧
    innerStreams ij' = innerStreams tie_search_state ∧
    csb_active ij' = csb_active tie_search_state.
Proof.
  apply (λ h1 h2 h3 h4 h5 h6 h7 h8,
           proj1 (findBestOrder_restores false unit None tie_probe unit_cardinality
                    2 0 0 [] 0 1 tie_search_state
                    (mkStreamInfo 0 10%Q 1%Q 0 false false 1 false [relationship 1 5%Q])
                    h1 h2 h3 h4 h5 h6 h7 h8)).
  - apply (bool_decide_unpack _). vm_compute. exact I.
  - by apply inactive_unused_empty.
  - apply wf_relationships_check. repeat constructor.
  - apply wf_processList_nil.
  - reflexivity.
  - reflexivity.
  - vm_compute. lia.
  - vm_compute. lia.
Defined.

Lemma findBestOrder_cut_off_witness :
  ∃ ij' si nc ij1,
    foundOrders ij' = foundOrders ij1 ↔
    S 0 = remainingStreams ij1 ∨
    (bestCount ij1 = remainingStreams ij1 ∧ (bestCost ij1 < nc)%Q) ∨
    ∃ pl1, add_relationships (innerStreams ij1) (indexedRelationships si) [] = Ok pl1 ∧
           next_relationship (innerStreams ij1) pl1 = Ok None.
Proof.
  do 4 eexists.
  eapply (findBestOrder_cut_off false unit None tie_probe unit_cardinality
            2 0 0 [] 0 1 tie_search_state).
  - vm_compute. reflexivity.
  - vm_compute. reflexivity.
Defined.

Lemma findJoinOrder_marks_order_witness :
  ∃ b order ij',
    findJoinOrder false false unit None chain_probe unit_cardinality chain_state
    = Ok (b, order, ij') ∧
    (b = true → 1 ≤ length order) ∧
    length order ≤ remainingStreams ij' ∧
    remainingStreams ij' = unused_count (innerStreams chain_state) ∧
    NoDup order ∧
    (∀ s, s ∈ order → s ∈ unused_streams (innerStreams chain_state)) ∧
    ∀ k si, innerStreams chain_state !! k = Some si →
      ∃ si', innerStreams ij' !! k = Some si' ∧ stream si' = stream si ∧
             (used si' = true ↔ used si = true ∨ stream si ∈ order).
Proof.
  apply (findJoinOrder_marks_order false false unit None chain_probe unit_cardinality
           chain_state).
  - apply (bool_decide_unpack _). vm_compute. exact I.
  - apply wf_relationships_check. repeat constructor.
  - reflexivity.
Defined.

Lemma findJoinOrder_reachable_witness :
  ∃ b order ij',
    findJoinOrder false false unit None chain_probe unit_cardinality chain_state
    = Ok (b, order, ij') ∧
    ∀ k s, order !! k = Some s → 0 < k →
      ∃ t, t ∈ take k order ∧ related (innerStreams chain_state) t s.
Proof.
  apply (findJoinOrder_reachable false false unit None chain_probe unit_cardinality
           chain_state).
  - reflexivity.
  - apply (bool_decide_unpack _). vm_compute. exact I.
  - apply wf_relationships_check. repeat constructor.
  - reflexivity.
Defined.

Lemma findJoinOrder_first_rows_seeds_witness :
  ∃ b order ij' new,
    findJoinOrder false true unit None navigated_probe unit_cardinality navigated_state
    = Ok (b, order, ij') ∧
    foundOrders ij' = foundOrders navigated_state ++ new ∧
    ∀ si, si ∈ innerStreams navigated_state → used si = false →
      ([stream si] ∈ seeds_tried new ↔
       baseNavigated si = true ∧
       (if isFiltered si then 1 else 0) = filters_total (innerStreams navigated_state)).
Proof.
  apply (findJoinOrder_first_rows_seeds false true unit None navigated_probe
           unit_cardinality navigated_state).
  - reflexivity.
  - reflexivity.
  - apply (bool_decide_unpack _). vm_compute. exact I.
  - apply wf_relationships_check. repeat constructor.
  - reflexivity.
  - apply Forall_forall. repeat constructor; intros [_ H]; discriminate H.
  - vm_compute. lia.
Defined.


